(** * Face matching service (script.js): matcher, descriptor store, recognition ledger

    A shallow embedding of [src/script.js].  JavaScript numbers are IEEE 754
    binary64 values, modelled by Rocq's primitive [float]; the SQLite tables
    [faces] and [recognition_logs] are modelled as lists of rows threaded
    through every operation; the external face extractor ([detectFace]), the
    runtime's number/text conversions and the store's reading of a bound text
    are parameters of the sections that use them.  Module [ES] gives the two
    conversions as ECMAScript specifies them (Number::toString and
    StringToNumber), for the statements that depend on what they compute.
    The first part settles the claims of the specification; the second part
    proves further properties of the distance, the matcher, the routes and
    sequences of calls. *)

From Stdlib Require Import ZArith List Bool String Ascii Lia Floats.
From Stdlib Require Import Permutation Sorted DecimalString DecimalZ.
From Stdlib Require QArith Qround Qpower Lqa.
Import ListNotations.

Set Warnings "-inexact-float".
Local Open Scope string_scope.
Local Open Scope Z_scope.

(** ** JavaScript numbers *)

Module JS.

(** [Infinity], the initial [bestMatch.distance]. *)
Definition Infinity : float := infinity.

(** [Math.max(x, y)] on two numbers (ECMAScript 21.3.2.24): NaN if either
    argument is NaN, [+0] is larger than [-0]. *)
Definition Math_max (x y : float) : float :=
  if is_nan x || is_nan y then nan
  else if PrimFloat.Leibniz.eqb y zero && PrimFloat.Leibniz.eqb x neg_zero then zero
  else if (x <? y)%float then y else x.

(** [Math.sqrt]. *)
Definition Math_sqrt (x : float) : float := PrimFloat.sqrt x.

(** The primitive values a request body or a default parameter can hold. *)
Inductive value :=
| Undefined
| Null
| Boolean (b : bool)
| Number (x : float)
| String (s : string).

(** [ToBoolean]: the falsy values are [undefined], [null], [false], [0], [-0],
    [NaN] and the empty string. *)
Definition ToBoolean (v : value) : bool :=
  match v with
  | Undefined | Null => false
  | Boolean b => b
  | Number x => negb (is_zero x || is_nan x)
  | String s => negb (String.eqb s "")
  end.

(** [a || b]. *)
Definition or_else (a b : value) : value := if ToBoolean a then a else b.

(** A slot read from a decoded descriptor: [descriptor[i]] is a number, [null]
    (JSON.parse of a [null] entry) or [undefined] (no such index). *)
Inductive slot :=
| SlotNumber (x : float)
| SlotNull
| SlotUndefined.

(** [ToNumber] on a slot: [null] is [+0], [undefined] is [NaN]. *)
Definition slot_to_number (s : slot) : float :=
  match s with
  | SlotNumber x => x
  | SlotNull => zero
  | SlotUndefined => nan
  end.

(** [descriptor[i]] on a decoded descriptor. *)
Definition get_slot (d : list slot) (i : nat) : slot :=
  nth i d SlotUndefined.

End JS.

(** ** The matcher *)

(** An entry of [getAllFaces()]: [{id, name, descriptor}]. *)
Record registered_face := {
  rf_id : Z;
  rf_name : string;
  rf_descriptor : list JS.slot
}.

(** [bestMatch = { name, distance }]. *)
Record best_match := {
  bm_name : string;
  bm_distance : float
}.

(** The loop body of [calculateDistance]:
    [diff = descriptor1[i] - descriptor2[i]; sum += diff * diff]. *)
Definition sum_step (descriptor2 : list JS.slot) (acc : float * nat) (x : float)
  : float * nat :=
  let '(sum, i) := acc in
  let diff := (x - JS.slot_to_number (JS.get_slot descriptor2 i))%float in
  ((sum + diff * diff)%float, S i).

(** [calculateDistance(descriptor1, descriptor2)]: the loop runs over the
    indices of [descriptor1]. *)
Definition calculateDistance (descriptor1 : list float) (descriptor2 : list JS.slot)
  : float :=
  JS.Math_sqrt (fst (fold_left (sum_step descriptor2) descriptor1 (zero, O))).

(** One iteration of the inner loop of [recognizeFace]:
    [if (distance < bestMatch.distance) bestMatch = { name, distance }]. *)
Definition consider (inputDescriptor : list float) (bestMatch : best_match)
  (registeredFace : registered_face) : best_match :=
  let distance := calculateDistance inputDescriptor (rf_descriptor registeredFace) in
  if (distance <? bm_distance bestMatch)%float
  then {| bm_name := rf_name registeredFace; bm_distance := distance |}
  else bestMatch.

(** The inner loop of [recognizeFace], started from
    [{ name: 'Unknown', distance: Infinity }]. *)
Definition findBestMatch (inputDescriptor : list float)
  (registeredFaces : list registered_face) : best_match :=
  fold_left (consider inputDescriptor) registeredFaces
    {| bm_name := "Unknown"; bm_distance := JS.Infinity |}.

(** [Math.max(0, 100 - (distance * 100))]. *)
Definition confidence_of (distance : float) : float :=
  JS.Math_max 0%float (100 - distance * 100)%float.

(** ** The database *)

(** One entry of the JSON text of a descriptor: a number literal or [null]. *)
Inductive json_token :=
| JsonNumber (text : string)
| JsonNull.

(** A row of [faces]. *)
Record face_row := {
  face_id : Z;
  face_name : string;
  face_descriptor : list json_token;
  face_timestamp : Z;
  face_image_path : option string
}.

(** A row of [recognition_logs]. *)
Record log_row := {
  log_id : Z;
  log_matched_name : string;
  log_confidence : float;
  log_timestamp : Z;
  log_status : string
}.

(** The two tables, each with the counter of its AUTOINCREMENT key.
    [CURRENT_TIMESTAMP] has a resolution of one second: timestamps are whole
    seconds. *)
Record database := {
  faces : list face_row;
  faces_seq : Z;
  recognition_logs : list log_row;
  logs_seq : Z
}.

(** The error a statement can fail with: a NOT NULL column bound to NULL. *)
Inductive db_error :=
| NotNullConstraint (column : string).

(** [logRecognition(matchedName, confidence, status)]: one INSERT into
    [recognition_logs].  [now] is the clock read by [CURRENT_TIMESTAMP]. *)
Definition logRecognition (matchedName : string) (confidence : float) (status : bool)
  (now : Z) (db : database) : (db_error + Z) * database :=
  let statusText := if status then "matched" else "unmatched" in
  let lastID := logs_seq db + 1 in
  (inr lastID,
   {| faces := faces db;
      faces_seq := faces_seq db;
      recognition_logs := recognition_logs db ++
        [ {| log_id := lastID; log_matched_name := matchedName;
             log_confidence := confidence; log_timestamp := now;
             log_status := statusText |} ];
      logs_seq := lastID |}).

(** [deleteFace(faceId)]: [DELETE FROM faces WHERE id = ?]; the statement
    succeeds whether or not a row matches. *)
Definition deleteFace (faceId : Z) (db : database) : (db_error + bool) * database :=
  (inr true,
   {| faces := filter (fun row => negb (face_id row =? faceId)) (faces db);
      faces_seq := faces_seq db;
      recognition_logs := recognition_logs db;
      logs_seq := logs_seq db |}).

(** *** The history query *)

(** [LIMIT ?]: a negative limit is no limit. *)
Definition sql_limit {A : Type} (limit : Z) (rows : list A) : list A :=
  if limit <? 0 then rows else firstn (Z.to_nat limit) rows.

(** [ORDER BY timestamp DESC] as SQL defines it: the rows of the table in an
    order of non-increasing timestamps; the order of rows with equal timestamps
    is not determined. *)
Definition ordered_by_timestamp_desc (table sorted : list log_row) : Prop :=
  Permutation table sorted /\
  StronglySorted (fun a b => log_timestamp b <= log_timestamp a) sorted.

(** The answers [getRecognitionHistory(limit)] may resolve with:
    [SELECT * FROM recognition_logs ORDER BY timestamp DESC LIMIT ?]. *)
Definition history_answer (limit : Z) (db : database) (rows : list log_row) : Prop :=
  exists sorted,
    ordered_by_timestamp_desc (recognition_logs db) sorted /\
    rows = sql_limit limit sorted.

(** One such order, computed: rows with equal timestamps stay in the order
    of the table (insertion order). *)
Fixpoint insert_desc (r : log_row) (l : list log_row) : list log_row :=
  match l with
  | [] => [r]
  | x :: l' =>
      if log_timestamp x <? log_timestamp r then r :: l else x :: insert_desc r l'
  end.

Definition sort_by_timestamp_desc (rows : list log_row) : list log_row :=
  fold_left (fun acc r => insert_desc r acc) rows [].

(** [getRecognitionHistory(limit)], with that order. *)
Definition getRecognitionHistory (limit : Z) (db : database) : list log_row :=
  sql_limit limit (sort_by_timestamp_desc (recognition_logs db)).

(** The [n] most recently recorded entries, newest first. *)
Definition most_recent (n : Z) (db : database) : list log_row :=
  firstn (Z.to_nat n) (rev (recognition_logs db)).

(** ** Runtime conversions between numbers and text *)

(** Decimal digits of a non-negative integer. *)
Definition decimal_of_Z (n : Z) : string :=
  NilEmpty.string_of_uint (N.to_uint (Z.to_N n)).

(** [n / 100] with two fraction digits: the text of [toFixed(2)] for the
    integer [n] of hundredths. *)
Definition hundredths (n : Z) : string :=
  decimal_of_Z (n / 100) ++ "." ++ decimal_of_Z (n mod 100 / 10) ++ decimal_of_Z (n mod 10).

(** One element of [results]. *)
Record face_result := {
  fr_name : string;
  fr_confidence : string;
  fr_isMatched : bool;
  fr_distance : float
}.

(** What [recognizeFace] resolves with. *)
Inductive recognize_result :=
| RecognizeFailure (message : string)
| RecognizeSuccess (results : list face_result).

(** The responses of the two routes. *)
Inductive response :=
| Status400 (error : string)
| Status500 (error : string)
| Registered (message : string) (faceId : Z)
| Recognized (result : recognize_result).

Section Runtime.

(** [Number::toString] and [StringToNumber] of the JavaScript runtime: the
    text of a number, and the number a numeral denotes (also the value
    [JSON.parse] gives a number literal). *)
Variable Number_toString : float -> string.
Variable StringToNumber : string -> float.

(** [ToNumber] on a primitive value. *)
Definition ToNumber (v : JS.value) : float :=
  match v with
  | JS.Undefined => nan
  | JS.Null => zero
  | JS.Boolean b => if b then one else zero
  | JS.Number x => x
  | JS.String s => StringToNumber s
  end.

(** [x < v] for a number [x]: [v] is converted with [ToNumber]. *)
Definition lt_value (x : float) (v : JS.value) : bool := (x <? ToNumber v)%float.

(** [x.toFixed(2)] (ECMAScript 21.1.3.3): a non-finite [x] and an [x] of
    magnitude [10^21] or more print as [ToString(x)]; otherwise the integer [n]
    nearest to [x * 100] (the larger one on a tie) is printed with two fraction
    digits, after a minus sign when [x < 0]. *)
Definition toFixed2 (x : float) : string :=
  match Prim2SF x with
  | S754_nan => "NaN"
  | S754_infinity false => "Infinity"
  | S754_infinity true => "-Infinity"
  | S754_zero _ => "0.00"
  | S754_finite s m e =>
      (if s then "-" else "") ++
      (if (0 <=? e) && (10 ^ 21 <=? Zpos m * 2 ^ e) then Number_toString (abs x)
       else
         let n := if 0 <=? e then 100 * Zpos m * 2 ^ e
                  else (200 * Zpos m + 2 ^ (- e)) / 2 ^ (1 - e) in
         hundredths n)
  end.

(** *** The stored form of a descriptor *)

(** [JSON.stringify] on a number: a finite number prints as [ToString], [NaN]
    and the infinities print as [null]. *)
Definition JSON_stringify_number (x : float) : json_token :=
  if is_finite x then JsonNumber (Number_toString x) else JsonNull.

(** [JSON.stringify(descriptor)]: one entry per index, in index order. *)
Definition JSON_stringify (descriptor : list float) : list json_token :=
  map JSON_stringify_number descriptor.

Definition JSON_parse_token (t : json_token) : JS.slot :=
  match t with
  | JsonNumber text => JS.SlotNumber (StringToNumber text)
  | JsonNull => JS.SlotNull
  end.

(** [JSON.parse(row.descriptor)]. *)
Definition JSON_parse (text : list json_token) : list JS.slot :=
  map JSON_parse_token text.

(** *** Store operations that encode or decode descriptors *)

(** [registerFace(name, descriptor, imagePath)]: one INSERT into [faces]; a
    missing [name] is bound as NULL.  No other check is made. *)
Definition registerFace (name : option string) (descriptor : list float)
  (imagePath : option string) (now : Z) (db : database) : (db_error + Z) * database :=
  let descriptorJSON := JSON_stringify descriptor in
  match name with
  | None => (inl (NotNullConstraint "faces.name"), db)
  | Some name =>
      let lastID := faces_seq db + 1 in
      (inr lastID,
       {| faces := faces db ++ [ {| face_id := lastID; face_name := name;
                                   face_descriptor := descriptorJSON;
                                   face_timestamp := now;
                                   face_image_path := imagePath |} ];
          faces_seq := lastID;
          recognition_logs := recognition_logs db;
          logs_seq := logs_seq db |})
  end.

(** [getAllFaces()]: every row, in the order of the table, with its
    descriptor decoded. *)
Definition getAllFaces (db : database) : list registered_face :=
  map (fun row => {| rf_id := face_id row; rf_name := face_name row;
                     rf_descriptor := JSON_parse (face_descriptor row) |})
      (faces db).

(** ** The orchestrator *)

(** [detectFace(imagePath)], the external extractor: the descriptors of the
    detected faces, or [None] for the [null] it returns on an error. *)
Variable detectFace : string -> option (list (list float)).

(** The body of the loop over [detections] in [recognizeFace]: match one
    descriptor, push its result and log the attempt.  The source does not
    await [logRecognition]: here the entry is written at once, in the order of
    the detections, which is one of the executions the store may choose (see
    [recognizeFace_issued] and [execute_logs] for the inserts as issued). *)
Definition recognize_one (registeredFaces : list registered_face) (threshold : JS.value)
  (now : Z) (acc : list face_result * database) (inputDescriptor : list float)
  : list face_result * database :=
  let '(results, db) := acc in
  let bestMatch := findBestMatch inputDescriptor registeredFaces in
  let isMatch := lt_value (bm_distance bestMatch) threshold in
  let confidence := confidence_of (bm_distance bestMatch) in
  ((results ++ [ {| fr_name := bm_name bestMatch;
                    fr_confidence := toFixed2 confidence;
                    fr_isMatched := isMatch;
                    fr_distance := bm_distance bestMatch |} ])%list,
   snd (logRecognition (bm_name bestMatch) confidence isMatch now db)).

(** [recognizeFace(imagePath, threshold = 0.5)]: the default applies when the
    argument is [undefined]. *)
Definition recognizeFace (imagePath : string) (threshold : JS.value) (now : Z)
  (db : database) : recognize_result * database :=
  let threshold := match threshold with JS.Undefined => JS.Number 0.5 | t => t end in
  match detectFace imagePath with
  | None | Some [] => (RecognizeFailure "No face detected in image", db)
  | Some detections =>
      let registeredFaces := getAllFaces db in
      let '(results, db') :=
        fold_left (recognize_one registeredFaces threshold now) detections ([], db) in
      (RecognizeSuccess results, db')
  end.

(** A request field is present when it is a non-empty string. *)
Definition present (field : option string) : bool :=
  match field with
  | Some s => negb (String.eqb s "")
  | None => false
  end.

(** [app.post('/api/register')]. *)
Definition api_register (name imagePath : option string) (now : Z) (db : database)
  : response * database :=
  match name, imagePath with
  | Some n, Some path =>
      if negb (present name) || negb (present imagePath)
      then (Status400 "Name and image path are required", db)
      else
        match detectFace path with
        | None | Some [] => (Status400 "No face detected in the provided image", db)
        | Some [descriptor] =>
            match registerFace name descriptor imagePath now db with
            | (inr faceId, db') =>
                (Registered ("Face registered successfully for " ++ n) faceId, db')
            | (inl (NotNullConstraint column), db') =>
                (Status500 ("SQLITE_CONSTRAINT: NOT NULL constraint failed: " ++ column), db')
            end
        | Some (_ :: _ :: _) =>
            (Status400 "Multiple faces detected. Please provide an image with only one face", db)
        end
  | _, _ => (Status400 "Name and image path are required", db)
  end.

(** [app.post('/api/recognize')]: [recognizeFace(imagePath, threshold || 0.5)]. *)
Definition api_recognize (imagePath : option string) (threshold : JS.value) (now : Z)
  (db : database) : response * database :=
  match imagePath with
  | Some path =>
      if negb (present imagePath) then (Status400 "Image path is required", db)
      else
        let '(result, db') :=
          recognizeFace path (JS.or_else threshold (JS.Number 0.5)) now db in
        (Recognized result, db')
  | None => (Status400 "Image path is required", db)
  end.

End Runtime.

(** ** Vocabulary of the statements *)

(** The distance from the query to an enrolled record, as the loop computes it. *)
Definition distance_to (q : list float) (r : registered_face) : float :=
  calculateDistance q (rf_descriptor r).

(** What the inner loop holds after the records [seen]: the initial
    [Unknown]/[Infinity] when no record seen has a distance below [Infinity];
    otherwise the record at some index [i], whose distance no record seen is
    strictly below, and which every record before [i] is strictly above (or
    not comparable with, its distance being NaN). *)
Definition selected (q : list float) (seen : list registered_face) (best : best_match)
  : Prop :=
  (best = {| bm_name := "Unknown"; bm_distance := JS.Infinity |} /\
   forall r, In r seen -> (distance_to q r <? JS.Infinity)%float = false)
  \/
  exists (i : nat) (r : registered_face),
    nth_error seen i = Some r /\
    best = {| bm_name := rf_name r; bm_distance := distance_to q r |} /\
    (distance_to q r <? JS.Infinity)%float = true /\
    (forall r', In r' seen -> (distance_to q r' <? distance_to q r)%float = false) /\
    (forall j r', (j < i)%nat -> nth_error seen j = Some r' ->
                  (distance_to q r' <=? distance_to q r)%float = false).

(** The database after [initializeDatabase]. *)
Definition empty_db : database :=
  {| faces := []; faces_seq := 0; recognition_logs := []; logs_seq := 0 |}.

(** A few entries of the runtime's number/text conversions, enough for the
    sample descriptors below: each numeral is the one ECMAScript prints for
    the number, and reads back as that number. *)
Definition sample_numerals : list (float * string) :=
  [ (0.1, "0.1"); (0.2, "0.2"); (0.3, "0.3"); (0.25, "0.25"); (0.5, "0.5");
    (1, "1"); (0, "0") ]%float.

Definition sample_Number_toString (x : float) : string :=
  match find (fun entry => (fst entry =? x)%float) sample_numerals with
  | Some entry => snd entry
  | None => "NaN"
  end.

Definition sample_StringToNumber (s : string) : float :=
  match find (fun entry => String.eqb (snd entry) s) sample_numerals with
  | Some entry => fst entry
  | None => nan
  end.

(** A ledger of five attempts recorded in five different seconds. *)
Definition sample_ledger : database :=
  fold_left
    (fun db entry => snd (logRecognition (fst (fst entry)) (snd (fst entry)) true (snd entry) db))
    [ ("Alice", 99%float, 100); ("Bob", 98%float, 101); ("Alice", 97%float, 102);
      ("Carol", 96%float, 103); ("Bob", 95%float, 104) ]
    empty_db.

(** The error kinds of the enroll flow, as the route answers them. *)
Definition NoFaceDetected : response :=
  Status400 "No face detected in the provided image".

Definition AmbiguousInput : response :=
  Status400 "Multiple faces detected. Please provide an image with only one face".

(** An extractor that finds no face in [empty.jpg], two in [pair.jpg] and one
    elsewhere. *)
Definition sample_detectFace (imagePath : string) : option (list (list float)) :=
  if String.eqb imagePath "empty.jpg" then Some []
  else if String.eqb imagePath "pair.jpg"
       then Some [ [0.1; 0.2; 0.3]; [0.5; 0.25; 1] ]%float
       else Some [ [0.1; 0.2; 0.3] ]%float.

(** An extractor for the end-to-end scenario: the probe image holds one face. *)
Definition probe_detectFace (imagePath : string) : option (list (list float)) :=
  if String.eqb imagePath "probe.jpg" then Some [ [0.1; 0.2; 0.31] ]%float
  else Some [ [0.1; 0.2; 0.3] ]%float.

(** ** Vocabulary of the further properties *)

(** The floats whose sign bit is clear, NaN included: what a sum of squares
    and its square root can be. *)
Definition sign_clear (f : spec_float) : bool :=
  match f with
  | S754_zero s | S754_infinity s | S754_finite s _ _ => negb s
  | S754_nan => true
  end.


(** NaN and [+infinity]: what the distance is when the query holds a
    component that is not finite. *)
Definition inf_or_nan (f : spec_float) : bool :=
  match f with
  | S754_nan | S754_infinity false => true
  | _ => false
  end.

(** ** The listing route and sequences of calls *)

(** The body of the answer of [app.get('/api/faces')]: [count] and, for every
    face, its [id] and [name]; the descriptors are left out. *)
Record faces_listing := {
  fl_count : nat;
  fl_faces : list (Z * string)
}.

(** What [app.get('/api/history')] answers: [count] and [history], or the
    message of the error the query failed with. *)
Inductive history_response :=
| History (count : nat) (history : list log_row)
| HistoryError (error : string).

(** What [app.delete('/api/faces/:id')] answers. *)
Inductive delete_response :=
| DeleteSuccess (message : string).

(** The calls that write to the database: the exported functions
    [registerFace], [recognizeFace] and [deleteFace], the two POST routes and
    the DELETE route. *)
Inductive call :=
| CallRegisterFace (name : option string) (descriptor : list float)
    (imagePath : option string)
| CallRecognizeFace (imagePath : string) (threshold : JS.value)
| CallDeleteFace (faceId : Z)
| PostRegister (name imagePath : option string)
| PostRecognize (imagePath : option string) (threshold : JS.value)
| DeleteRoute (faceId : string).

Section Service.

Variable Number_toString : float -> string.
Variable StringToNumber : string -> float.
Variable detectFace : string -> option (list (list float)).

(** What the store does with a bound TEXT value (route and query parameters
    are strings): whether [WHERE id = ?] equates it with an INTEGER key, and
    the integer [LIMIT ?] reads it as, or the message of the error raised. *)
Variable key_equals_text : Z -> string -> bool.
Variable limit_of_text : string -> string + Z.

(** [app.get('/api/faces')]. *)
Definition api_faces (db : database) : faces_listing :=
  let faces := getAllFaces StringToNumber db in
  {| fl_count := List.length faces;
     fl_faces := map (fun f => (rf_id f, rf_name f)) faces |}.

(** [app.get('/api/history')]: [limit = req.query.limit || 50], the query
    parameter being a string when it is given. *)
Definition api_history (limit : option string) (db : database) : history_response :=
  match limit with
  | Some text =>
      if present limit
      then match limit_of_text text with
           | inr n =>
               let history := getRecognitionHistory n db in
               History (List.length history) history
           | inl message => HistoryError message
           end
      else
        let history := getRecognitionHistory 50 db in
        History (List.length history) history
  | None =>
      let history := getRecognitionHistory 50 db in
      History (List.length history) history
  end.

(** [deleteFace(faceId)] as the DELETE route calls it, with the string
    [req.params.id]. *)
Definition deleteFace_text (faceId : string) (db : database)
  : (db_error + bool) * database :=
  (inr true,
   {| faces := filter (fun row => negb (key_equals_text (face_id row) faceId)) (faces db);
      faces_seq := faces_seq db;
      recognition_logs := recognition_logs db;
      logs_seq := logs_seq db |}).

(** [app.delete('/api/faces/:id')]. *)
Definition api_delete (faceId : string) (db : database) : delete_response * database :=
  let '(_, db') := deleteFace_text faceId db in
  (DeleteSuccess ("Face with ID " ++ faceId ++ " deleted successfully"), db').

(** The database after one call, made when the clock reads [now]. *)
Definition perform (c : call) (now : Z) (db : database) : database :=
  match c with
  | CallRegisterFace name descriptor imagePath =>
      snd (registerFace Number_toString name descriptor imagePath now db)
  | CallRecognizeFace imagePath threshold =>
      snd (recognizeFace Number_toString StringToNumber detectFace imagePath threshold now db)
  | CallDeleteFace faceId => snd (deleteFace faceId db)
  | PostRegister name imagePath =>
      snd (api_register Number_toString detectFace name imagePath now db)
  | PostRecognize imagePath threshold =>
      snd (api_recognize Number_toString StringToNumber detectFace imagePath threshold now db)
  | DeleteRoute faceId => snd (api_delete faceId db)
  end.

(** The database after a sequence of calls, each completed before the next
    is made. *)
Definition run (calls : list (call * Z)) (db : database) : database :=
  fold_left (fun db c => perform (fst c) (snd c) db) calls db.

End Service.

(** A comparison of keys with texts for the examples: a key equals the text
    of its decimal numeral. *)
Definition sample_key_equals_text (key : Z) (text : string) : bool :=
  String.eqb (decimal_of_Z key) text.

(** [lo < k1 < k2 < ... < kn <= hi]: the keys of a table whose key is
    AUTOINCREMENT, in the order of the table, with [hi] the counter of the
    sequence. *)
Fixpoint keys_ascending (lo : Z) (keys : list Z) (hi : Z) : bool :=
  match keys with
  | [] => lo <=? hi
  | k :: rest => (lo <? k) && keys_ascending k rest hi
  end.

(** Both tables have their keys in sequence. *)
Definition store_consistent (db : database) : bool :=
  keys_ascending 0 (map face_id (faces db)) (faces_seq db) &&
  keys_ascending 0 (map log_id (recognition_logs db)) (logs_seq db).

(** A ledger entry as [recognizeFace] writes them: a confidence in
    [[0, 100]] and one of the two status texts. *)
Definition entry_well_formed (e : log_row) : bool :=
  (0 <=? log_confidence e)%float && (log_confidence e <=? 100)%float &&
  (String.eqb (log_status e) "matched" || String.eqb (log_status e) "unmatched").

(** What every call keeps: the counter of [faces] does not decrease, keys
    in sequence stay in sequence, and the ledger only grows, by well-formed
    entries. *)
Definition follows (db db' : database) : Prop :=
  faces_seq db <= faces_seq db' /\
  (store_consistent db = true -> store_consistent db' = true) /\
  exists added : list log_row,
    recognition_logs db' = (recognition_logs db ++ added)%list /\
    Forall (fun e => entry_well_formed e = true) added.

(** The result pushed for the query [q] matched against [registeredFaces]. *)
Definition result_for (StringToNumber : string -> float)
  (registeredFaces : list registered_face) (threshold : JS.value)
  (fr : face_result) (q : list float) : Prop :=
  fr_name fr = bm_name (findBestMatch q registeredFaces) /\
  fr_distance fr = bm_distance (findBestMatch q registeredFaces) /\
  fr_isMatched fr = lt_value StringToNumber (fr_distance fr) threshold.

(** The ledger entry [e] records the result [fr]. *)
Definition records (Number_toString : float -> string) (now : Z)
  (e : log_row) (fr : face_result) : Prop :=
  log_matched_name e = fr_name fr /\
  log_confidence e = confidence_of (fr_distance fr) /\
  fr_confidence fr = toFixed2 Number_toString (log_confidence e) /\
  log_status e = (if fr_isMatched fr then "matched" else "unmatched") /\
  log_timestamp e = now.

(** The [n] keys that follow [k] in an AUTOINCREMENT sequence. *)
Definition next_keys (k : Z) (n : nat) : list Z :=
  map (fun i => k + Z.of_nat i) (seq 1 n).

(** ** The inserts a recognize call issues *)

(** [recognizeFace] calls [logRecognition] without awaiting it: each INSERT is
    handed to the store, which executes the inserts it holds in an order of
    its own, possibly after the call has resolved.  An insert as issued: the
    arguments of the [logRecognition] call. *)
Record issued_log := {
  il_matched_name : string;
  il_confidence : float;
  il_status : bool
}.

Section Issue.

Variable Number_toString : float -> string.
Variable StringToNumber : string -> float.
Variable detectFace : string -> option (list (list float)).

(** The body of the loop over [detections] in [recognizeFace], the insert
    issued and not yet executed. *)
Definition recognize_issue (registeredFaces : list registered_face) (threshold : JS.value)
  (acc : list face_result * list issued_log) (inputDescriptor : list float)
  : list face_result * list issued_log :=
  let '(results, issued) := acc in
  let bestMatch := findBestMatch inputDescriptor registeredFaces in
  let isMatch := lt_value StringToNumber (bm_distance bestMatch) threshold in
  let confidence := confidence_of (bm_distance bestMatch) in
  ((results ++ [ {| fr_name := bm_name bestMatch;
                    fr_confidence := toFixed2 Number_toString confidence;
                    fr_isMatched := isMatch;
                    fr_distance := bm_distance bestMatch |} ])%list,
   (issued ++ [ {| il_matched_name := bm_name bestMatch;
                   il_confidence := confidence;
                   il_status := isMatch |} ])%list).

(** [recognizeFace(imagePath, threshold = 0.5)]: what it resolves with, and
    the inserts it has issued by then, in the order of the calls. *)
Definition recognizeFace_issued (imagePath : string) (threshold : JS.value)
  (db : database) : recognize_result * list issued_log :=
  let threshold := match threshold with JS.Undefined => JS.Number 0.5 | t => t end in
  match detectFace imagePath with
  | None | Some [] => (RecognizeFailure "No face detected in image", [])
  | Some detections =>
      let registeredFaces := getAllFaces StringToNumber db in
      let '(results, issued) :=
        fold_left (recognize_issue registeredFaces threshold) detections ([], []) in
      (RecognizeSuccess results, issued)
  end.

End Issue.

(** The database after the store has executed the inserts of [executed], in
    that order, each at the clock reading paired with it. *)
Definition execute_logs (executed : list (issued_log * Z)) (db : database) : database :=
  fold_left
    (fun db e => snd (logRecognition (il_matched_name (fst e)) (il_confidence (fst e))
                        (il_status (fst e)) (snd e) db))
    executed db.

(** The insert [il] is the one issued for the result [fr]. *)
Definition issued_for (Number_toString : float -> string)
  (il : issued_log) (fr : face_result) : Prop :=
  il_matched_name il = fr_name fr /\
  il_confidence il = confidence_of (fr_distance fr) /\
  il_status il = fr_isMatched fr /\
  fr_confidence fr = toFixed2 Number_toString (il_confidence il).

(** The ledger entry [e] is what executing [ex] wrote. *)
Definition written_by (e : log_row) (ex : issued_log * Z) : Prop :=
  log_matched_name e = il_matched_name (fst ex) /\
  log_confidence e = il_confidence (fst ex) /\
  log_status e = (if il_status (fst ex) then "matched" else "unmatched") /\
  log_timestamp e = snd ex.

(** ** Binary64 arithmetic: definitions

    The order of the floats and the monotonicity of the rounded operations
    used by the confidence formula, derived from the specification of the
    primitive floats ([SpecFloat], [FloatAxioms]). *)

Module IEEE.

(** A bound above the value of every finite float, in units of [2^-1074]. *)
Definition rank_top : Z := 2 ^ 2098.

(** The value of a float in units of [2^-1074], an integer for every valid
    float; the infinities are placed beyond every finite value. *)
Definition SFrank (f : spec_float) : Z :=
  match f with
  | S754_zero _ => 0
  | S754_nan => 0
  | S754_infinity s => if s then - rank_top else rank_top
  | S754_finite s m e => if s then - (Zpos m * 2 ^ (e + 1074)) else Zpos m * 2 ^ (e + 1074)
  end.

(** NaN, which compares with nothing. *)
Definition SFis_nan (f : spec_float) : bool :=
  match f with S754_nan => true | _ => false end.

(** Round to nearest, ties to even, of [M / 2^n]. *)
Definition rne (M n : Z) : Z :=
  let q := M / 2 ^ n in
  let r := M mod 2 ^ n in
  if (2 ^ n <? 2 * r) || ((2 ^ n =? 2 * r) && Z.odd q) then q + 1 else q.

(** The record obtained after shifting [M] right by [n] bits. *)
Definition shr_inv (M n : Z) (mrs : shr_record) : Prop :=
  exists r,
    M = shr_m mrs * 2 ^ n + r /\ 0 <= r < 2 ^ n /\ 0 <= shr_m mrs /\
    (shr_r mrs = true <-> 2 ^ n <= 2 * r) /\
    (shr_s mrs = true <-> (r <> 0 /\ 2 * r <> 2 ^ n)).

(** The float produced from the rounded mantissa [m1] at exponent [f]. *)
Definition round_result (s : bool) (m1 f : Z) : spec_float :=
  match m1 with
  | Zpos p =>
      if m1 =? 2 ^ 53
      then (if f + 1 <=? 971 then S754_finite s 4503599627370496 (f + 1) else S754_infinity s)
      else (if f <=? 971 then S754_finite s p f else S754_infinity s)
  | _ => S754_zero s
  end.

(** Exponent of the rounded result of [M * 2^e]. *)
Definition rexp (M : positive) (e : Z) : Z := fexp prec emax (Zpos (digits2_pos M) + e).

(** The input [M * 2^e] needs no left shift before it is rounded. *)
Definition aligned (M : positive) (e : Z) : Prop := e <= rexp M e.

(** The rounded mantissa. *)
Definition rnd_m (M : positive) (e : Z) : Z := rne (Zpos M) (rexp M e - e).

(** The rounded value in units of [2^-1074]. *)
Definition rnd_val (M : positive) (e : Z) : Z := rnd_m M e * 2 ^ (rexp M e + 1074).

(** [M1 * 2^e1 <= M2 * 2^e2], stated over the integers. *)
Definition vle (M1 : positive) (e1 : Z) (M2 : positive) (e2 : Z) : Prop :=
  Zpos M1 * 2 ^ (e1 - Z.min e1 e2) <= Zpos M2 * 2 ^ (e2 - Z.min e1 e2).

(** The floats [x] with [0 <= x]: the zeros, the positive finite floats and
    [+infinity]. *)
Definition SFnonneg (a : spec_float) : bool :=
  match a with
  | S754_zero _ | S754_finite false _ _ | S754_infinity false => true
  | _ => false
  end.

(** [100], as [Prim2SF] gives it. *)
Definition M100 : positive := 7036874417766400.

Definition F100 : spec_float := S754_finite false M100 (-46).

(** The rank of [100]. *)
Definition R100 : Z := SFrank F100.

(** The rank of a primitive float. *)
Definition fval (x : float) : Z := SFrank (Prim2SF x).

Ltac cmp_by_lia :=
  cbv beta iota; apply f_equal; symmetry;
  first [ apply Z.compare_eq_iff; lia
        | apply Z.compare_lt_iff; lia
        | apply Z.compare_gt_iff; lia ].

End IEEE.

(** ** The runtime's conversions, as ECMAScript specifies them *)

Module ES.

Import QArith Qround.
Local Open Scope string_scope.
Local Open Scope Z_scope.

(** The nearest integer to [t], the even one when [t] is half way. *)
Definition round_half_even (t : Q) : Z :=
  let fl := Qfloor t in
  match (t - inject_Z fl ?= 1 # 2)%Q with
  | Lt => fl
  | Gt => fl + 1
  | Eq => if Z.even fl then fl else fl + 1
  end.

(** For [v > 0], the [E] with [2^(E-1) <= v < 2^E]. *)
Definition binade (v : Q) : Z :=
  match Qnum v with
  | Zpos a =>
      let d := Zpos (digits2_pos a) - Zpos (digits2_pos (Qden v)) in
      if Qle_bool (2 ^ d) v then d + 1 else d
  | _ => 0
  end.

(** The Number value for [v >= 0] (ECMAScript 6.1.6.1), with the sign [s]:
    [v] rounded to the nearest binary64 value, to the one with an even
    significand when half way, to infinity from [2^1024 - 2^970] on. *)
Definition number_value (s : bool) (v : Q) : spec_float :=
  let v := Qred v in
  let f := fexp prec emax (binade v) in
  IEEE.round_result s (round_half_even (v / 2 ^ f)) f.

(** [m * 2^e] and [d * 10^j]. *)
Definition float_value (m : positive) (e : Z) : Q := (inject_Z (Zpos m) * 2 ^ e)%Q.

Definition decimal_value (d j : Z) : Q := (inject_Z d * 10 ^ j)%Q.

(** *** Decimal digits *)

Definition digit_char (d : Z) : ascii := ascii_of_nat (48 + Z.to_nat d).

Definition is_digit (c : ascii) : bool :=
  let n := Z.of_nat (nat_of_ascii c) in (48 <=? n) && (n <=? 57).

Definition char_digit (c : ascii) : Z := Z.of_nat (nat_of_ascii c) - 48.

(** The digits of [n >= 0], most significant first. *)
Fixpoint to_digits (fuel : nat) (n : Z) : list Z :=
  match fuel with
  | O => []
  | S fuel' => if n <? 10 then [n] else (to_digits fuel' (n / 10) ++ [n mod 10])%list
  end.

Definition decimal_digits (n : Z) : list ascii :=
  map digit_char (to_digits (S (Z.to_nat (Z.log2 n))) n).

(** The integer a string of digits denotes. *)
Definition digits_number (ds : list ascii) : Z :=
  fold_left (fun a c => 10 * a + char_digit c) ds 0.

(** *** Number::toString (ECMAScript 6.1.6.1.20, radix 10) *)

(** The decimal expansion of [m * 2^e]: the [d] and [j] with
    [m * 2^e = d * 10^j]. *)
Definition exact_decimal (m : positive) (e : Z) : Z * Z :=
  if 0 <=? e then (Zpos m * 2 ^ e, 0) else (Zpos m * 5 ^ (- e), e).

(** The [n] with [10^(n-1) <= m * 2^e < 10^n]. *)
Definition decade (m : positive) (e : Z) : Z :=
  let '(d, j) := exact_decimal m e in
  Z.of_nat (List.length (decimal_digits d)) + j.

(** The decimals [s * 10^j] with [k] digits next to [v], the nearer first (on
    a tie the one with [s] even); [10^k * 10^j] is written [1 * 10^(j+k)]. *)
Definition candidates_at (v : Q) (n k : Z) : list (Z * Z) :=
  let j := n - k in
  let t := (v / 10 ^ j)%Q in
  let lo := Qfloor t in
  let hi := lo + 1 in
  let norm s := if s =? 10 ^ k then (1, j + k) else (s, j) in
  match (t - inject_Z lo ?= 1 # 2)%Q with
  | Lt => [norm lo; norm hi]
  | Gt => [norm hi; norm lo]
  | Eq => if Z.even lo then [norm lo; norm hi] else [norm hi; norm lo]
  end.

(** The Number value for [s * 10^j] is [m * 2^e]. *)
Definition reads_back (m : positive) (e : Z) (c : Z * Z) : bool :=
  (0 <? fst c) &&
  match number_value false (decimal_value (fst c) (snd c)) with
  | S754_finite false m' e' => Pos.eqb m' m && (e' =? e)
  | _ => false
  end.

(** The [s] and [n - k] of step 5: [k] as small as possible, [s * 10^(n-k)]
    a decimal whose Number value is [m * 2^e], the nearest one to it.  No
    binary64 value needs more than 17 digits. *)
Definition shortest_decimal (m : positive) (e : Z) : option (Z * Z) :=
  let v := float_value m e in
  let n := decade m e in
  find (reads_back m e)
    (flat_map (fun k => candidates_at v n (Z.of_nat k)) (seq 1 17)).

(** Steps 6 to 10: the text for the digits [ds] of [s] and [n]. *)
Definition format (ds : list ascii) (n : Z) : list ascii :=
  let k := Z.of_nat (List.length ds) in
  if (k <=? n) && (n <=? 21)
  then (ds ++ repeat "0"%char (Z.to_nat (n - k)))%list
  else if (0 <? n) && (n <=? 21)
  then (firstn (Z.to_nat n) ds ++ "."%char :: skipn (Z.to_nat n) ds)%list
  else if (-6 <? n) && (n <=? 0)
  then ("0"%char :: "."%char :: repeat "0"%char (Z.to_nat (- n)) ++ ds)%list
  else
    let exponent :=
      (if n - 1 <? 0 then "-"%char else "+"%char) :: decimal_digits (Z.abs (n - 1)) in
    match ds with
    | [] => []
    | [d] => d :: "e"%char :: exponent
    | d :: rest => (d :: "."%char :: rest ++ "e"%char :: exponent)%list
    end.

Definition positive_text (m : positive) (e : Z) : list ascii :=
  match shortest_decimal m e with
  | Some (s, j) =>
      let ds := decimal_digits s in
      format ds (Z.of_nat (List.length ds) + j)
  | None => []
  end.

Definition Number_toString (x : float) : string :=
  match Prim2SF x with
  | S754_nan => "NaN"
  | S754_zero _ => "0"
  | S754_infinity false => "Infinity"
  | S754_infinity true => "-Infinity"
  | S754_finite s m e =>
      string_of_list_ascii ((if s then ["-"%char] else []) ++ positive_text m e)%list
  end.

(** *** StringToNumber (ECMAScript 7.1.4.1.1), on strings of ASCII characters *)

(** The value of a literal is rounded as it stands; a runtime may first drop
    the digits after the twentieth, and the numerals [Number_toString]
    writes have seventeen digits at most. *)

Definition is_white_space (c : ascii) : bool :=
  let n := nat_of_ascii c in
  ((9 <=? n) && (n <=? 13))%nat || (n =? 32)%nat.

Fixpoint trim_left (s : list ascii) : list ascii :=
  match s with
  | c :: rest => if is_white_space c then trim_left rest else s
  | [] => []
  end.

Definition trim (s : list ascii) : list ascii :=
  rev (trim_left (rev (trim_left s))).

(** The longest prefix of digits, and what follows it. *)
Fixpoint take_digits (s : list ascii) : list ascii * list ascii :=
  match s with
  | c :: rest =>
      if is_digit c
      then let '(ds, rest') := take_digits rest in (c :: ds, rest')
      else ([], s)
  | [] => ([], [])
  end.

(** [SignedInteger], to the end of the text. *)
Definition parse_exponent (s : list ascii) : option Z :=
  let '(negative, ds) :=
    match s with
    | c :: rest =>
        if Ascii.eqb c "-" then (true, rest)
        else if Ascii.eqb c "+" then (false, rest)
        else (false, s)
    | [] => (false, s)
    end in
  match ds with
  | [] => None
  | _ :: _ =>
      if forallb is_digit ds
      then Some (if negative then - digits_number ds else digits_number ds)
      else None
  end.

(** [StrUnsignedDecimalLiteral] other than [Infinity]: the digits [d] and the
    exponent [j] of its value [d * 10^j]. *)
Definition parse_unsigned (s : list ascii) : option (Z * Z) :=
  let '(ip, r1) := take_digits s in
  let '(fp, r2) :=
    match r1 with
    | c :: rest => if Ascii.eqb c "." then take_digits rest else ([], r1)
    | [] => ([], r1)
    end in
  match (ip ++ fp)%list with
  | [] => None
  | _ :: _ =>
      let d := digits_number (ip ++ fp)%list in
      let shift := - Z.of_nat (List.length fp) in
      match r2 with
      | [] => Some (d, shift)
      | c :: rest =>
          if Ascii.eqb c "e" || Ascii.eqb c "E"
          then match parse_exponent rest with
               | Some x => Some (d, x + shift)
               | None => None
               end
          else None
      end
  end.

(** [StrDecimalLiteral]. *)
Definition parse_decimal (s : list ascii) : option spec_float :=
  let '(negative, u) :=
    match s with
    | c :: rest =>
        if Ascii.eqb c "-" then (true, rest)
        else if Ascii.eqb c "+" then (false, rest)
        else (false, s)
    | [] => (false, s)
    end in
  if list_eq_dec Ascii.ascii_dec u (list_ascii_of_string "Infinity")
  then Some (S754_infinity negative)
  else
    match parse_unsigned u with
    | Some (d, j) => Some (number_value negative (decimal_value d j))
    | None => None
    end.

(** The value of a digit in a radix up to 16. *)
Definition radix_digit (radix : Z) (c : ascii) : option Z :=
  let n := Z.of_nat (nat_of_ascii c) in
  let d :=
    if (48 <=? n) && (n <=? 57) then n - 48
    else if (97 <=? n) && (n <=? 102) then n - 87
    else if (65 <=? n) && (n <=? 70) then n - 55
    else 16 in
  if d <? radix then Some d else None.

(** [NonDecimalIntegerLiteral]: [0b], [0o] or [0x] and digits. *)
Definition parse_non_decimal (s : list ascii) : option spec_float :=
  match s with
  | zero :: letter :: (_ :: _) as ds =>
      let radix :=
        if Ascii.eqb letter "x" || Ascii.eqb letter "X" then 16
        else if Ascii.eqb letter "o" || Ascii.eqb letter "O" then 8
        else if Ascii.eqb letter "b" || Ascii.eqb letter "B" then 2
        else 0 in
      if Ascii.eqb zero "0" && (0 <? radix)
      then
        match
          fold_left
            (fun acc c =>
               match acc, radix_digit radix c with
               | Some a, Some d => Some (radix * a + d)
               | _, _ => None
               end)
            ds (Some 0)
        with
        | Some n => Some (number_value false (inject_Z n))
        | None => None
        end
      else None
  | _ => None
  end.

Definition StringToNumber (text : string) : float :=
  let s := trim (list_ascii_of_string text) in
  match s with
  | [] => 0%float
  | _ :: _ =>
      match parse_decimal s with
      | Some f => SF2Prim f
      | None =>
          match parse_non_decimal s with
          | Some f => SF2Prim f
          | None => nan
          end
      end
  end.

End ES.

Local Open Scope list_scope.

(** ** Binary64 arithmetic: order and rounding *)

Module Binary64.

Import IEEE.

(** *** Valid floats and their rank *)

Lemma digits2_pos_bounds (p : positive) :
  2 ^ (Zpos (digits2_pos p) - 1) <= Zpos p < 2 ^ Zpos (digits2_pos p).
Proof.
  induction p as [p IH | p IH | ]; cbn [digits2_pos].
  - rewrite Pos2Z.inj_succ.
    replace (Z.succ (Zpos (digits2_pos p)) - 1) with (Z.succ (Zpos (digits2_pos p) - 1)) by lia.
    rewrite !Z.pow_succ_r by lia. lia.
  - rewrite Pos2Z.inj_succ.
    replace (Z.succ (Zpos (digits2_pos p)) - 1) with (Z.succ (Zpos (digits2_pos p) - 1)) by lia.
    rewrite !Z.pow_succ_r by lia. lia.
  - cbn. lia.
Qed.

Lemma fexp_eq (k : Z) : fexp prec emax k = Z.max (k - 53) (-1074).
Proof. reflexivity. Qed.

Lemma valid_finite_bounds s m e :
  valid_binary (S754_finite s m e) = true ->
  -1074 <= e <= 971 /\ Zpos m < 2 ^ 53 /\ (-1074 < e -> 2 ^ 52 <= Zpos m).
Proof.
  cbn [SpecFloat.valid_binary]. unfold bounded, canonical_mantissa.
  rewrite andb_true_iff, Z.eqb_eq, Z.leb_le, fexp_eq.
  change (emax - prec) with 971.
  intros [Hc Hb].
  pose proof (digits2_pos_bounds m) as [Hlo Hhi].
  set (d := Zpos (digits2_pos m)) in *.
  assert (Hd : 0 < d) by (subst d; lia).
  split; [lia|].
  split.
  - assert (d <= 53) by lia.
    eapply Z.lt_le_trans; [exact Hhi|]. apply Z.pow_le_mono_r; lia.
  - intros He. assert (d = 53) by lia. replace (d - 1) with 52 in Hlo by lia. exact Hlo.
Qed.

Lemma pow2_pos (k : Z) : 0 <= k -> 0 < 2 ^ k.
Proof. intros. apply Z.pow_pos_nonneg; lia. Qed.

Lemma rank_top_pos : 0 < rank_top.
Proof. apply pow2_pos. lia. Qed.

Lemma valid_finite_rank s m e :
  valid_binary (S754_finite s m e) = true ->
  0 < Zpos m * 2 ^ (e + 1074) < rank_top.
Proof.
  intros H. destruct (valid_finite_bounds _ _ _ H) as (He & Hm & _).
  pose proof (pow2_pos (e + 1074) ltac:(lia)) as Hp.
  split; [lia|].
  apply Z.lt_le_trans with (2 ^ 53 * 2 ^ (e + 1074)).
  - apply Z.mul_lt_mono_pos_r; lia.
  - rewrite <- Z.pow_add_r by lia. apply Z.pow_le_mono_r; lia.
Qed.

Lemma valid_exp_lt s1 m1 e1 s2 m2 e2 :
  valid_binary (S754_finite s1 m1 e1) = true ->
  valid_binary (S754_finite s2 m2 e2) = true ->
  e1 < e2 ->
  Zpos m1 * 2 ^ (e1 + 1074) < Zpos m2 * 2 ^ (e2 + 1074).
Proof.
  intros H1 H2 Hlt.
  destruct (valid_finite_bounds _ _ _ H1) as (He1 & Hm1 & _).
  destruct (valid_finite_bounds _ _ _ H2) as (He2 & _ & Hm2).
  specialize (Hm2 ltac:(lia)).
  pose proof (pow2_pos (e1 + 1074) ltac:(lia)) as Hp.
  apply Z.lt_le_trans with (2 ^ 53 * 2 ^ (e1 + 1074)).
  - apply Z.mul_lt_mono_pos_r; lia.
  - apply Z.le_trans with (2 ^ 52 * 2 ^ (e2 + 1074)).
    + rewrite <- !Z.pow_add_r by lia. apply Z.pow_le_mono_r; lia.
    + apply Z.mul_le_mono_nonneg_r; [|lia]. apply Z.lt_le_incl, pow2_pos. lia.
Qed.

(** On valid floats other than NaN, [SFcompare] is the comparison of ranks. *)
Lemma SFcompare_rank (a b : spec_float) :
  valid_binary a = true -> valid_binary b = true ->
  SFis_nan a = false -> SFis_nan b = false ->
  SFcompare a b = Some (SFrank a ?= SFrank b).
Proof.
  intros Va Vb Na Nb.
  pose proof rank_top_pos as Hinf.
  destruct a as [sa | sa | | sa ma ea]; try discriminate;
  destruct b as [sb | sb | | sb mb eb]; try discriminate;
  try (pose proof (valid_finite_rank _ _ _ Va) as Ra);
  try (pose proof (valid_finite_rank _ _ _ Vb) as Rb);
  cbn [SFcompare SFrank].
  all: try solve [reflexivity | repeat match goal with s : bool |- _ => destruct s end; cmp_by_lia].
  f_equal. destruct sa, sb.
    + destruct (Z.compare_spec ea eb) as [E | L | G].
      * subst eb. rewrite Pos.compare_cont_spec. cbn [Pos.switch_Eq].
        pose proof (pow2_pos (ea + 1074)) as Hp.
        destruct (valid_finite_bounds _ _ _ Va) as (He & _ & _).
        destruct (Pos.compare_spec ma mb) as [E | L | G]; cbn [CompOpp]; symmetry.
        -- apply Z.compare_eq_iff. subst. reflexivity.
        -- apply Z.compare_gt_iff.
           assert (Zpos ma * 2 ^ (ea + 1074) < Zpos mb * 2 ^ (ea + 1074))
             by (apply Z.mul_lt_mono_pos_r; lia). lia.
        -- apply Z.compare_lt_iff.
           assert (Zpos mb * 2 ^ (ea + 1074) < Zpos ma * 2 ^ (ea + 1074))
             by (apply Z.mul_lt_mono_pos_r; lia). lia.
      * symmetry. apply Z.compare_gt_iff.
        pose proof (valid_exp_lt _ _ _ _ _ _ Va Vb L). lia.
      * symmetry. apply Z.compare_lt_iff.
        pose proof (valid_exp_lt _ _ _ _ _ _ Vb Va ltac:(lia)). lia.
    + symmetry. apply Z.compare_lt_iff. lia.
    + symmetry. apply Z.compare_gt_iff. lia.
    + destruct (Z.compare_spec ea eb) as [E | L | G].
      * subst eb. rewrite Pos.compare_cont_spec. cbn [Pos.switch_Eq].
        pose proof (pow2_pos (ea + 1074)) as Hp.
        destruct (valid_finite_bounds _ _ _ Va) as (He & _ & _).
        destruct (Pos.compare_spec ma mb) as [E | L | G]; symmetry.
        -- apply Z.compare_eq_iff. subst. reflexivity.
        -- apply Z.compare_lt_iff. apply Z.mul_lt_mono_pos_r; lia.
        -- apply Z.compare_gt_iff. apply Z.mul_lt_mono_pos_r; lia.
      * symmetry. apply Z.compare_lt_iff.
        apply (valid_exp_lt _ _ _ _ _ _ Va Vb L).
      * symmetry. apply Z.compare_gt_iff.
        pose proof (valid_exp_lt _ _ _ _ _ _ Vb Va ltac:(lia)). lia.
Qed.

(** *** Right shifts and rounding to nearest, ties to even *)

Lemma iter_pos_nat {A} (f : A -> A) (p : positive) (x : A) :
  iter_pos f p x = Nat.iter (Pos.to_nat p) f x.
Proof.
  revert x. induction p as [p IH | p IH | ]; intros x; cbn [iter_pos].
  - rewrite !IH, Pos2Nat.inj_xI.
    replace (S (2 * Pos.to_nat p))%nat with (Pos.to_nat p + (Pos.to_nat p + 1))%nat by lia.
    rewrite !Nat.iter_add. reflexivity.
  - rewrite !IH, Pos2Nat.inj_xO.
    replace (2 * Pos.to_nat p)%nat with (Pos.to_nat p + Pos.to_nat p)%nat by lia.
    rewrite Nat.iter_add. reflexivity.
  - reflexivity.
Qed.

Lemma shr_1_inv (M n : Z) (mrs : shr_record) :
  0 <= n -> shr_inv M n mrs -> shr_inv M (n + 1) (shr_1 mrs).
Proof.
  intros Hn (r & HM & Hr & Hm & Hrb & Hsb).
  pose proof (pow2_pos n Hn) as HP.
  unfold shr_inv.
  rewrite Z.pow_add_r, Z.pow_1_r by lia.
  destruct mrs as [m rb sb]. cbn [shr_m shr_r shr_s] in *.
  set (P := 2 ^ n) in *.
  assert (Hor : (rb || sb = true) <-> r <> 0).
  { rewrite orb_true_iff. split.
    - intros [H | H]; [apply Hrb in H | apply Hsb in H]; lia.
    - intros H. destruct (Z_le_gt_dec P (2 * r)); [left; apply Hrb | right; apply Hsb]; lia. }
  destruct m as [ | [p | p | ] | p]; cbn [shr_1 shr_m shr_r shr_s]; try lia;
    [exists r | exists (P + r) | exists r | exists (P + r)];
    repeat split; intros; try discriminate; try lia;
    repeat match goal with
           | H : orb _ _ = true |- _ => apply Hor in H
           | |- orb _ _ = true => apply Hor
           | H : _ /\ _ |- _ => destruct H
           end; try lia.
Qed.

Lemma shr_iter_inv (M : Z) (n : nat) :
  0 <= M ->
  shr_inv M (Z.of_nat n) (Nat.iter n shr_1 (shr_record_of_loc M loc_Exact)).
Proof.
  intros HM. induction n as [ | n IH].
  - cbn. exists 0. cbn. repeat split; try lia; try discriminate.
  - rewrite Nat2Z.inj_succ, <- Z.add_1_r. cbn [Nat.iter].
    apply shr_1_inv; [lia | exact IH].
Qed.

Lemma shr_inv_round (M n : Z) (mrs : shr_record) :
  0 <= n -> shr_inv M n mrs ->
  round_nearest_even (shr_m mrs) (loc_of_shr_record mrs) = rne M n.
Proof.
  intros Hn (r & HM & Hr & Hm & Hrb & Hsb).
  pose proof (pow2_pos n Hn) as HP.
  unfold rne.
  assert (Hq : M / 2 ^ n = shr_m mrs).
  { symmetry. apply (Z.div_unique_pos M (2 ^ n) (shr_m mrs) r); lia. }
  assert (Hmod : M mod 2 ^ n = r).
  { symmetry. apply (Z.mod_unique_pos M (2 ^ n) (shr_m mrs) r); lia. }
  rewrite Hq, Hmod. clear Hq Hmod.
  destruct mrs as [m rb sb]. cbn [shr_m shr_r shr_s loc_of_shr_record] in *.
  destruct rb, sb; cbn [round_nearest_even].
  - assert ((2 ^ n <? 2 * r) = true) as -> by (apply Z.ltb_lt; destruct Hrb as [H _]; destruct Hsb as [H' _]; specialize (H eq_refl); specialize (H' eq_refl); lia).
    reflexivity.
  - assert ((2 ^ n <? 2 * r) = false) as ->.
    { apply Z.ltb_ge. destruct (Z.eq_dec r 0); [lia|].
      destruct (Z.eq_dec (2 * r) (2 ^ n)); [lia|].
      destruct Hsb as [_ H]. discriminate H. split; assumption. }
    assert ((2 ^ n =? 2 * r) = true) as ->.
    { apply Z.eqb_eq. destruct Hrb as [H _]. specialize (H eq_refl).
      destruct (Z.eq_dec (2 * r) (2 ^ n)); [lia|].
      destruct Hsb as [_ H']. discriminate H'. split; lia. }
    cbn [orb andb]. rewrite <- Z.negb_even. destruct (Z.even m); reflexivity.
  - assert ((2 ^ n <? 2 * r) = false) as ->.
    { apply Z.ltb_ge. destruct (Z_le_gt_dec (2 ^ n) (2 * r)) as [H|H]; [|lia].
      apply Hrb in H. discriminate. }
    assert ((2 ^ n =? 2 * r) = false) as ->.
    { apply Z.eqb_neq. intros E. destruct Hrb as [_ H]. discriminate H. lia. }
    reflexivity.
  - assert (r = 0).
    { destruct (Z.eq_dec r 0); [assumption|].
      destruct (Z.eq_dec (2 * r) (2 ^ n)) as [E|E].
      - destruct Hrb as [_ H]. discriminate H. lia.
      - destruct Hsb as [_ H]. discriminate H. split; assumption. }
    subst r.
    assert ((2 ^ n <? 2 * 0) = false) as -> by (apply Z.ltb_ge; lia).
    assert ((2 ^ n =? 2 * 0) = false) as -> by (apply Z.eqb_neq; lia).
    reflexivity.
Qed.

Lemma shr_fexp_spec (M e : Z) :
  0 <= M ->
  exists mrs,
    shr_fexp prec emax M e loc_Exact
    = (mrs, e + Z.max 0 (fexp prec emax (Zdigits2 M + e) - e)) /\
    shr_inv M (Z.max 0 (fexp prec emax (Zdigits2 M + e) - e)) mrs.
Proof.
  intros HM. unfold shr_fexp.
  set (n := fexp prec emax (Zdigits2 M + e) - e).
  destruct n as [ | p | p] eqn:En; cbn [shr].
  - exists (shr_record_of_loc M loc_Exact). rewrite Z.add_0_r. split; [reflexivity|].
    apply (shr_iter_inv M 0 HM).
  - exists (iter_pos shr_1 p (shr_record_of_loc M loc_Exact)).
    rewrite Z.max_r by lia. split; [reflexivity|].
    rewrite iter_pos_nat. rewrite <- (positive_nat_Z p).
    apply shr_iter_inv; exact HM.
  - exists (shr_record_of_loc M loc_Exact). rewrite Z.max_l by lia.
    rewrite Z.add_0_r. split; [reflexivity|].
    apply (shr_iter_inv M 0 HM).
Qed.

Lemma rne_bounds (M n : Z) :
  0 <= M -> 0 <= n -> M / 2 ^ n <= rne M n <= M / 2 ^ n + 1.
Proof.
  intros. unfold rne.
  destruct ((2 ^ n <? 2 * (M mod 2 ^ n)) || ((2 ^ n =? 2 * (M mod 2 ^ n)) && Z.odd (M / 2 ^ n))); lia.
Qed.

Lemma rne_upper (M n t : Z) :
  0 <= M -> 0 <= n -> 0 <= t -> M < 2 ^ (n + t) -> rne M n <= 2 ^ t.
Proof.
  intros HM Hn Ht Hlt.
  pose proof (rne_bounds M n HM Hn) as [_ Hub].
  pose proof (pow2_pos n Hn) as HP.
  assert (M / 2 ^ n < 2 ^ t).
  { apply Z.div_lt_upper_bound; [lia|]. rewrite <- Z.pow_add_r by lia. exact Hlt. }
  lia.
Qed.

Lemma rne_lower (M n t : Z) :
  0 <= M -> 0 <= n -> 0 <= t -> 2 ^ (n + t) <= M -> 2 ^ t <= rne M n.
Proof.
  intros HM Hn Ht Hle.
  pose proof (rne_bounds M n HM Hn) as [Hlb _].
  pose proof (pow2_pos n Hn) as HP.
  assert (2 ^ t <= M / 2 ^ n).
  { apply Z.div_le_lower_bound; [lia|]. rewrite <- Z.pow_add_r by lia. exact Hle. }
  lia.
Qed.

Lemma rne_small (M n : Z) :
  0 <= M -> 0 <= n -> 2 * M < 2 ^ n -> rne M n = 0.
Proof.
  intros HM Hn Hlt.
  pose proof (pow2_pos n Hn) as HP.
  unfold rne.
  rewrite Z.div_small by lia. rewrite Z.mod_small by lia.
  assert ((2 ^ n <? 2 * M) = false) as -> by (apply Z.ltb_ge; lia).
  assert ((2 ^ n =? 2 * M) = false) as -> by (apply Z.eqb_neq; lia).
  reflexivity.
Qed.

Lemma rne_exact (M : Z) : rne M 0 = M.
Proof.
  unfold rne. rewrite Z.pow_0_r, Z.div_1_r, Z.mod_1_r. reflexivity.
Qed.

Lemma digits2_pos_unique (p : positive) (d : Z) :
  2 ^ (d - 1) <= Zpos p < 2 ^ d -> Zpos (digits2_pos p) = d.
Proof.
  intros [Hlo Hhi].
  pose proof (digits2_pos_bounds p) as [Hlo' Hhi'].
  set (d' := Zpos (digits2_pos p)) in *.
  assert (0 < d') by (subst d'; lia).
  assert (0 < d).
  { destruct (Z_lt_le_dec 0 d) as [|Hd]; [assumption|].
    destruct (Z.eq_dec d 0) as [-> | Hne]; [cbn in Hhi; lia|].
    rewrite Z.pow_neg_r in Hhi by lia. lia. }
  assert (d' - 1 < d) by (apply (Z.pow_lt_mono_r_iff 2); lia).
  assert (d - 1 < d') by (apply (Z.pow_lt_mono_r_iff 2); lia).
  lia.
Qed.

Lemma shr_fexp_noshift (m e : Z) :
  fexp prec emax (Zdigits2 m + e) - e <= 0 ->
  shr_fexp prec emax m e loc_Exact = (shr_record_of_loc m loc_Exact, e).
Proof.
  intros H. unfold shr_fexp.
  destruct (fexp prec emax (Zdigits2 m + e) - e); try lia; reflexivity.
Qed.

(** [binary_round_aux] on an exact, aligned input: the mantissa is rounded to
    nearest even at the exponent of the result, a carry moves one exponent
    up, and a result beyond the largest finite float is an infinity. *)
Lemma binary_round_aux_spec (s : bool) (M : positive) (e : Z) :
  e <= fexp prec emax (Zpos (digits2_pos M) + e) ->
  binary_round_aux prec emax s (Zpos M) e loc_Exact
  = round_result s (rne (Zpos M) (fexp prec emax (Zpos (digits2_pos M) + e) - e))
      (fexp prec emax (Zpos (digits2_pos M) + e)).
Proof.
  intros Hal. unfold binary_round_aux.
  destruct (shr_fexp_spec (Zpos M) e ltac:(lia)) as (mrs & E1 & I1).
  cbn [Zdigits2] in E1, I1.
  set (d := Zpos (digits2_pos M)) in *.
  set (f := fexp prec emax (d + e)) in *.
  rewrite Z.max_r in E1, I1 by lia.
  rewrite E1. replace (e + (f - e)) with f by lia.
  set (n := f - e) in *.
  assert (Hn : 0 <= n) by lia.
  rewrite (shr_inv_round _ _ _ Hn I1).
  pose proof (digits2_pos_bounds M) as [Mlo Mhi]. fold d in Mlo, Mhi.
  pose proof (rne_bounds (Zpos M) n ltac:(lia) Hn) as [Rlo _].
  assert (0 <= Zpos M / 2 ^ n) by (apply Z.div_pos; [lia | apply pow2_pos; lia]).
  assert (Hf : f = Z.max (d + e - 53) (-1074)) by (subst f; apply fexp_eq).
  destruct (Z_le_gt_dec (-1074) (d + e - 53)) as [HA | HB].
  - (* normal range *)
    assert (Hfe : f = d + e - 53) by lia.
    assert (Hlo : 2 ^ 52 <= rne (Zpos M) n).
    { apply rne_lower; try lia. replace (n + 52) with (d - 1) by lia. exact Mlo. }
    assert (Hhi : rne (Zpos M) n <= 2 ^ 53).
    { apply rne_upper; try lia. replace (n + 53) with d by lia. exact Mhi. }
    destruct (rne (Zpos M) n) as [ | p | p] eqn:Er; try (cbn in Hlo; lia).
    destruct (Z.eq_dec (Zpos p) (2 ^ 53)) as [E53 | N53].
    + assert (p = 9007199254740992%positive) as -> by (cbn in E53; lia).
      unfold round_result. cbn [Z.eqb Pos.eqb Z.pow Z.pow_pos Pos.iter Z.mul Pos.mul].
      unfold shr_fexp. cbn [Zdigits2 digits2_pos Pos.succ].
      replace (fexp prec emax (54 + f) - f) with 1 by (rewrite fexp_eq; lia).
      cbn [shr iter_pos shr_record_of_loc shr_1 shr_m].
      replace (f + 1 <=? emax - prec) with (f + 1 <=? 971) by reflexivity.
      reflexivity.
    + assert (Hd53 : Zpos (digits2_pos p) = 53).
      { apply digits2_pos_unique. change (53 - 1) with 52. lia. }
      rewrite shr_fexp_noshift.
      2:{ cbn [Zdigits2]. rewrite Hd53, fexp_eq. lia. }
      cbn [shr_record_of_loc shr_m]. unfold round_result.
      apply Z.eqb_neq in N53. rewrite N53. reflexivity.
  - (* subnormal range *)
    assert (Hfe : f = -1074) by lia.
    assert (Hhi : rne (Zpos M) n <= 2 ^ 52).
    { apply rne_upper; try lia.
      eapply Z.lt_le_trans; [exact Mhi|]. apply Z.pow_le_mono_r; lia. }
    destruct (rne (Zpos M) n) as [ | p | p] eqn:Er; try lia.
    + rewrite shr_fexp_noshift.
      2:{ cbn [Zdigits2]. rewrite fexp_eq. lia. }
      reflexivity.
    + pose proof (digits2_pos_bounds p) as [Plo Phi].
      assert (Zpos (digits2_pos p) <= 53).
      { assert (Zpos (digits2_pos p) - 1 < 53); [|lia].
        apply (Z.pow_lt_mono_r_iff 2); lia. }
      rewrite shr_fexp_noshift.
      2:{ cbn [Zdigits2]. rewrite fexp_eq. lia. }
      cbn [shr_record_of_loc shr_m]. unfold round_result.
      assert ((Zpos p =? 2 ^ 53) = false) as ->.
      { apply Z.eqb_neq. intros E. rewrite E in Hhi. cbn in Hhi. lia. }
      reflexivity.
Qed.

(** *** Rounding is monotone *)

Lemma pow2_le (a b : Z) : 0 <= a <= b -> 2 ^ a <= 2 ^ b.
Proof. intros. apply Z.pow_le_mono_r; lia. Qed.

Lemma pow2_lt (a b : Z) : 0 <= a < b -> 2 ^ a < 2 ^ b.
Proof. intros. apply Z.pow_lt_mono_r; lia. Qed.

Lemma rne_mono (A B n : Z) :
  0 <= A <= B -> 0 <= n -> rne A n <= rne B n.
Proof.
  intros [HA HAB] Hn.
  pose proof (pow2_pos n Hn) as HP.
  pose proof (rne_bounds A n HA Hn) as [_ HAu].
  pose proof (rne_bounds B n ltac:(lia) Hn) as [HBl _].
  assert (Hq : A / 2 ^ n <= B / 2 ^ n) by (apply Z.div_le_mono; lia).
  destruct (Z.eq_dec (A / 2 ^ n) (B / 2 ^ n)) as [E | N]; [|lia].
  pose proof (Z.div_mod A (2 ^ n) ltac:(lia)) as DA.
  pose proof (Z.div_mod B (2 ^ n) ltac:(lia)) as DB.
  pose proof (Z.mod_pos_bound A (2 ^ n) HP) as MA.
  pose proof (Z.mod_pos_bound B (2 ^ n) HP) as MB.
  unfold rne. rewrite <- E.
  set (q := A / 2 ^ n) in *. set (ra := A mod 2 ^ n) in *. set (rb := B mod 2 ^ n) in *.
  set (P := 2 ^ n) in *.
  assert (Hr : ra <= rb).
  { rewrite <- E in DB. nia. }
  destruct (Z.ltb_spec P (2 * ra)), (Z.ltb_spec P (2 * rb)),
    (Z.eqb_spec P (2 * ra)), (Z.eqb_spec P (2 * rb)), (Z.odd q); cbn [orb andb]; lia.
Qed.

Lemma rne_shift (M n k : Z) :
  0 <= M -> 0 <= n -> 0 <= k -> rne (M * 2 ^ k) (n + k) = rne M n.
Proof.
  intros HM Hn Hk.
  pose proof (pow2_pos n Hn) as HP. pose proof (pow2_pos k Hk) as HK.
  unfold rne. rewrite Z.pow_add_r by lia.
  rewrite Z.div_mul_cancel_r by lia.
  rewrite Z.mul_mod_distr_r by lia.
  pose proof (Z.mod_pos_bound M (2 ^ n) HP) as MB.
  set (q := M / 2 ^ n). set (r := M mod 2 ^ n) in *.
  set (P := 2 ^ n) in *. set (K := 2 ^ k) in *.
  assert ((P * K <? 2 * (r * K)) = (P <? 2 * r)) as ->.
  { destruct (Z.ltb_spec (P * K) (2 * (r * K))), (Z.ltb_spec P (2 * r)); try reflexivity; nia. }
  assert ((P * K =? 2 * (r * K)) = (P =? 2 * r)) as ->.
  { destruct (Z.eqb_spec (P * K) (2 * (r * K))), (Z.eqb_spec P (2 * r)); try reflexivity; nia. }
  reflexivity.
Qed.

Lemma round_result_valid (s : bool) (m1 f : Z) :
  -1074 <= f -> 0 <= m1 <= 2 ^ 53 -> (-1074 < f -> 2 ^ 52 <= m1) ->
  valid_binary (round_result s m1 f) = true.
Proof.
  intros Hf Hm Hn. unfold round_result.
  destruct m1 as [ | p | p]; try reflexivity.
  destruct (Z.eqb_spec (Zpos p) (2 ^ 53)) as [E | N].
  - destruct (Z.leb_spec (f + 1) 971); [|reflexivity].
    cbn [SpecFloat.valid_binary]. unfold bounded, canonical_mantissa.
    change (Zpos (digits2_pos 4503599627370496)) with 53.
    rewrite fexp_eq. change (emax - prec) with 971.
    apply andb_true_iff. split; [apply Z.eqb_eq | apply Z.leb_le]; lia.
  - destruct (Z.leb_spec f 971); [|reflexivity].
    cbn [SpecFloat.valid_binary]. unfold bounded, canonical_mantissa.
    rewrite fexp_eq. change (emax - prec) with 971.
    apply andb_true_iff. split; [apply Z.eqb_eq | apply Z.leb_le; lia].
    pose proof (digits2_pos_bounds p) as [Plo Phi].
    destruct (Z.eq_dec f (-1074)) as [-> | Hne].
    + assert (Zpos (digits2_pos p) - 1 < 53) by (apply (Z.pow_lt_mono_r_iff 2); lia).
      lia.
    + assert (Zpos (digits2_pos p) = 53).
      { apply digits2_pos_unique. change (53 - 1) with 52. split; [apply Hn; lia | lia]. }
      lia.
Qed.

Lemma round_result_nan (s : bool) (m1 f : Z) : SFis_nan (round_result s m1 f) = false.
Proof.
  unfold round_result. destruct m1; try reflexivity.
  destruct (_ =? _); destruct (_ <=? _); reflexivity.
Qed.

Lemma round_result_rank (m1 f : Z) :
  -1074 <= f -> 0 <= m1 <= 2 ^ 53 -> (-1074 < f -> 2 ^ 52 <= m1) ->
  SFrank (round_result false m1 f) = Z.min (m1 * 2 ^ (f + 1074)) rank_top.
Proof.
  intros Hf Hm Hn. unfold round_result.
  pose proof (pow2_pos (f + 1074) ltac:(lia)) as HP.
  destruct m1 as [ | p | p]; try lia.
  - cbn [SFrank]. rewrite Z.mul_0_l. symmetry. apply Z.min_l. apply Z.lt_le_incl, pow2_pos; lia.
  - destruct (Z.eqb_spec (Zpos p) (2 ^ 53)) as [E | N].
    + rewrite E. rewrite <- Z.pow_add_r by lia.
      destruct (Z.leb_spec (f + 1) 971); cbn [SFrank].
      * change (Zpos 4503599627370496) with (2 ^ 52). rewrite <- Z.pow_add_r by lia.
        replace (52 + (f + 1 + 1074)) with (53 + (f + 1074)) by lia.
        symmetry. apply Z.min_l. apply pow2_le. lia.
      * symmetry. apply Z.min_r. apply pow2_le. lia.
    + destruct (Z.leb_spec f 971); cbn [SFrank].
      * symmetry. apply Z.min_l.
        apply Z.le_trans with (2 ^ 53 * 2 ^ (f + 1074)).
        -- apply Z.mul_le_mono_nonneg_r; lia.
        -- rewrite <- Z.pow_add_r by lia. apply pow2_le. lia.
      * symmetry. apply Z.min_r.
        apply Z.le_trans with (2 ^ 52 * 2 ^ (f + 1074)).
        -- rewrite <- Z.pow_add_r by lia. apply pow2_le. lia.
        -- apply Z.mul_le_mono_nonneg_r; [lia|]. apply Hn. lia.
Qed.

Lemma rexp_eq M e : rexp M e = Z.max (Zpos (digits2_pos M) + e - 53) (-1074).
Proof. reflexivity. Qed.

Lemma rnd_m_canonical (M : positive) (e : Z) :
  aligned M e ->
  -1074 <= rexp M e /\ 0 <= rnd_m M e <= 2 ^ 53 /\ (-1074 < rexp M e -> 2 ^ 52 <= rnd_m M e).
Proof.
  unfold aligned, rnd_m. intros Hal.
  pose proof (rexp_eq M e) as Hf.
  pose proof (digits2_pos_bounds M) as [Mlo Mhi].
  set (d := Zpos (digits2_pos M)) in *. set (f := rexp M e) in *.
  assert (Hn : 0 <= f - e) by lia.
  pose proof (rne_bounds (Zpos M) (f - e) ltac:(lia) Hn) as [Rlo _].
  assert (0 <= Zpos M / 2 ^ (f - e)) by (apply Z.div_pos; [lia | apply pow2_pos; lia]).
  split; [lia|]. split; [split; [lia|] | ].
  - destruct (Z_le_gt_dec (-1074) (d + e - 53)).
    + apply rne_upper; try lia. replace (f - e + 53) with d by lia. exact Mhi.
    + apply Z.le_trans with (2 ^ 52); [|apply pow2_le; lia].
      apply rne_upper; try lia.
      eapply Z.lt_le_trans; [exact Mhi|]. apply pow2_le. lia.
  - intros Hnorm. apply rne_lower; try lia.
    replace (f - e + 52) with (d - 1) by lia. exact Mlo.
Qed.

Lemma round_valid (s : bool) (M : positive) (e : Z) :
  aligned M e ->
  valid_binary (binary_round_aux prec emax s (Zpos M) e loc_Exact) = true /\
  SFis_nan (binary_round_aux prec emax s (Zpos M) e loc_Exact) = false.
Proof.
  intros Hal. rewrite (binary_round_aux_spec s M e Hal).
  destruct (rnd_m_canonical M e Hal) as (Hf & Hm & Hn).
  split; [apply round_result_valid; assumption | apply round_result_nan].
Qed.

Lemma round_rank (M : positive) (e : Z) :
  aligned M e ->
  SFrank (binary_round_aux prec emax false (Zpos M) e loc_Exact)
  = Z.min (rnd_val M e) rank_top.
Proof.
  intros Hal. rewrite (binary_round_aux_spec false M e Hal).
  destruct (rnd_m_canonical M e Hal) as (Hf & Hm & Hn).
  apply round_result_rank; assumption.
Qed.

(** A larger input rounds to a value at least as large. *)
Lemma rnd_val_mono (M1 M2 : positive) (e1 e2 : Z) :
  aligned M1 e1 -> aligned M2 e2 -> vle M1 e1 M2 e2 ->
  rnd_val M1 e1 <= rnd_val M2 e2.
Proof.
  intros A1 A2 Hv. unfold vle in Hv.
  destruct (rnd_m_canonical M1 e1 A1) as (Hf1 & Hm1 & Hn1).
  destruct (rnd_m_canonical M2 e2 A2) as (Hf2 & Hm2 & Hn2).
  unfold rnd_val. unfold aligned in A1, A2.
  pose proof (rexp_eq M1 e1) as F1. pose proof (rexp_eq M2 e2) as F2.
  pose proof (digits2_pos_bounds M1) as [M1lo M1hi].
  pose proof (digits2_pos_bounds M2) as [M2lo M2hi].
  unfold rnd_m in *.
  set (d1 := Zpos (digits2_pos M1)) in *. set (d2 := Zpos (digits2_pos M2)) in *.
  set (f1 := rexp M1 e1) in *. set (f2 := rexp M2 e2) in *.
  set (b := Z.min e1 e2) in *.
  assert (Hd1 : 0 < d1) by (subst d1; lia).
  assert (Hd2 : 0 < d2) by (subst d2; lia).
  assert (Hk1 : 0 <= e1 - b) by lia. assert (Hk2 : 0 <= e2 - b) by lia.
  pose proof (pow2_pos (e1 - b) Hk1) as K1. pose proof (pow2_pos (e2 - b) Hk2) as K2.
  assert (HD : d1 + e1 <= d2 + e2).
  { assert (d1 - 1 + (e1 - b) < d2 + (e2 - b)); [|lia].
    apply (Z.pow_lt_mono_r_iff 2); try lia.
    rewrite !Z.pow_add_r by lia.
    apply Z.le_lt_trans with (Zpos M1 * 2 ^ (e1 - b)).
    - apply Z.mul_le_mono_nonneg_r; lia.
    - eapply Z.le_lt_trans; [exact Hv|]. apply Z.mul_lt_mono_pos_r; lia. }
  pose proof (pow2_pos (f1 + 1074) ltac:(lia)) as P1.
  pose proof (pow2_pos (f2 + 1074) ltac:(lia)) as P2.
  destruct (Z.eq_dec f1 f2) as [E | N].
  - rewrite <- E. apply Z.mul_le_mono_nonneg_r; [lia|].
    rewrite <- (rne_shift (Zpos M1) (f1 - e1) (e1 - b)) by lia.
    rewrite <- (rne_shift (Zpos M2) (f1 - e2) (e2 - b)) by lia.
    replace (f1 - e2 + (e2 - b)) with (f1 - e1 + (e1 - b)) by lia.
    apply rne_mono; [|lia]. split; [lia | exact Hv].
  - assert (Hlt : f1 < f2) by lia.
    assert (Hf2n : f2 = d2 + e2 - 53) by lia.
    assert (W2 : 2 ^ 52 * 2 ^ (f2 + 1074) <= rne (Zpos M2) (f2 - e2) * 2 ^ (f2 + 1074)).
    { apply Z.mul_le_mono_nonneg_r; [lia|]. apply Hn2. lia. }
    eapply Z.le_trans; [|exact W2].
    rewrite <- Z.pow_add_r by lia.
    destruct (Z_le_gt_dec f1 (d1 + e1)) as [Hge | Hsmall].
    + apply Z.le_trans with (2 ^ (d1 + e1 - f1) * 2 ^ (f1 + 1074)).
      * apply Z.mul_le_mono_nonneg_r; [lia|].
        apply rne_upper; try lia.
        replace (f1 - e1 + (d1 + e1 - f1)) with d1 by lia. exact M1hi.
      * rewrite <- Z.pow_add_r by lia. apply pow2_le. lia.
    + assert (Hz : rne (Zpos M1) (f1 - e1) = 0).
      { apply rne_small; try lia.
        apply Z.lt_le_trans with (2 * 2 ^ d1); [lia|].
        rewrite <- Z.pow_succ_r by lia. apply pow2_le. lia. }
      rewrite Hz, Z.mul_0_l. apply Z.lt_le_incl, pow2_pos. lia.
Qed.

Lemma SFleb_rank (a b : spec_float) :
  valid_binary a = true -> valid_binary b = true ->
  SFis_nan a = false -> SFis_nan b = false ->
  SFleb a b = (SFrank a <=? SFrank b).
Proof.
  intros Va Vb Na Nb. unfold SFleb. rewrite (SFcompare_rank a b Va Vb Na Nb).
  unfold Z.leb. destruct (SFrank a ?= SFrank b); reflexivity.
Qed.

Lemma SFltb_rank (a b : spec_float) :
  valid_binary a = true -> valid_binary b = true ->
  SFis_nan a = false -> SFis_nan b = false ->
  SFltb a b = (SFrank a <? SFrank b).
Proof.
  intros Va Vb Na Nb. unfold SFltb. rewrite (SFcompare_rank a b Va Vb Na Nb).
  unfold Z.ltb. destruct (SFrank a ?= SFrank b); reflexivity.
Qed.

Lemma round_mono (M1 M2 : positive) (e1 e2 : Z) :
  aligned M1 e1 -> aligned M2 e2 -> vle M1 e1 M2 e2 ->
  SFrank (binary_round_aux prec emax false (Zpos M1) e1 loc_Exact)
  <= SFrank (binary_round_aux prec emax false (Zpos M2) e2 loc_Exact).
Proof.
  intros A1 A2 Hv. rewrite !round_rank by assumption.
  pose proof (rnd_val_mono M1 M2 e1 e2 A1 A2 Hv). lia.
Qed.

(** *** Multiplying a non-negative float by 100 *)

Lemma rank_bounds (a : spec_float) :
  valid_binary a = true -> - rank_top <= SFrank a <= rank_top.
Proof.
  intros Va. pose proof rank_top_pos.
  destruct a as [s | s | | s m e]; cbn [SFrank]; try lia.
  - destruct s; lia.
  - pose proof (valid_finite_rank _ _ _ Va). destruct s; lia.
Qed.

Lemma nonneg_rank (a : spec_float) :
  valid_binary a = true -> SFnonneg a = true -> 0 <= SFrank a.
Proof.
  intros Va Ha. pose proof rank_top_pos.
  destruct a as [s | [|] | | [|] m e]; try discriminate; cbn [SFrank]; lia.
Qed.

Lemma nonneg_not_nan (a : spec_float) : SFnonneg a = true -> SFis_nan a = false.
Proof. destruct a as [s | [|] | | [|] m e]; try discriminate; reflexivity. Qed.

Lemma digits_ge_53 (p : positive) : 2 ^ 52 <= Zpos p -> 53 <= Zpos (digits2_pos p).
Proof.
  intros H. pose proof (digits2_pos_bounds p) as [_ Hhi].
  assert (52 < Zpos (digits2_pos p)); [|lia].
  apply (Z.pow_lt_mono_r_iff 2); lia.
Qed.

Lemma aligned_mul100 (m : positive) (e : Z) : aligned (m * M100) (e + -46).
Proof.
  unfold aligned. rewrite rexp_eq.
  assert (2 ^ 52 <= Zpos (m * M100)).
  { rewrite Pos2Z.inj_mul. change (2 ^ 52) with (1 * 2 ^ 52).
    apply Z.mul_le_mono_nonneg; try lia. unfold M100. cbn. lia. }
  pose proof (digits_ge_53 _ H). lia.
Qed.

Lemma vle_scale (M1 M2 : positive) (e1 e2 K : Z) :
  0 <= e1 + K -> 0 <= e2 + K ->
  (vle M1 e1 M2 e2 <-> Zpos M1 * 2 ^ (e1 + K) <= Zpos M2 * 2 ^ (e2 + K)).
Proof.
  intros H1 H2. unfold vle.
  pose proof (Z.le_min_l e1 e2) as Hl. pose proof (Z.le_min_r e1 e2) as Hr.
  assert (Hb : 0 <= Z.min e1 e2 + K) by lia.
  set (b := Z.min e1 e2) in *.
  pose proof (pow2_pos (b + K) Hb) as HP.
  replace (e1 + K) with ((e1 - b) + (b + K)) by lia.
  replace (e2 + K) with ((e2 - b) + (b + K)) by lia.
  rewrite (Z.pow_add_r 2 (e1 - b) (b + K)), (Z.pow_add_r 2 (e2 - b) (b + K)) by lia.
  rewrite !Z.mul_assoc.
  split; intros H.
  - apply Z.mul_le_mono_nonneg_r; lia.
  - apply Z.mul_le_mono_pos_r in H; lia.
Qed.

Lemma SFmul100_nonneg (a : spec_float) :
  valid_binary a = true -> SFnonneg a = true ->
  valid_binary (SF64mul a F100) = true /\ SFnonneg (SF64mul a F100) = true.
Proof.
  intros Va Ha.
  destruct a as [s | [|] | | [|] m e]; try discriminate;
    unfold F100; cbn [SF64mul SFmul xorb]; try (split; reflexivity).
  pose proof (aligned_mul100 m e) as Hal.
  split; [apply (round_valid false _ _ Hal)|].
  rewrite (binary_round_aux_spec false _ _ Hal). unfold round_result.
  destruct (rne _ _); try reflexivity.
  destruct (_ =? _); destruct (_ <=? _); reflexivity.
Qed.

Lemma SFmul100_mono (a b : spec_float) :
  valid_binary a = true -> valid_binary b = true ->
  SFnonneg a = true -> SFnonneg b = true ->
  SFrank a <= SFrank b ->
  SFrank (SF64mul a F100) <= SFrank (SF64mul b F100).
Proof.
  intros Va Vb Ha Hb Hab.
  destruct (SFmul100_nonneg a Va Ha) as [Va' Ha'].
  destruct (SFmul100_nonneg b Vb Hb) as [Vb' Hb'].
  pose proof (nonneg_rank _ Va' Ha') as Ra.
  pose proof (nonneg_rank _ Vb' Hb') as Rb.
  pose proof (rank_bounds _ Va') as Ba.
  destruct a as [sa | [|] | | [|] ma ea]; try discriminate;
  destruct b as [sb | [|] | | [|] mb eb]; try discriminate;
  try (pose proof (valid_finite_rank _ _ _ Va) as Fa);
  try (pose proof (valid_finite_rank _ _ _ Vb) as Fb);
  cbn [SFrank] in Hab; try lia;
  try (unfold F100 in *; cbn [SF64mul SFmul xorb SFrank] in *; lia).
  - (* both finite *)
    unfold F100. cbn [SF64mul SFmul xorb].
    apply round_mono; try apply aligned_mul100.
    destruct (valid_finite_bounds _ _ _ Va) as (Hea & _).
    destruct (valid_finite_bounds _ _ _ Vb) as (Heb & _).
    apply (vle_scale _ _ _ _ 1120); try lia.
    rewrite !Pos2Z.inj_mul.
    replace (ea + -46 + 1120) with (ea + 1074) by lia.
    replace (eb + -46 + 1120) with (eb + 1074) by lia.
    assert (0 < Zpos M100) by lia. nia.
Qed.

(** *** Subtracting a non-negative float from 100 *)

Lemma iter_xO (m d : positive) : Zpos (Pos.iter xO m d) = Zpos m * 2 ^ Zpos d.
Proof.
  induction d as [ | d IH] using Pos.peano_ind.
  - cbn. lia.
  - rewrite Pos.iter_succ, Pos2Z.inj_xO, IH, Pos2Z.inj_succ, Z.pow_succ_r by lia. lia.
Qed.

Lemma shl_align_fst (mx : positive) (ex ez : Z) :
  ez <= ex -> Zpos (fst (shl_align mx ex ez)) = Zpos mx * 2 ^ (ex - ez).
Proof.
  intros H. unfold shl_align.
  destruct (ez - ex) as [ | d | d] eqn:E; try lia; cbn [fst].
  - replace (ex - ez) with 0 by lia. lia.
  - rewrite iter_xO. replace (ex - ez) with (Zpos d) by lia. reflexivity.
Qed.

Lemma digits_shift (m : positive) (k : Z) (p : positive) :
  0 <= k -> Zpos p = Zpos m * 2 ^ k ->
  Zpos (digits2_pos p) = Zpos (digits2_pos m) + k.
Proof.
  intros Hk Hp. apply digits2_pos_unique.
  pose proof (digits2_pos_bounds m) as [Mlo Mhi].
  pose proof (pow2_pos k Hk) as HK.
  assert (0 < Zpos (digits2_pos m)) by lia.
  rewrite Hp.
  replace (Zpos (digits2_pos m) + k - 1) with (Zpos (digits2_pos m) - 1 + k) by lia.
  rewrite !Z.pow_add_r by lia.
  split; [apply Z.mul_le_mono_nonneg_r | apply Z.mul_lt_mono_pos_r]; lia.
Qed.

(** [binary_round] first aligns its argument, keeping its value. *)
Lemma binary_round_aligned (s : bool) (m : positive) (e : Z) :
  exists (mz : positive) (ez : Z),
    binary_round prec emax s m e = binary_round_aux prec emax s (Zpos mz) ez loc_Exact /\
    aligned mz ez /\ ez <= e /\ Z.min e (-1074) <= ez /\
    Zpos mz = Zpos m * 2 ^ (e - ez).
Proof.
  unfold binary_round.
  set (f := fexp prec emax (Zpos (digits2_pos m) + e)).
  assert (Hf : f = Z.max (Zpos (digits2_pos m) + e - 53) (-1074)) by reflexivity.
  destruct (Z_lt_le_dec f e) as [Hlt | Hge].
  - pose proof (shl_align_fst m e f ltac:(lia)) as Hfst.
    unfold shl_align in *.
    destruct (f - e) as [ | d | d] eqn:E; try lia. cbn [fst] in Hfst.
    exists (Pos.iter xO m d), f. split; [reflexivity|].
    split; [|split; [lia | split; [lia | exact Hfst]]].
    unfold aligned. rewrite rexp_eq.
    rewrite (digits_shift m (e - f) _ ltac:(lia) Hfst). lia.
  - unfold shl_align.
    exists m, e. split.
    + destruct (f - e) eqn:E; try lia; reflexivity.
    + split; [unfold aligned; rewrite rexp_eq; lia|].
      split; [lia|]. split; [lia|].
      rewrite Z.sub_diag. lia.
Qed.

Lemma round_neg_rank (M : positive) (e : Z) :
  aligned M e ->
  SFrank (binary_round_aux prec emax true (Zpos M) e loc_Exact) <= 0.
Proof.
  intros Hal. rewrite (binary_round_aux_spec true M e Hal). unfold round_result.
  pose proof rank_top_pos.
  destruct (rne _ _); cbn [SFrank]; try lia.
  destruct (_ =? _); destruct (_ <=? _); cbn [SFrank]; lia.
Qed.

Lemma F100_round : binary_round_aux prec emax false (Zpos M100) (-46) loc_Exact = F100.
Proof. reflexivity. Qed.

Lemma aligned_100 : aligned M100 (-46).
Proof. unfold aligned. rewrite rexp_eq. cbn. lia. Qed.

(** The two shapes of [100 - y] for a non-negative [y]: a result that is not
    positive, or the rounding of the exact positive difference. *)
Lemma SFsub100_cases (y : spec_float) :
  valid_binary y = true -> SFnonneg y = true ->
  SFis_nan (SF64sub F100 y) = false /\
  (R100 - SFrank y <= 0 -> SFrank (SF64sub F100 y) <= 0) /\
  (0 < R100 - SFrank y ->
   exists (mz : positive) (ez : Z),
     aligned mz ez /\ -1074 <= ez /\
     Zpos mz * 2 ^ (ez + 1074) = R100 - SFrank y /\
     SF64sub F100 y = binary_round_aux prec emax false (Zpos mz) ez loc_Exact).
Proof.
  intros Vy Hy.
  destruct y as [s | [|] | | [|] my ey]; try discriminate.
  - (* zero *)
    split; [reflexivity|]. split.
    + cbn [SFrank]. unfold R100. cbn. lia.
    + intros _. exists M100, (-46). split; [apply aligned_100|]. split; [lia|].
      split; [unfold R100, F100; cbn [SFrank]; rewrite Z.sub_0_r; reflexivity | reflexivity].
  - (* +infinity *)
    split; [reflexivity|]. split.
    + intros _. cbn. lia.
    + intros H. exfalso. unfold R100 in H. cbn in H. lia.
  - (* finite *)
    destruct (valid_finite_bounds _ _ _ Vy) as (Hey & _ & _).
    unfold F100, SF64sub. cbn [SFsub cond_Zopp].
    set (ez := Z.min (-46) ey).
    assert (Hez : -1074 <= ez /\ ez <= -46 /\ ez <= ey) by (subst ez; lia).
    rewrite (shl_align_fst M100 (-46) ez) by lia.
    rewrite (shl_align_fst my ey ez) by lia.
    set (D := Zpos M100 * 2 ^ (-46 - ez) - Zpos my * 2 ^ (ey - ez)).
    assert (HX : R100 - SFrank (S754_finite false my ey) = D * 2 ^ (ez + 1074)).
    { unfold R100, F100, D. cbn [SFrank]. fold M100.
      rewrite Z.mul_sub_distr_r, <- !Z.mul_assoc, <- !Z.pow_add_r by lia.
      f_equal; f_equal; f_equal; lia. }
    rewrite HX. clear HX.
    pose proof (pow2_pos (ez + 1074) ltac:(lia)) as HP.
    destruct D as [ | m | m] eqn:ED; cbn [binary_normalize].
    + split; [reflexivity|]. split; [intros _; cbn; lia | intros H; lia].
    + destruct (binary_round_aligned false m ez) as (mz & ez' & Eq & Hal & Hle & Hmin & Hm).
      rewrite Eq. split.
      { rewrite (binary_round_aux_spec false _ _ Hal). apply round_result_nan. }
      split; [intros H; lia|].
      intros _. exists mz, ez'. split; [exact Hal|]. split; [lia|].
      split; [|reflexivity].
      rewrite Hm, <- Z.mul_assoc, <- Z.pow_add_r by lia.
      f_equal. f_equal. lia.
    + destruct (binary_round_aligned true m ez) as (mz & ez' & Eq & Hal & Hle & Hmin & Hm).
      rewrite Eq. split.
      { rewrite (binary_round_aux_spec true _ _ Hal). apply round_result_nan. }
      split; [intros _; apply round_neg_rank; exact Hal|].
      intros H. lia.
Qed.

(** *** Primitive floats *)

Lemma SFcompare_refl (a : spec_float) :
  SFcompare a a = if SFis_nan a then None else Some Eq.
Proof.
  destruct a as [s | s | | s m e]; cbn; try reflexivity.
  - destruct s; reflexivity.
  - rewrite Z.compare_refl, Pos.compare_cont_refl. destruct s; reflexivity.
Qed.

Lemma SFcompare_nan_l (a b : spec_float) : SFis_nan a = true -> SFcompare a b = None.
Proof. destruct a; try discriminate. reflexivity. Qed.

Lemma SFcompare_nan_r (a b : spec_float) : SFis_nan b = true -> SFcompare a b = None.
Proof. destruct b; try discriminate. destruct a; reflexivity. Qed.

Lemma is_nan_spec (x : float) : is_nan x = SFis_nan (Prim2SF x).
Proof.
  unfold is_nan. rewrite eqb_spec. unfold SFeqb. rewrite SFcompare_refl.
  destruct (SFis_nan (Prim2SF x)); reflexivity.
Qed.

Lemma ltb_rank (x y : float) :
  is_nan x = false -> is_nan y = false -> (x <? y)%float = (fval x <? fval y).
Proof.
  intros Hx Hy. rewrite is_nan_spec in Hx, Hy. rewrite ltb_spec.
  apply SFltb_rank; auto using Prim2SF_valid.
Qed.

Lemma leb_rank (x y : float) :
  is_nan x = false -> is_nan y = false -> (x <=? y)%float = (fval x <=? fval y).
Proof.
  intros Hx Hy. rewrite is_nan_spec in Hx, Hy. rewrite leb_spec.
  apply SFleb_rank; auto using Prim2SF_valid.
Qed.

Lemma ltb_nan (x y : float) : is_nan x = true \/ is_nan y = true -> (x <? y)%float = false.
Proof.
  rewrite !is_nan_spec, ltb_spec. unfold SFltb.
  intros [H | H]; [rewrite SFcompare_nan_l | rewrite SFcompare_nan_r]; auto.
Qed.

Lemma leb_nan (x y : float) : is_nan x = true \/ is_nan y = true -> (x <=? y)%float = false.
Proof.
  rewrite !is_nan_spec, leb_spec. unfold SFleb.
  intros [H | H]; [rewrite SFcompare_nan_l | rewrite SFcompare_nan_r]; auto.
Qed.

(** The comparisons of primitive floats, through ranks. *)
Lemma leb_true_iff (x y : float) :
  (x <=? y)%float = true <-> is_nan x = false /\ is_nan y = false /\ fval x <= fval y.
Proof.
  split.
  - intros H.
    destruct (is_nan x) eqn:Nx; [rewrite leb_nan in H by auto; discriminate|].
    destruct (is_nan y) eqn:Ny.
    { rewrite leb_nan in H; [discriminate | right; exact Ny]. }
    rewrite leb_rank in H by assumption. apply Z.leb_le in H. auto.
  - intros (Nx & Ny & H). rewrite leb_rank by assumption. apply Z.leb_le. exact H.
Qed.

Lemma ltb_true_iff (x y : float) :
  (x <? y)%float = true <-> is_nan x = false /\ is_nan y = false /\ fval x < fval y.
Proof.
  split.
  - intros H.
    destruct (is_nan x) eqn:Nx; [rewrite ltb_nan in H by auto; discriminate|].
    destruct (is_nan y) eqn:Ny.
    { rewrite ltb_nan in H; [discriminate | right; exact Ny]. }
    rewrite ltb_rank in H by assumption. apply Z.ltb_lt in H. auto.
  - intros (Nx & Ny & H). rewrite ltb_rank by assumption. apply Z.ltb_lt. exact H.
Qed.

Lemma nonneg_spec (x : float) : (0 <=? x)%float = SFnonneg (Prim2SF x).
Proof.
  rewrite leb_spec. change (Prim2SF 0) with (S754_zero false).
  destruct (Prim2SF x) as [s | [|] | | [|] m e]; reflexivity.
Qed.

Lemma Prim2SF_100 : Prim2SF 100 = F100.
Proof. reflexivity. Qed.

Lemma Math_max_zero (r : float) :
  JS.Math_max 0 r = if is_nan r then nan else if (0 <? r)%float then r else 0%float.
Proof.
  unfold JS.Math_max.
  change (is_nan 0) with false. change (PrimFloat.Leibniz.eqb 0 neg_zero) with false.
  rewrite andb_false_r. reflexivity.
Qed.

(** Shape of the confidence of a non-negative distance. *)
Lemma confidence_rank (d : float) :
  (0 <=? d)%float = true ->
  is_nan (100 - d * 100)%float = false /\
  is_nan (confidence_of d) = false /\
  fval (confidence_of d) = Z.max 0 (fval (100 - d * 100)%float).
Proof.
  intros Hd. rewrite nonneg_spec in Hd.
  destruct (SFmul100_nonneg (Prim2SF d) (Prim2SF_valid d) Hd) as [Vy Hy].
  destruct (SFsub100_cases _ Vy Hy) as (Hn & _).
  assert (Nr : is_nan (100 - d * 100)%float = false).
  { rewrite is_nan_spec, sub_spec, mul_spec, Prim2SF_100. exact Hn. }
  split; [exact Nr|].
  unfold confidence_of. rewrite Math_max_zero, Nr.
  rewrite (ltb_rank 0 _ eq_refl Nr). change (fval 0) with 0.
  destruct (Z.ltb_spec 0 (fval (100 - d * 100)%float)).
  - split; [exact Nr | lia].
  - split; [reflexivity | change (fval 0) with 0; lia].
Qed.

Lemma sub100_rank_mono (y1 y2 : spec_float) :
  valid_binary y1 = true -> valid_binary y2 = true ->
  SFnonneg y1 = true -> SFnonneg y2 = true ->
  SFrank y1 <= SFrank y2 ->
  Z.max 0 (SFrank (SF64sub F100 y2)) <= Z.max 0 (SFrank (SF64sub F100 y1)).
Proof.
  intros V1 V2 N1 N2 H12.
  destruct (SFsub100_cases y1 V1 N1) as (_ & Neg1 & Pos1).
  destruct (SFsub100_cases y2 V2 N2) as (_ & Neg2 & Pos2).
  destruct (Z_le_gt_dec (R100 - SFrank y2) 0) as [Hle | Hgt].
  - specialize (Neg2 Hle). lia.
  - destruct (Pos2 ltac:(lia)) as (m2 & e2 & A2 & E2 & X2 & R2).
    destruct (Pos1 ltac:(lia)) as (m1 & e1 & A1 & E1 & X1 & R1).
    rewrite R1, R2.
    assert (SFrank (binary_round_aux prec emax false (Zpos m2) e2 loc_Exact)
            <= SFrank (binary_round_aux prec emax false (Zpos m1) e1 loc_Exact)); [|lia].
    apply round_mono; try assumption.
    apply (vle_scale _ _ _ _ 1074); lia.
Qed.

(** The confidence does not increase with the distance. *)
Lemma confidence_mono (d1 d2 : float) :
  (0 <=? d1)%float = true -> (d1 <=? d2)%float = true ->
  (confidence_of d2 <=? confidence_of d1)%float = true.
Proof.
  intros H1 H12.
  apply leb_true_iff in H12. destruct H12 as (Nx1 & Nx2 & Hv).
  assert (H2 : (0 <=? d2)%float = true).
  { apply leb_true_iff. split; [reflexivity|]. split; [exact Nx2|].
    apply leb_true_iff in H1. change (fval 0) with 0 in *. lia. }
  destruct (confidence_rank d1 H1) as (_ & C1 & F1).
  destruct (confidence_rank d2 H2) as (_ & C2 & F2).
  apply leb_true_iff. split; [exact C2|]. split; [exact C1|].
  rewrite F1, F2. unfold fval.
  rewrite !sub_spec, !mul_spec, Prim2SF_100.
  rewrite nonneg_spec in H1, H2.
  destruct (SFmul100_nonneg _ (Prim2SF_valid d1) H1) as [Vy1 Hy1].
  destruct (SFmul100_nonneg _ (Prim2SF_valid d2) H2) as [Vy2 Hy2].
  apply sub100_rank_mono; try assumption.
  apply SFmul100_mono; auto using Prim2SF_valid.
Qed.

(** The confidence of a non-negative distance lies between 0 and 100. *)
Lemma confidence_range (d : float) :
  (0 <=? d)%float = true ->
  (0 <=? confidence_of d)%float = true /\ (confidence_of d <=? 100)%float = true.
Proof.
  intros Hd. destruct (confidence_rank d Hd) as (_ & C & F).
  split.
  - apply leb_true_iff. split; [reflexivity|]. split; [exact C|].
    rewrite F. change (fval 0) with 0. lia.
  - change 100%float with (confidence_of 0).
    apply confidence_mono; [reflexivity | exact Hd].
Qed.

End Binary64.

(** ** The order of distances *)

Lemma fval_bounds (x : float) : - IEEE.rank_top <= IEEE.fval x <= IEEE.rank_top.
Proof. apply Binary64.rank_bounds, Prim2SF_valid. Qed.

Lemma ltb_irrefl (a : float) : (a <? a)%float = false.
Proof.
  destruct (a <? a)%float eqn:E; [|reflexivity].
  apply Binary64.ltb_true_iff in E. lia.
Qed.

Lemma ltb_trans (a b c : float) :
  (a <? b)%float = true -> (b <? c)%float = true -> (a <? c)%float = true.
Proof.
  rewrite !Binary64.ltb_true_iff. intros (Na & Nb & Hab) (_ & Nc & Hbc).
  repeat split; try assumption. lia.
Qed.

Lemma leb_ltb_trans (a b c : float) :
  (a <=? b)%float = true -> (b <? c)%float = true -> (a <? c)%float = true.
Proof.
  rewrite Binary64.leb_true_iff, !Binary64.ltb_true_iff. intros (Na & Nb & Hab) (_ & Nc & Hbc).
  repeat split; try assumption. lia.
Qed.

Lemma ltb_leb (a b : float) : (a <? b)%float = true -> (a <=? b)%float = true.
Proof.
  rewrite Binary64.leb_true_iff, Binary64.ltb_true_iff. intros (Na & Nb & Hab).
  repeat split; try assumption. lia.
Qed.

(** Two numbers that are not NaN compare one way or the other. *)
Lemma ltb_false_leb (a b : float) :
  is_nan a = false -> is_nan b = false -> (a <? b)%float = false -> (b <=? a)%float = true.
Proof.
  intros Na Nb H. rewrite Binary64.ltb_rank in H by assumption.
  apply Binary64.leb_true_iff. repeat split; try assumption.
  apply Z.ltb_ge in H. exact H.
Qed.

Lemma ltb_infinity_not_nan (a : float) :
  (a <? JS.Infinity)%float = true -> is_nan a = false.
Proof. intros H. apply Binary64.ltb_true_iff in H. tauto. Qed.

(** Nothing is above [Infinity]. *)
Lemma infinity_ltb (t : float) : (JS.Infinity <? t)%float = false.
Proof.
  destruct (JS.Infinity <? t)%float eqn:E; [|reflexivity].
  apply Binary64.ltb_true_iff in E. destruct E as (_ & _ & H).
  pose proof (fval_bounds t). change (IEEE.fval JS.Infinity) with IEEE.rank_top in H. lia.
Qed.

(** A distance that is not below [Infinity] (NaN or [Infinity]) is below nothing. *)
Lemma not_below_infinity (a b : float) :
  (a <? JS.Infinity)%float = false -> (a <? b)%float = false.
Proof.
  intros H. destruct (a <? b)%float eqn:E; [|reflexivity].
  apply Binary64.ltb_true_iff in E. destruct E as (Na & Nb & Hab).
  rewrite Binary64.ltb_rank in H by (assumption || reflexivity).
  apply Z.ltb_ge in H. change (IEEE.fval JS.Infinity) with IEEE.rank_top in H.
  pose proof (fval_bounds b). lia.
Qed.

Lemma not_below_infinity_leb (a b : float) :
  (a <? JS.Infinity)%float = false -> (b <? JS.Infinity)%float = true ->
  (a <=? b)%float = false.
Proof.
  intros Ha Hb. destruct (a <=? b)%float eqn:E; [|reflexivity].
  rewrite (leb_ltb_trans a b JS.Infinity E Hb) in Ha. discriminate.
Qed.

(** ** The matcher selects the nearest record *)

Lemma consider_selected (q : list float) (seen : list registered_face)
  (best : best_match) (x : registered_face) :
  selected q seen best -> selected q (seen ++ [x]) (consider q best x).
Proof.
  unfold consider. fold (distance_to q x).
  intros [[-> Hall] | (i & r & Hnth & -> & Hfin & Hmin & Hfirst)]; cbn [bm_distance].
  - destruct (distance_to q x <? JS.Infinity)%float eqn:E.
    + right. exists (List.length seen), x.
      split; [rewrite nth_error_app2, Nat.sub_diag by lia; reflexivity|].
      split; [reflexivity|]. split; [exact E|]. split.
      * intros r' Hin. apply in_app_or in Hin. destruct Hin as [Hin | [<- | []]].
        -- apply not_below_infinity, Hall, Hin.
        -- apply ltb_irrefl.
      * intros j r' Hj Hr'. rewrite nth_error_app1 in Hr' by exact Hj.
        apply nth_error_In in Hr'.
        apply not_below_infinity_leb; [apply Hall, Hr' | exact E].
    + left. split; [reflexivity|].
      intros r' Hin. apply in_app_or in Hin. destruct Hin as [Hin | [<- | []]].
      * apply Hall, Hin.
      * exact E.
  - assert (Hi : (i < List.length seen)%nat) by (apply nth_error_Some; congruence).
    destruct (distance_to q x <? distance_to q r)%float eqn:E.
    + right. exists (List.length seen), x.
      split; [rewrite nth_error_app2, Nat.sub_diag by lia; reflexivity|].
      split; [reflexivity|]. split; [exact (ltb_trans _ _ _ E Hfin)|]. split.
      * intros r' Hin. apply in_app_or in Hin. destruct Hin as [Hin | [<- | []]].
        -- destruct (distance_to q r' <? distance_to q x)%float eqn:E'; [|reflexivity].
           pose proof (Hmin r' Hin) as Hc.
           rewrite (ltb_trans _ _ _ E' E) in Hc. discriminate.
        -- apply ltb_irrefl.
      * intros j r' Hj Hr'. rewrite nth_error_app1 in Hr' by exact Hj.
        apply nth_error_In in Hr'.
        destruct (distance_to q r' <=? distance_to q x)%float eqn:E'; [|reflexivity].
        pose proof (Hmin r' Hr') as Hc.
        rewrite (leb_ltb_trans _ _ _ E' E) in Hc. discriminate.
    + right. exists i, r.
      split; [rewrite nth_error_app1 by exact Hi; exact Hnth|].
      split; [reflexivity|]. split; [exact Hfin|]. split.
      * intros r' Hin. apply in_app_or in Hin. destruct Hin as [Hin | [<- | []]].
        -- apply Hmin, Hin.
        -- exact E.
      * intros j r' Hj Hr'. rewrite nth_error_app1 in Hr' by lia.
        exact (Hfirst j r' Hj Hr').
Qed.

Lemma fold_consider_selected (q : list float) (rest seen : list registered_face)
  (best : best_match) :
  selected q seen best ->
  selected q (seen ++ rest) (fold_left (consider q) rest best).
Proof.
  revert seen best. induction rest as [ | x rest IH]; intros seen best H; cbn [fold_left].
  - rewrite app_nil_r. exact H.
  - replace (seen ++ x :: rest)%list with ((seen ++ [x]) ++ rest)%list
      by (rewrite <- app_assoc; reflexivity).
    apply IH, consider_selected, H.
Qed.

Lemma findBestMatch_selected (q : list float) (registeredFaces : list registered_face) :
  selected q registeredFaces (findBestMatch q registeredFaces).
Proof.
  unfold findBestMatch.
  apply (fold_consider_selected q registeredFaces []).
  left. split; [reflexivity|]. intros r [].
Qed.

(** C1 (as amended).  For every query and every enrolled set, the inner loop
    of [recognizeFace] selects, among the records whose distance to the query
    is a number below [Infinity], the first-encountered one of minimum
    distance: no record is strictly nearer and every earlier record is
    strictly farther (or has a NaN distance).  When no record has such a
    distance the result stays [Unknown] with distance [Infinity].  The attempt
    is reported matched exactly when the selected distance is strictly below
    the threshold. *)
Theorem matcher_selects_first_nearest
  (Number_toString : float -> string) (StringToNumber : string -> float)
  (q : list float) (registeredFaces : list registered_face) (threshold : JS.value)
  (now : Z) (results : list face_result) (db : database) :
  selected q registeredFaces (findBestMatch q registeredFaces) /\
  map fr_isMatched
    (fst (recognize_one Number_toString StringToNumber registeredFaces threshold now
            (results, db) q))
  = (map fr_isMatched results
     ++ [ (bm_distance (findBestMatch q registeredFaces)
           <? ToNumber StringToNumber threshold)%float ])%list.
Proof.
  split; [apply findBestMatch_selected|].
  cbn [recognize_one fst]. rewrite map_app. reflexivity.
Qed.

(** X1.  With every distance a number below [Infinity] (neither NaN nor
    [Infinity]) and a non-empty enrolled set, the selected record is a
    minimum in the usual sense. *)
Corollary matcher_minimum_finite (q : list float) (registeredFaces : list registered_face) :
  registeredFaces <> [] ->
  (forall r, In r registeredFaces -> (distance_to q r <? JS.Infinity)%float = true) ->
  exists (i : nat) (r : registered_face),
    nth_error registeredFaces i = Some r /\
    findBestMatch q registeredFaces
    = {| bm_name := rf_name r; bm_distance := distance_to q r |} /\
    (forall r', In r' registeredFaces -> (distance_to q r <=? distance_to q r')%float = true) /\
    (forall j r', (j < i)%nat -> nth_error registeredFaces j = Some r' ->
                  (distance_to q r <? distance_to q r')%float = true).
Proof.
  intros Hne Hfin.
  destruct (findBestMatch_selected q registeredFaces)
    as [[_ Hall] | (i & r & Hnth & Hbest & Hr & Hmin & Hfirst)].
  - destruct registeredFaces as [ | r0 rest]; [contradiction|].
    pose proof (Hall r0 (or_introl eq_refl)) as Hc.
    rewrite (Hfin r0 (or_introl eq_refl)) in Hc. discriminate.
  - exists i, r. split; [exact Hnth|]. split; [exact Hbest|]. split.
    + intros r' Hin. apply ltb_false_leb; try (apply ltb_infinity_not_nan; auto).
      apply Hmin, Hin.
    + intros j r' Hj Hr'.
      pose proof (nth_error_In _ _ Hr') as Hin.
      pose proof (Hfirst j r' Hj Hr') as Hle.
      destruct (distance_to q r <? distance_to q r')%float eqn:E; [reflexivity|].
      rewrite (ltb_false_leb _ _ (ltb_infinity_not_nan _ Hr)
                 (ltb_infinity_not_nan _ (Hfin r' Hin)) E) in Hle.
      discriminate.
Qed.

Lemma matcher_minimum_finite_witness :
  let enrolled :=
    [ {| rf_id := 1; rf_name := "Alice";
         rf_descriptor := [JS.SlotNumber 0.5; JS.SlotNumber 0.25]%float |};
      {| rf_id := 2; rf_name := "Bob";
         rf_descriptor := [JS.SlotNumber 0.1; JS.SlotNumber 0.2]%float |};
      {| rf_id := 3; rf_name := "Carol";
         rf_descriptor := [JS.SlotNumber 0.1; JS.SlotNumber 0.2]%float |} ] in
  enrolled <> [] /\
  (forall r, In r enrolled -> (distance_to [0.1; 0.2]%float r <? JS.Infinity)%float = true) /\
  findBestMatch [0.1; 0.2]%float enrolled = {| bm_name := "Bob"; bm_distance := 0 |}.
Proof.
  cbv zeta.
  assert (Hne : [ {| rf_id := 1; rf_name := "Alice";
                     rf_descriptor := [JS.SlotNumber 0.5; JS.SlotNumber 0.25]%float |};
                  {| rf_id := 2; rf_name := "Bob";
                     rf_descriptor := [JS.SlotNumber 0.1; JS.SlotNumber 0.2]%float |};
                  {| rf_id := 3; rf_name := "Carol";
                     rf_descriptor := [JS.SlotNumber 0.1; JS.SlotNumber 0.2]%float |} ]
                <> []) by discriminate.
  split; [exact Hne|].
  match goal with
  | |- (forall r, In r ?l -> _) /\ _ =>
      assert (Hfin : forall r, In r l ->
                (distance_to [0.1; 0.2]%float r <? JS.Infinity)%float = true)
  end.
  { intros r [<- | [<- | [<- | []]]]; reflexivity. }
  split; [exact Hfin|].
  destruct (matcher_minimum_finite [0.1; 0.2]%float _ Hne Hfin) as (i & r & _ & Hbest & _).
  reflexivity.
Defined.

(** C1 (as stated) fails: a non-empty enrolled set from which no record is
    selected, for a query holding NaN and for a query longer than the stored
    descriptor (the missing slot reads [undefined]). *)
Lemma matcher_selects_none :
  findBestMatch [nan]
    [ {| rf_id := 1; rf_name := "Alice"; rf_descriptor := [JS.SlotNumber 0] |} ]
  = {| bm_name := "Unknown"; bm_distance := JS.Infinity |} /\
  findBestMatch [0; 0]%float
    [ {| rf_id := 1; rf_name := "Alice"; rf_descriptor := [JS.SlotNumber 0] |} ]
  = {| bm_name := "Unknown"; bm_distance := JS.Infinity |}.
Proof. split; vm_compute; reflexivity. Qed.

(** ** Matching against an empty enrolled set *)

(** C4.  With no enrolled record the loop body of [recognizeFace] reports, for
    every query and every threshold value: name [Unknown], distance
    [Infinity], confidence [0] (logged as the number [0], returned as
    [0.00]) and not matched; the ledger gains one [unmatched] entry. *)
Theorem empty_enrolled_set_unmatched
  (Number_toString : float -> string) (StringToNumber : string -> float)
  (q : list float) (threshold : JS.value) (now : Z)
  (results : list face_result) (db : database) :
  findBestMatch q [] = {| bm_name := "Unknown"; bm_distance := JS.Infinity |} /\
  confidence_of JS.Infinity = 0%float /\
  lt_value StringToNumber JS.Infinity threshold = false /\
  recognize_one Number_toString StringToNumber [] threshold now (results, db) q
  = ((results ++ [ {| fr_name := "Unknown"; fr_confidence := "0.00";
                      fr_isMatched := false; fr_distance := JS.Infinity |} ])%list,
     {| faces := faces db;
        faces_seq := faces_seq db;
        recognition_logs :=
          recognition_logs db ++
          [ {| log_id := logs_seq db + 1; log_matched_name := "Unknown";
               log_confidence := 0%float; log_timestamp := now;
               log_status := "unmatched" |} ];
        logs_seq := logs_seq db + 1 |}).
Proof.
  split; [reflexivity|]. split; [reflexivity|].
  assert (H : lt_value StringToNumber JS.Infinity threshold = false)
    by apply infinity_ltb.
  split; [exact H|].
  unfold recognize_one. cbn [findBestMatch fold_left bm_distance bm_name].
  rewrite H. reflexivity.
Qed.

(** ** The confidence transform *)

(** C6.  For every distance [d >= 0] the confidence is
    [max(0, 100 - d*100)], lies in [[0, 100]], and does not increase when the
    distance grows. *)
Theorem confidence_clamped_monotone (d : float) :
  (0 <=? d)%float = true ->
  confidence_of d = JS.Math_max 0 (100 - d * 100) /\
  (0 <=? confidence_of d)%float = true /\
  (confidence_of d <=? 100)%float = true /\
  forall d' : float,
    (d <=? d')%float = true -> (confidence_of d' <=? confidence_of d)%float = true.
Proof.
  intros Hd. split; [reflexivity|].
  destruct (Binary64.confidence_range d Hd) as [Hlo Hhi].
  split; [exact Hlo|]. split; [exact Hhi|].
  intros d' Hle. apply Binary64.confidence_mono; assumption.
Qed.

Lemma confidence_clamped_monotone_witness :
  (0 <=? 0.25)%float = true /\
  (confidence_of 0.25 = JS.Math_max 0 (100 - 0.25 * 100) /\
   (0 <=? confidence_of 0.25)%float = true /\
   (confidence_of 0.25 <=? 100)%float = true /\
   forall d' : float,
     (0.25 <=? d')%float = true ->
     (confidence_of d' <=? confidence_of 0.25)%float = true).
Proof.
  split; [reflexivity|]. apply (confidence_clamped_monotone 0.25). reflexivity.
Defined.

(** ** The descriptor store *)

(** C2 (as amended).  [registerFace] makes no dimensionality check: for every
    name that is present and every descriptor, of whatever dimension, it
    appends one row holding the encoded descriptor and resolves with the next
    id of the AUTOINCREMENT sequence; [getAllFaces] then lists the new record
    after the old ones; the ledger is untouched.  It fails, writing
    nothing, only when the name is missing (the NOT NULL constraint). *)
Theorem registerFace_no_dimension_check
  (Number_toString : float -> string) (StringToNumber : string -> float)
  (name : string) (descriptor : list float) (imagePath : option string)
  (now : Z) (db : database) :
  let outcome := registerFace Number_toString (Some name) descriptor imagePath now db in
  fst outcome = inr (faces_seq db + 1) /\
  faces (snd outcome)
  = faces db ++ [ {| face_id := faces_seq db + 1; face_name := name;
                     face_descriptor := JSON_stringify Number_toString descriptor;
                     face_timestamp := now; face_image_path := imagePath |} ] /\
  getAllFaces StringToNumber (snd outcome)
  = getAllFaces StringToNumber db ++
    [ {| rf_id := faces_seq db + 1; rf_name := name;
         rf_descriptor :=
           JSON_parse StringToNumber (JSON_stringify Number_toString descriptor) |} ] /\
  List.length (JSON_parse StringToNumber (JSON_stringify Number_toString descriptor))
  = List.length descriptor /\
  recognition_logs (snd outcome) = recognition_logs db /\
  registerFace Number_toString None descriptor imagePath now db
  = (inl (NotNullConstraint "faces.name"), db).
Proof.
  cbn [registerFace fst snd faces recognition_logs].
  split; [reflexivity|]. split; [reflexivity|]. split.
  - unfold getAllFaces. cbn [faces]. rewrite map_app. reflexivity.
  - split; [|split; reflexivity].
    unfold JSON_parse, JSON_stringify. rewrite !length_map. reflexivity.
Qed.

(** C2 (as stated) fails: with a store whose first descriptor has dimension 3,
    enrolling a descriptor of dimension 2 succeeds with id 2, and the store
    then holds descriptors of both dimensions. *)
Lemma registerFace_accepts_other_dimension :
  let db1 :=
    snd (registerFace sample_Number_toString (Some "Alice") [0.1; 0.2; 0.3]%float
           (Some "alice.jpg") 100 empty_db) in
  let outcome :=
    registerFace sample_Number_toString (Some "Bob") [0.5; 0.25]%float
      (Some "bob.jpg") 101 db1 in
  fst outcome = inr 2 /\
  map (fun row => (face_name row, face_descriptor row)) (faces (snd outcome))
  = [ ("Alice", [JsonNumber "0.1"; JsonNumber "0.2"; JsonNumber "0.3"]);
      ("Bob", [JsonNumber "0.5"; JsonNumber "0.25"]) ].
Proof. split; vm_compute; reflexivity. Qed.

(** C3 (as amended).  [deleteFace] resolves [true] for every id, present or
    not: the rows with that id are removed, every other row is kept, an
    absent id leaves the store as it was, and the ledger is untouched. *)
Theorem deleteFace_resolves_true (faceId : Z) (db : database) :
  fst (deleteFace faceId db) = inr true /\
  (forall row, In row (faces (snd (deleteFace faceId db)))
               <-> In row (faces db) /\ face_id row <> faceId) /\
  ((forall row, In row (faces db) -> face_id row <> faceId) ->
   snd (deleteFace faceId db) = db) /\
  recognition_logs (snd (deleteFace faceId db)) = recognition_logs db.
Proof.
  cbn [deleteFace fst snd faces recognition_logs].
  split; [reflexivity|]. split.
  - intros row. rewrite filter_In, negb_true_iff, Z.eqb_neq. reflexivity.
  - split; [|reflexivity].
    intros Habsent. destruct db as [fs fseq logs lseq]. cbn [faces] in *.
    f_equal. apply forallb_filter_id. apply forallb_forall.
    intros row Hin. apply negb_true_iff, Z.eqb_neq, Habsent, Hin.
Qed.

(** C3 (as stated) fails: deleting an id that is absent resolves [true],
    with no error, here on the empty store and on a store holding id 1. *)
Lemma deleteFace_absent_id_succeeds :
  deleteFace 7 empty_db = (inr true, empty_db) /\
  (let db1 :=
     snd (registerFace sample_Number_toString (Some "Alice") [0.1; 0.2; 0.3]%float
            (Some "alice.jpg") 100 empty_db) in
   deleteFace 7 db1 = (inr true, db1)).
Proof. split; vm_compute; reflexivity. Qed.

(** ** The stored form of a descriptor *)

(** What decoding the encoding of one component gives: the number read back
    from its numeral when the component is finite, [null] otherwise. *)
Lemma JSON_roundtrip_component
  (Number_toString : float -> string) (StringToNumber : string -> float) (x : float) :
  JSON_parse_token StringToNumber (JSON_stringify_number Number_toString x)
  = if is_finite x then JS.SlotNumber (StringToNumber (Number_toString x))
    else JS.SlotNull.
Proof. unfold JSON_stringify_number. destruct (is_finite x); reflexivity. Qed.

Lemma is_finite_spec (x : float) :
  is_finite x = match Prim2SF x with
                | S754_zero _ | S754_finite _ _ _ => true
                | _ => false
                end.
Proof.
  unfold is_finite, is_infinity.
  rewrite Binary64.is_nan_spec, eqb_spec, abs_spec.
  change (Prim2SF infinity) with (S754_infinity false).
  destruct (Prim2SF x) as [s | s | | s m e]; reflexivity.
Qed.

(** *** The runtime's numerals

    [ES.Number_toString] prints a finite number as a decimal whose Number
    value is that number, and [ES.StringToNumber] reads that decimal back. *)

Module Numerals.

Import QArith Qround Qpower Lqa.
Local Open Scope string_scope.
Local Open Scope Z_scope.
Local Open Scope list_scope.

(** *** Powers of two and ten among the rationals *)

Lemma Qpow2_pos (z : Z) : (0 < 2 ^ z)%Q.
Proof. apply Qpower_0_lt. reflexivity. Qed.

Lemma Qpow2_add (a b : Z) : (2 ^ (a + b) == 2 ^ a * 2 ^ b)%Q.
Proof. apply Qpower_plus. discriminate. Qed.

Lemma Qpow2_Z (k : Z) : 0 <= k -> (inject_Z (2 ^ k) == 2 ^ k)%Q.
Proof. intros H. exact (Zpower_Qpower 2 k H). Qed.

Lemma Qpow2_lt (a b : Z) : a < b -> (2 ^ a < 2 ^ b)%Q.
Proof. intros H. apply Qpower_lt_compat_l; [exact H | reflexivity]. Qed.

Lemma Qpow2_le (a b : Z) : a <= b -> (2 ^ a <= 2 ^ b)%Q.
Proof. intros H. apply Qpower_le_compat_l; [exact H | discriminate]. Qed.

(** A positive integer between the powers of two its number of bits gives. *)
Lemma digits_Q (p : positive) :
  (2 ^ (Zpos (digits2_pos p) - 1) <= inject_Z (Zpos p))%Q /\
  (inject_Z (Zpos p) < 2 ^ Zpos (digits2_pos p))%Q.
Proof.
  destruct (Binary64.digits2_pos_bounds p) as [Hlo Hhi].
  split.
  - rewrite <- Qpow2_Z by lia. rewrite <- Zle_Qle. exact Hlo.
  - rewrite <- Qpow2_Z by lia. rewrite <- Zlt_Qlt. exact Hhi.
Qed.

(** *** The binade of a positive rational *)

Lemma binade_spec (v : Q) :
  (0 < v)%Q -> (2 ^ (ES.binade v - 1) <= v)%Q /\ (v < 2 ^ ES.binade v)%Q.
Proof.
  intros Hv. unfold ES.binade.
  destruct v as [num b]. cbn [Qnum Qden].
  destruct num as [ | a | a]; try (exfalso; revert Hv; unfold Qlt; cbn; lia).
  set (da := Zpos (digits2_pos a)). set (db := Zpos (digits2_pos b)).
  destruct (digits_Q a) as [Ha1 Ha2]. destruct (digits_Q b) as [Hb1 Hb2].
  fold da in Ha1, Ha2. fold db in Hb1, Hb2.
  assert (HB : (0 < inject_Z (Zpos b))%Q) by reflexivity.
  assert (Hdiv : (Zpos a # b == inject_Z (Zpos a) / inject_Z (Zpos b))%Q)
    by apply Qmake_Qdiv.
  assert (Hup : (Zpos a # b < 2 ^ (da - db + 1))%Q).
  { rewrite Hdiv. apply Qlt_shift_div_r; [exact HB|].
    eapply Qlt_le_trans; [exact Ha2|].
    replace da with ((da - db + 1) + (db - 1)) at 1 by lia.
    rewrite Qpow2_add. apply Qmult_le_l; [apply Qpow2_pos | exact Hb1]. }
  assert (Hdown : (2 ^ (da - db - 1) <= Zpos a # b)%Q).
  { rewrite Hdiv. apply Qle_shift_div_l; [exact HB|].
    eapply Qle_trans; [|exact Ha1].
    replace (da - 1) with ((da - db - 1) + db) by lia.
    rewrite Qpow2_add. apply Qmult_le_l; [apply Qpow2_pos|]. apply Qlt_le_weak, Hb2. }
  destruct (Qle_bool (2 ^ (da - db)) (Zpos a # b)) eqn:E.
  - apply Qle_bool_iff in E. replace (da - db + 1 - 1) with (da - db) by lia.
    split; assumption.
  - split; [exact Hdown|].
    apply Qnot_le_lt. intros Hc. apply Qle_bool_iff in Hc. congruence.
Qed.

Lemma binade_unique (v : Q) (E : Z) :
  (2 ^ (E - 1) <= v)%Q -> (v < 2 ^ E)%Q -> ES.binade v = E.
Proof.
  intros Hlo Hhi.
  assert (Hv : (0 < v)%Q) by (eapply Qlt_le_trans; [apply Qpow2_pos | exact Hlo]).
  destruct (binade_spec v Hv) as [Blo Bhi].
  assert (H1 : ES.binade v - 1 < E).
  { apply (Qpower_lt_compat_l_inv 2); [|reflexivity].
    eapply Qle_lt_trans; [exact Blo | exact Hhi]. }
  assert (H2 : E - 1 < ES.binade v).
  { apply (Qpower_lt_compat_l_inv 2); [|reflexivity].
    eapply Qle_lt_trans; [exact Hlo | exact Bhi]. }
  lia.
Qed.

(** *** The Number value *)

Lemma number_value_comp (s : bool) (v v' : Q) :
  (v == v')%Q -> ES.number_value s v = ES.number_value s v'.
Proof.
  intros H. unfold ES.number_value. rewrite (Qred_complete v v' H). reflexivity.
Qed.

Lemma round_half_even_Z (t : Q) (z : Z) :
  (t == inject_Z z)%Q -> ES.round_half_even t = z.
Proof.
  intros H. unfold ES.round_half_even.
  rewrite (Qfloor_comp _ _ H), Qfloor_Z.
  assert (E : (t - inject_Z z ?= 1 # 2)%Q = Lt).
  { apply Qlt_alt. rewrite H.
    assert (E : (inject_Z z - inject_Z z == 0)%Q) by ring.
    rewrite E. reflexivity. }
  rewrite E. reflexivity.
Qed.

(** The sign is carried to the result unchanged. *)
Lemma number_value_sign (v : Q) (m : positive) (e : Z) :
  ES.number_value false v = S754_finite false m e ->
  ES.number_value true v = S754_finite true m e.
Proof.
  unfold ES.number_value, IEEE.round_result.
  destruct (ES.round_half_even _) as [ | p | p]; try discriminate.
  destruct (Zpos p =? 2 ^ 53).
  - destruct (_ <=? 971); [|discriminate]. intros H. inversion H. reflexivity.
  - destruct (_ <=? 971); [|discriminate]. intros H. inversion H. reflexivity.
Qed.

(** A binary64 value is its own Number value. *)
Lemma number_value_exact (s : bool) (m : positive) (e : Z) :
  valid_binary (S754_finite s m e) = true ->
  ES.number_value s (ES.float_value m e) = S754_finite s m e.
Proof.
  intros Hvalid.
  pose proof (Binary64.valid_finite_bounds s m e Hvalid) as (He & Hm & _).
  assert (Hcanon : fexp prec emax (Zpos (digits2_pos m) + e) = e).
  { cbn [valid_binary] in Hvalid. unfold bounded, canonical_mantissa in Hvalid.
    apply andb_true_iff in Hvalid. destruct Hvalid as [Hc _].
    apply Z.eqb_eq in Hc. exact Hc. }
  unfold ES.number_value.
  set (v := Qred (ES.float_value m e)).
  assert (Hv : (v == inject_Z (Zpos m) * 2 ^ e)%Q) by apply Qred_correct.
  destruct (digits_Q m) as [Hlo Hhi].
  assert (Hbin : ES.binade v = Zpos (digits2_pos m) + e).
  { apply binade_unique; rewrite Hv.
    - replace (Zpos (digits2_pos m) + e - 1) with ((Zpos (digits2_pos m) - 1) + e) by lia.
      rewrite Qpow2_add. apply Qmult_le_r; [apply Qpow2_pos | exact Hlo].
    - rewrite Qpow2_add. apply Qmult_lt_r; [apply Qpow2_pos | exact Hhi]. }
  rewrite Hbin, Hcanon.
  rewrite (round_half_even_Z _ (Zpos m)).
  - unfold IEEE.round_result.
    destruct (Z.eqb_spec (Zpos m) (2 ^ 53)) as [E | _]; [lia|].
    destruct (Z.leb_spec e 971) as [_ | Hc]; [reflexivity | lia].
  - rewrite Hv. field. pose proof (Qpow2_pos e). lra.
Qed.

(** The decimal expansion is exact. *)
Lemma exact_decimal_value (m : positive) (e : Z) :
  (ES.decimal_value (fst (ES.exact_decimal m e)) (snd (ES.exact_decimal m e))
   == ES.float_value m e)%Q.
Proof.
  unfold ES.exact_decimal, ES.decimal_value, ES.float_value.
  destruct (Z.leb_spec 0 e) as [He | He]; cbn [fst snd].
  - rewrite inject_Z_mult, Qpow2_Z by exact He. change (10 ^ 0)%Q with 1%Q. ring.
  - rewrite inject_Z_mult, (Zpower_Qpower 5 (- e)) by lia.
    change (10%Q) with (2 * 5)%Q. rewrite Qmult_power.
    change (inject_Z 5) with 5%Q.
    rewrite Qpower_opp.
    field. apply Qpower_not_0. discriminate.
Qed.

(** *** Digits *)

Lemma digit_char_spec (d : Z) :
  0 <= d <= 9 -> ES.is_digit (ES.digit_char d) = true /\ ES.char_digit (ES.digit_char d) = d.
Proof.
  intros Hd. unfold ES.is_digit, ES.char_digit, ES.digit_char.
  rewrite nat_ascii_embedding by lia.
  split; [apply andb_true_iff; split; apply Z.leb_le; lia | lia].
Qed.

Lemma to_digits_spec (fuel : nat) (n : Z) :
  0 <= n < 2 ^ Z.of_nat fuel ->
  Forall (fun d => 0 <= d <= 9) (ES.to_digits fuel n) /\
  fold_left (fun a d => 10 * a + d) (ES.to_digits fuel n) 0 = n.
Proof.
  revert n. induction fuel as [ | fuel IH]; intros n Hn.
  - cbn in Hn. assert (n = 0) by lia. subst n. split; [constructor | reflexivity].
  - cbn [ES.to_digits]. destruct (Z.ltb_spec n 10) as [Hsmall | Hbig].
    + split; [repeat constructor; lia | cbn; lia].
    + rewrite Nat2Z.inj_succ, Z.pow_succ_r in Hn by lia.
      pose proof (Z.div_mod n 10 ltac:(lia)) as Hdm.
      pose proof (Z.mod_pos_bound n 10 ltac:(lia)) as Hmod.
      destruct (IH (n / 10)) as [Hall Hval]; [lia|].
      split.
      * apply Forall_app. split; [exact Hall | repeat constructor; lia].
      * rewrite fold_left_app, Hval. cbn [fold_left]. lia.
Qed.

Lemma digits_number_map (l : list Z) (a : Z) :
  Forall (fun d => 0 <= d <= 9) l ->
  fold_left (fun a c => 10 * a + ES.char_digit c) (map ES.digit_char l) a
  = fold_left (fun a d => 10 * a + d) l a.
Proof.
  intros H. revert a. induction H as [ | d l Hd _ IH]; intros a; cbn [map fold_left].
  - reflexivity.
  - rewrite (proj2 (digit_char_spec d Hd)). apply IH.
Qed.

(** The digits of a number denote it. *)
Lemma decimal_digits_spec (n : Z) :
  0 <= n ->
  Forall (fun c => ES.is_digit c = true) (ES.decimal_digits n) /\
  ES.digits_number (ES.decimal_digits n) = n /\
  ES.decimal_digits n <> [].
Proof.
  intros Hn. unfold ES.decimal_digits, ES.digits_number.
  set (fuel := S (Z.to_nat (Z.log2 n))).
  assert (Hfuel : 0 <= n < 2 ^ Z.of_nat fuel).
  { subst fuel. rewrite Nat2Z.inj_succ, Z2Nat.id by apply Z.log2_nonneg.
    destruct (Z.eq_dec n 0) as [-> | Hnz]; [cbn; lia|].
    pose proof (Z.log2_spec n ltac:(lia)). lia. }
  destruct (to_digits_spec fuel n Hfuel) as [Hall Hval].
  split; [|split].
  - apply Forall_map. eapply Forall_impl; [|exact Hall].
    cbn beta. intros d Hd. apply digit_char_spec, Hd.
  - rewrite digits_number_map by exact Hall. exact Hval.
  - subst fuel. cbn [ES.to_digits]. destruct (n <? 10); [cbn [map]; discriminate|].
    rewrite map_app. destruct (map _ (ES.to_digits _ _)); discriminate.
Qed.

Lemma digits_number_acc (ds : list ascii) (a : Z) :
  fold_left (fun a c => 10 * a + ES.char_digit c) ds a
  = a * 10 ^ Z.of_nat (List.length ds) + ES.digits_number ds.
Proof.
  unfold ES.digits_number. revert a.
  induction ds as [ | c ds IH]; intros a; cbn [fold_left List.length].
  - cbn. lia.
  - rewrite IH, (IH (10 * 0 + ES.char_digit c)).
    rewrite Nat2Z.inj_succ, Z.pow_succ_r by lia. lia.
Qed.

Lemma digits_number_app (a b : list ascii) :
  ES.digits_number (a ++ b)
  = ES.digits_number a * 10 ^ Z.of_nat (List.length b) + ES.digits_number b.
Proof.
  unfold ES.digits_number at 1. rewrite fold_left_app.
  fold (ES.digits_number a). apply digits_number_acc.
Qed.

Lemma digits_number_zeros (k : nat) : ES.digits_number (repeat "0"%char k) = 0.
Proof.
  induction k as [ | k IH]; [reflexivity|].
  change (repeat "0"%char (S k)) with (["0"%char] ++ repeat "0"%char k).
  rewrite digits_number_app, IH. reflexivity.
Qed.

Lemma zeros_digits (k : nat) : Forall (fun c => ES.is_digit c = true) (repeat "0"%char k).
Proof. induction k; constructor; [reflexivity | assumption]. Qed.

(** *** Reading digits *)

Lemma take_digits_app (ds rest : list ascii) :
  Forall (fun c => ES.is_digit c = true) ds ->
  match rest with [] => True | c :: _ => ES.is_digit c = false end ->
  ES.take_digits (ds ++ rest) = (ds, rest).
Proof.
  intros Hds Hrest. induction Hds as [ | c ds Hc _ IH]; cbn [app ES.take_digits].
  - destruct rest as [ | c rest]; [reflexivity|]. cbn [ES.take_digits]. rewrite Hrest. reflexivity.
  - rewrite Hc, IH. reflexivity.
Qed.

Lemma take_digits_all (ds : list ascii) :
  Forall (fun c => ES.is_digit c = true) ds -> ES.take_digits ds = (ds, []).
Proof.
  intros H. rewrite <- (app_nil_r ds) at 1. apply take_digits_app; [exact H | exact I].
Qed.

Lemma parse_exponent_spec (x : Z) :
  ES.parse_exponent ((if x <? 0 then "-"%char else "+"%char)
                     :: ES.decimal_digits (Z.abs x))
  = Some x.
Proof.
  destruct (decimal_digits_spec (Z.abs x) (Z.abs_nonneg x)) as (Hall & Hval & Hne).
  unfold ES.parse_exponent.
  destruct (Z.ltb_spec x 0) as [Hneg | Hpos]; cbn [Ascii.eqb Bool.eqb];
    destruct (ES.decimal_digits (Z.abs x)) as [ | c ds] eqn:E; try contradiction;
    rewrite (proj2 (forallb_forall _ _)) by (apply Forall_forall; exact Hall);
    rewrite Hval; f_equal; lia.
Qed.

(** *** Reading what [format] writes *)

Lemma Forall_firstn_skipn {A : Type} (P : A -> Prop) (n : nat) (l : list A) :
  Forall P l -> Forall P (firstn n l) /\ Forall P (skipn n l).
Proof.
  intros H. rewrite <- (firstn_skipn n l) in H. apply Forall_app in H. exact H.
Qed.

(** The literal written for the digits [ds] and the position [n] of the
    decimal point reads as the digits times [10^(n - k)]. *)
Lemma parse_format (ds : list ascii) (n : Z) :
  ds <> [] -> Forall (fun c => ES.is_digit c = true) ds ->
  exists d j : Z,
    ES.parse_unsigned (ES.format ds n) = Some (d, j) /\
    (ES.decimal_value d j
     == ES.decimal_value (ES.digits_number ds) (n - Z.of_nat (List.length ds)))%Q.
Proof.
  intros Hne Hds. unfold ES.format. cbv zeta.
  set (k := Z.of_nat (List.length ds)).
  destruct ((k <=? n) && (n <=? 21)) eqn:CA.
  { (* digits, then zeros *)
    apply andb_true_iff in CA. destruct CA as [Hkn Hn]. apply Z.leb_le in Hkn, Hn.
    unfold ES.parse_unsigned.
    rewrite take_digits_all by (apply Forall_app; split; [exact Hds | apply zeros_digits]).
    cbv beta iota zeta. rewrite app_nil_r.
    destruct (ds ++ repeat "0"%char (Z.to_nat (n - k))) as [ | c t] eqn:E.
    { destruct ds; [contradiction | discriminate]. }
    rewrite <- E. eexists. eexists. split; [reflexivity|].
    rewrite digits_number_app, digits_number_zeros, repeat_length.
    unfold ES.decimal_value. cbn [List.length Z.of_nat Z.opp].
    rewrite Z2Nat.id, Z.add_0_r, inject_Z_mult by lia.
    rewrite (Zpower_Qpower 10 (n - k)) by lia.
    change (10 ^ 0)%Q with 1%Q. change (inject_Z 10) with 10%Q. ring. }
  destruct ((0 <? n) && (n <=? 21)) eqn:CB.
  { (* digits, the point, digits *)
    apply andb_true_iff in CB. destruct CB as [Hn0 Hn]. apply Z.ltb_lt in Hn0. apply Z.leb_le in Hn.
    assert (Hnk : n < k).
    { destruct (Z.leb_spec k n) as [Hc | Hc]; [|exact Hc].
      rewrite (proj2 (Z.leb_le n 21) Hn) in CA. discriminate. }
    destruct (Forall_firstn_skipn _ (Z.to_nat n) ds Hds) as [Hf Hs].
    unfold ES.parse_unsigned.
    rewrite take_digits_app by (assumption || reflexivity).
    cbv beta iota zeta. change (Ascii.eqb "." ".") with true. cbv iota.
    rewrite take_digits_all by exact Hs. cbv beta iota zeta.
    rewrite firstn_skipn, length_skipn.
    replace (- Z.of_nat (List.length ds - Z.to_nat n)) with (n - k) by (subst k; lia).
    destruct ds as [ | c t]; [contradiction|].
    eexists. eexists. split; reflexivity. }
  destruct ((-6 <? n) && (n <=? 0)) eqn:CC.
  { (* zero, the point, zeros, digits *)
    apply andb_true_iff in CC. destruct CC as [Hn6 Hn]. apply Z.ltb_lt in Hn6. apply Z.leb_le in Hn.
    unfold ES.parse_unsigned.
    change ("0"%char :: "."%char :: repeat "0"%char (Z.to_nat (- n)) ++ ds)
      with (["0"%char] ++ "."%char :: repeat "0"%char (Z.to_nat (- n)) ++ ds).
    rewrite take_digits_app by (repeat constructor).
    cbv beta iota zeta. change (Ascii.eqb "." ".") with true. cbv iota.
    rewrite take_digits_all by (apply Forall_app; split; [apply zeros_digits | exact Hds]).
    cbv beta iota zeta. cbn [app].
    eexists. eexists. split; [reflexivity|].
    change ("0"%char :: repeat "0"%char (Z.to_nat (- n)) ++ ds)
      with (["0"%char] ++ repeat "0"%char (Z.to_nat (- n)) ++ ds).
    rewrite !digits_number_app, digits_number_zeros.
    change (ES.digits_number ["0"%char]) with 0.
    rewrite length_app, repeat_length. fold k.
    replace (- Z.of_nat (Z.to_nat (- n) + List.length ds)) with (n - k) by (subst k; lia).
    replace (0 * 10 ^ Z.of_nat (Z.to_nat (- n) + List.length ds)
             + (0 * 10 ^ Z.of_nat (List.length ds) + ES.digits_number ds))
      with (ES.digits_number ds) by lia.
    reflexivity. }
  (* exponent form *)
  pose proof (parse_exponent_spec (n - 1)) as Hexp.
  destruct ds as [ | c [ | c2 rest]]; [contradiction | | ].
  - unfold ES.parse_unsigned.
    inversion Hds as [ | ? ? Hc _]; subst.
    change (c :: "e"%char :: (if n - 1 <? 0 then "-"%char else "+"%char)
              :: ES.decimal_digits (Z.abs (n - 1)))
      with ([c] ++ "e"%char :: (if n - 1 <? 0 then "-"%char else "+"%char)
              :: ES.decimal_digits (Z.abs (n - 1))).
    rewrite take_digits_app by (repeat constructor; assumption).
    cbv beta iota zeta. change (Ascii.eqb "e" ".") with false. cbv iota.
    cbn [app]. change (Ascii.eqb "e" "e") with true. cbn [orb].
    rewrite Hexp. eexists. eexists. split; [reflexivity|].
    subst k. cbn [List.length Z.of_nat Z.opp Pos.of_succ_nat].
    replace (n - 1 + 0) with (n - 1) by lia. reflexivity.
  - unfold ES.parse_unsigned.
    inversion Hds as [ | ? ? Hc Hrest]; subst.
    change (c :: "."%char :: (c2 :: rest) ++ "e"%char
              :: (if n - 1 <? 0 then "-"%char else "+"%char)
              :: ES.decimal_digits (Z.abs (n - 1)))
      with ([c] ++ "."%char :: (c2 :: rest) ++ "e"%char
              :: (if n - 1 <? 0 then "-"%char else "+"%char)
              :: ES.decimal_digits (Z.abs (n - 1))).
    rewrite take_digits_app by (repeat constructor; assumption).
    cbv beta iota zeta. change (Ascii.eqb "." ".") with true. cbv iota.
    rewrite take_digits_app by (assumption || reflexivity).
    cbv beta iota zeta. cbn [app]. change (Ascii.eqb "e" "e") with true. cbn [orb].
    rewrite Hexp. eexists. eexists. split; [reflexivity|].
    replace (n - 1 + - Z.of_nat (List.length (c2 :: rest))) with (n - k)
      by (subst k; cbn [List.length]; lia).
    reflexivity.
Qed.

(** *** White space and the first character *)

Lemma digit_not_space (c : ascii) : ES.is_digit c = true -> ES.is_white_space c = false.
Proof.
  unfold ES.is_digit, ES.is_white_space. cbv zeta.
  intros H. apply andb_true_iff in H. destruct H as [H1 H2]. apply Z.leb_le in H1, H2.
  apply orb_false_iff. split.
  - apply andb_false_iff. right. apply Nat.leb_gt. lia.
  - apply Nat.eqb_neq. lia.
Qed.

Lemma digits_not_space (ds : list ascii) :
  Forall (fun c => ES.is_digit c = true) ds ->
  Forall (fun c => ES.is_white_space c = false) ds.
Proof. intros H. eapply Forall_impl; [|exact H]. exact digit_not_space. Qed.

Lemma trim_left_id (s : list ascii) :
  Forall (fun c => ES.is_white_space c = false) s -> ES.trim_left s = s.
Proof. intros [ | c s' Hc _]; cbn [ES.trim_left]; [reflexivity | rewrite Hc; reflexivity]. Qed.

Lemma trim_id (s : list ascii) :
  Forall (fun c => ES.is_white_space c = false) s -> ES.trim s = s.
Proof.
  intros H. unfold ES.trim. rewrite (trim_left_id s H).
  rewrite trim_left_id by (apply Forall_rev; exact H). apply rev_involutive.
Qed.

(** What [format] writes starts with a digit and holds no white space. *)
Lemma format_shape (ds : list ascii) (n : Z) :
  ds <> [] -> Forall (fun c => ES.is_digit c = true) ds ->
  (exists c rest, ES.format ds n = c :: rest /\ ES.is_digit c = true) /\
  Forall (fun c => ES.is_white_space c = false) (ES.format ds n).
Proof.
  intros Hne Hds.
  pose proof (digits_not_space ds Hds) as Hns.
  destruct ds as [ | c0 ds0] eqn:E; [contradiction|]. rewrite <- E in *.
  assert (Hc0 : ES.is_digit c0 = true) by (rewrite E in Hds; inversion Hds; assumption).
  unfold ES.format. cbv zeta.
  destruct ((Z.of_nat (List.length ds) <=? n) && (n <=? 21)).
  { split.
    - rewrite E. cbn [app]. eauto.
    - apply Forall_app. split; [exact Hns | apply digits_not_space, zeros_digits]. }
  destruct ((0 <? n) && (n <=? 21)) eqn:CB.
  { destruct (Forall_firstn_skipn _ (Z.to_nat n) ds Hns) as [Hf Hs].
    split.
    - apply andb_true_iff in CB. destruct CB as [Hn0 _]. apply Z.ltb_lt in Hn0.
      destruct (Z.to_nat n) as [ | n'] eqn:En; [lia|].
      rewrite E. cbn [firstn app]. eauto.
    - apply Forall_app. split; [exact Hf|]. constructor; [reflexivity | exact Hs]. }
  destruct ((-6 <? n) && (n <=? 0)).
  { split.
    - exists "0"%char. eexists. split; reflexivity.
    - constructor; [reflexivity|]. constructor; [reflexivity|].
      apply Forall_app. split; [apply digits_not_space, zeros_digits | exact Hns]. }
  destruct (decimal_digits_spec (Z.abs (n - 1)) (Z.abs_nonneg _)) as (Hexp & _ & _).
  apply digits_not_space in Hexp.
  assert (Hsign : ES.is_white_space (if n - 1 <? 0 then "-"%char else "+"%char) = false)
    by (destruct (n - 1 <? 0); reflexivity).
  rewrite E in Hns |- *. inversion Hns as [ | ? ? Hn0 Hn1]; subst.
  destruct ds0 as [ | c1 ds1].
  - split; [eauto|]. repeat (constructor; [assumption || reflexivity|]). exact Hexp.
  - split; [eauto|].
    constructor; [assumption|]. constructor; [reflexivity|].
    apply Forall_app. split; [exact Hn1|].
    constructor; [reflexivity|]. constructor; [exact Hsign | exact Hexp].
Qed.

(** *** The nearest integer *)

(** Linear arithmetic over the rationals, the injected integers taken as
    unknowns. *)
Ltac qlra :=
  repeat match goal with
         | H : context [inject_Z ?z] |- _ =>
             let q := fresh "q" in set (q := inject_Z z) in *; clearbody q
         | |- context [inject_Z ?z] =>
             let q := fresh "q" in set (q := inject_Z z) in *; clearbody q
         end;
  lra.

Lemma Qfloor_unique (t : Q) (z : Z) :
  (inject_Z z <= t)%Q -> (t < inject_Z z + 1)%Q -> Qfloor t = z.
Proof.
  intros Hlo Hhi.
  pose proof (Qfloor_le t) as H1. pose proof (Qlt_floor t) as H2.
  assert (A : (inject_Z (Qfloor t) < inject_Z (z + 1))%Q).
  { rewrite inject_Z_plus. eapply Qle_lt_trans; [exact H1 | exact Hhi]. }
  assert (B : (inject_Z z < inject_Z (Qfloor t + 1))%Q).
  { eapply Qle_lt_trans; [exact Hlo | exact H2]. }
  rewrite <- Zlt_Qlt in A, B. lia.
Qed.

Lemma inject_Z_pred (z : Z) : (inject_Z (z - 1) == inject_Z z - 1)%Q.
Proof. unfold Z.sub. rewrite inject_Z_plus. reflexivity. Qed.

(** The nearest integer to [t] is [z] when [t] is less than a half away. *)
Lemma round_half_even_near (t : Q) (z : Z) :
  (inject_Z z - (1 # 2) < t)%Q -> (t < inject_Z z + (1 # 2))%Q ->
  ES.round_half_even t = z.
Proof.
  intros Hlo Hhi. unfold ES.round_half_even. cbv zeta.
  destruct (Qlt_le_dec t (inject_Z z)) as [Hb | Ha].
  - assert (F : Qfloor t = z - 1).
    { apply Qfloor_unique; rewrite inject_Z_pred; qlra. }
    rewrite F.
    assert (C : (t - inject_Z (z - 1) ?= 1 # 2)%Q = Gt).
    { apply (proj1 (Qgt_alt _ _)). rewrite inject_Z_pred. qlra. }
    rewrite C. lia.
  - assert (F : Qfloor t = z) by (apply Qfloor_unique; qlra).
    rewrite F.
    assert (C : (t - inject_Z z ?= 1 # 2)%Q = Lt) by (apply (proj1 (Qlt_alt _ _)); qlra).
    rewrite C. reflexivity.
Qed.

(** Half way below an even integer, and nearer, the nearest integer is it. *)
Lemma round_half_even_below (t : Q) (z : Z) :
  (inject_Z z - (1 # 2) <= t)%Q -> (t < inject_Z z)%Q -> Z.even z = true ->
  ES.round_half_even t = z.
Proof.
  intros Hlo Hhi Heven. unfold ES.round_half_even. cbv zeta.
  assert (F : Qfloor t = z - 1).
  { apply Qfloor_unique; rewrite inject_Z_pred; qlra. }
  rewrite F.
  assert (Hodd : Z.even (z - 1) = false).
  { rewrite <- Z.negb_odd. change (z - 1) with (Z.pred z).
    rewrite Z.odd_pred, Heven. reflexivity. }
  destruct (t - inject_Z (z - 1) ?= 1 # 2)%Q eqn:C.
  - rewrite Hodd. lia.
  - apply (proj2 (Qlt_alt _ _)) in C. rewrite inject_Z_pred in C. qlra.
  - lia.
Qed.


(** *** Numbers next to a binary64 value *)

Lemma Qpow2_half (e : Z) : (2 ^ (e - 1) == 2 ^ e * (1 # 2))%Q.
Proof. unfold Z.sub. rewrite Qpow2_add. reflexivity. Qed.

Lemma Qpow2_quarter (e : Z) : (2 ^ (e - 2) == 2 ^ e * (1 # 4))%Q.
Proof. unfold Z.sub. rewrite Qpow2_add. reflexivity. Qed.

Lemma Qpow2_51 (e : Z) : (2 ^ (e + 51) == 2251799813685248 * 2 ^ e)%Q.
Proof. rewrite Qpow2_add. change (2 ^ 51)%Q with 2251799813685248%Q. ring. Qed.

Lemma Qpow2_52 (e : Z) : (2 ^ (e + 52) == 4503599627370496 * 2 ^ e)%Q.
Proof. rewrite Qpow2_add. change (2 ^ 52)%Q with 4503599627370496%Q. ring. Qed.

Lemma Qpow2_53 (e : Z) : (2 ^ (e + 53) == 9007199254740992 * 2 ^ e)%Q.
Proof. rewrite Qpow2_add. change (2 ^ 53)%Q with 9007199254740992%Q. ring. Qed.

Lemma round_result_exact (m : positive) (e : Z) :
  Zpos m < 2 ^ 53 -> e <= 971 ->
  IEEE.round_result false (Zpos m) e = S754_finite false m e.
Proof.
  intros Hm He. unfold IEEE.round_result.
  destruct (Z.eqb_spec (Zpos m) (2 ^ 53)) as [E | _]; [lia|].
  destruct (Z.leb_spec e 971) as [_ | Hc]; [reflexivity | lia].
Qed.

(** A number less than half a unit in the last place away from a binary64
    value (a quarter, below a power of two) has that value as its Number
    value. *)
Lemma number_value_near (m : positive) (e : Z) (w : Q) :
  valid_binary (S754_finite false m e) = true ->
  (ES.float_value m e - 2 ^ (e - 1) < w)%Q ->
  (w < ES.float_value m e + 2 ^ (e - 1))%Q ->
  (Zpos m = 2 ^ 52 -> -1074 < e -> (ES.float_value m e - 2 ^ (e - 2) <= w)%Q) ->
  ES.number_value false w = S754_finite false m e.
Proof.
  intros Hvalid H1 H2 H3.
  pose proof (Binary64.valid_finite_bounds false m e Hvalid) as (He & Hm & Hnormal).
  unfold ES.number_value. cbv zeta.
  assert (Hw : (Qred w == w)%Q) by apply Qred_correct.
  set (w' := Qred w) in *.
  rewrite <- Hw in H1, H2.
  assert (H3' : Zpos m = 2 ^ 52 -> -1074 < e ->
                (ES.float_value m e - 2 ^ (e - 2) <= w')%Q)
    by (intros A B; rewrite Hw; auto).
  clear H3 Hw. clearbody w'.
  unfold ES.float_value in *.
  rewrite Qpow2_half in H1, H2.
  assert (HP : (0 < 2 ^ e)%Q) by apply Qpow2_pos.
  assert (HM1 : (1 <= inject_Z (Zpos m))%Q) by (rewrite <- (Zle_Qle 1); lia).
  assert (HM2 : (inject_Z (Zpos m) <= 9007199254740991)%Q)
    by (rewrite <- (Zle_Qle _ 9007199254740991); lia).
  assert (Ht : (w' == w' / 2 ^ e * 2 ^ e)%Q) by (field; lra).
  assert (T1 : (inject_Z (Zpos m) - (1 # 2) < w' / 2 ^ e)%Q).
  { apply Qlt_shift_div_l; [exact HP|]. qlra. }
  assert (T2 : (w' / 2 ^ e < inject_Z (Zpos m) + (1 # 2))%Q).
  { apply Qlt_shift_div_r; [exact HP|]. qlra. }
  assert (Hpos : (0 < w')%Q).
  { rewrite Ht. apply Qmult_lt_0_compat; [qlra | exact HP]. }
  assert (Hcase : fexp prec emax (ES.binade w') = e \/
                  (Zpos m = 2 ^ 52 /\ -1074 < e /\ ES.binade w' = e + 52)).
  { destruct (Qlt_le_dec (w' / 2 ^ e) 4503599627370496) as [Hsmall | Hbig].
    - assert (Hup : (w' < 2 ^ (e + 52))%Q).
      { rewrite Qpow2_52, Ht. apply Qmult_lt_compat_r; [exact HP | exact Hsmall]. }
      destruct (Z.eq_dec e (-1074)) as [Emin | Enot].
      + left. destruct (binade_spec w' Hpos) as [Blo _].
        assert (ES.binade w' - 1 < e + 52).
        { apply (Qpower_lt_compat_l_inv 2); [|reflexivity].
          eapply Qle_lt_trans; [exact Blo | exact Hup]. }
        rewrite Binary64.fexp_eq. lia.
      + right.
        assert (Hm52 : Zpos m = 2 ^ 52).
        { assert (Zpos m < 2 ^ 52 + 1); [|lia].
          rewrite Zlt_Qlt. change (inject_Z (2 ^ 52 + 1)) with 4503599627370497%Q. qlra. }
        split; [exact Hm52|]. split; [lia|].
        specialize (H3' Hm52 ltac:(lia)). rewrite Qpow2_quarter in H3'.
        rewrite Hm52 in H3'. change (inject_Z (2 ^ 52)) with 4503599627370496%Q in H3'.
        apply binade_unique.
        * replace (e + 52 - 1) with (e + 51) by lia. rewrite Qpow2_51. lra.
        * exact Hup.
    - left.
      assert (Hb : ES.binade w' = e + 53).
      { apply binade_unique.
        - replace (e + 53 - 1) with (e + 52) by lia. rewrite Qpow2_52, Ht.
          apply Qmult_le_compat_r; [exact Hbig | apply Qlt_le_weak, HP].
        - rewrite Qpow2_53, Ht. apply Qmult_lt_compat_r; [exact HP | qlra]. }
      rewrite Hb, Binary64.fexp_eq. lia. }
  destruct Hcase as [Hf | (Hm52 & Hnot & Hb)].
  - rewrite Hf, (round_half_even_near _ (Zpos m) T1 T2).
    apply round_result_exact; lia.
  - rewrite Hb, Binary64.fexp_eq.
    replace (Z.max (e + 52 - 53) (-1074)) with (e - 1) by lia.
    specialize (H3' Hm52 Hnot). rewrite Qpow2_quarter in H3'.
    assert (Em : m = 4503599627370496%positive) by (apply Pos2Z.inj; exact Hm52).
    subst m. change (inject_Z (Z.pos 4503599627370496)) with 4503599627370496%Q in *.
    pose proof (Qpow2_pos (e - 1)) as HP1.
    rewrite (round_half_even_below _ (2 ^ 53)).
    + unfold IEEE.round_result. change (2 ^ 53) with 9007199254740992. cbv iota beta.
      change (9007199254740992 =? 9007199254740992) with true. cbv iota.
      destruct (Z.leb_spec (e - 1 + 1) 971) as [_ | Hc]; [|lia].
      replace (e - 1 + 1) with e by lia. reflexivity.
    + apply Qle_shift_div_l; [exact HP1|]. rewrite Qpow2_half.
      change (inject_Z (2 ^ 53)) with 9007199254740992%Q. lra.
    + apply Qlt_shift_div_r; [exact HP1|]. rewrite Qpow2_half.
      change (inject_Z (2 ^ 53)) with 9007199254740992%Q.
      destruct (Qlt_le_dec (w' / 2 ^ e) 4503599627370496) as [Hsmall | Hbig].
      * assert (Hup : (w' < 4503599627370496 * 2 ^ e)%Q).
        { rewrite Ht at 1. apply Qmult_lt_compat_r; [exact HP | exact Hsmall]. }
        lra.
      * exfalso.
        assert (Hb' : ES.binade w' = e + 53).
        { apply binade_unique.
          - replace (e + 53 - 1) with (e + 52) by lia. rewrite Qpow2_52, Ht.
            apply Qmult_le_compat_r; [exact Hbig | apply Qlt_le_weak, HP].
          - rewrite Qpow2_53, Ht. apply Qmult_lt_compat_r; [exact HP | lra]. }
        lia.
    + reflexivity.
Qed.


(** *** The decade of a binary64 value *)

Lemma Qpow10_pos (z : Z) : (0 < 10 ^ z)%Q.
Proof. apply Qpower_0_lt. reflexivity. Qed.

Lemma Qpow10_add (a b : Z) : (10 ^ (a + b) == 10 ^ a * 10 ^ b)%Q.
Proof. apply Qpower_plus. discriminate. Qed.

Lemma Qpow10_Z (k : Z) : 0 <= k -> (inject_Z (10 ^ k) == 10 ^ k)%Q.
Proof. intros H. exact (Zpower_Qpower 10 k H). Qed.

Lemma to_digits_length (fuel : nat) (n : Z) :
  0 <= n < 2 ^ Z.of_nat fuel ->
  n < 10 ^ Z.of_nat (List.length (ES.to_digits fuel n)) /\
  (1 <= n -> 10 ^ (Z.of_nat (List.length (ES.to_digits fuel n)) - 1) <= n).
Proof.
  revert n. induction fuel as [ | fuel IH]; intros n Hn.
  - cbn in Hn. cbn. lia.
  - cbn [ES.to_digits]. destruct (Z.ltb_spec n 10) as [Hsmall | Hbig].
    + cbn. lia.
    + rewrite Nat2Z.inj_succ, Z.pow_succ_r in Hn by lia.
      pose proof (Z.div_mod n 10 ltac:(lia)) as Hdm.
      pose proof (Z.mod_pos_bound n 10 ltac:(lia)) as Hmod.
      destruct (IH (n / 10)) as [Hup Hlow]; [lia|].
      specialize (Hlow ltac:(lia)).
      rewrite length_app. cbn [List.length]. rewrite Nat.add_1_r, Nat2Z.inj_succ.
      set (k := Z.of_nat (List.length (ES.to_digits fuel (n / 10)))) in *.
      assert (Hk : 1 <= k).
      { destruct (Z.le_gt_cases 1 k) as [H | H]; [exact H|].
        assert (k = 0) by lia. replace k with 0 in Hup. cbn in Hup. lia. }
      replace (Z.succ k - 1) with (Z.succ (k - 1)) by lia.
      rewrite !Z.pow_succ_r by lia. lia.
Qed.

Lemma decimal_digits_length (n : Z) :
  1 <= n ->
  let k := Z.of_nat (List.length (ES.decimal_digits n)) in
  1 <= k /\ 10 ^ (k - 1) <= n < 10 ^ k.
Proof.
  intros Hn. cbv zeta. unfold ES.decimal_digits. rewrite length_map.
  set (fuel := S (Z.to_nat (Z.log2 n))).
  assert (Hfuel : 0 <= n < 2 ^ Z.of_nat fuel).
  { subst fuel. rewrite Nat2Z.inj_succ, Z2Nat.id by apply Z.log2_nonneg.
    pose proof (Z.log2_spec n ltac:(lia)). lia. }
  destruct (to_digits_length fuel n Hfuel) as [Hup Hlow].
  specialize (Hlow Hn).
  set (k := Z.of_nat (List.length (ES.to_digits fuel n))) in *.
  assert (Hk : 1 <= k).
  { destruct (Z.le_gt_cases 1 k) as [H | H]; [exact H|].
    assert (k = 0) by lia. replace k with 0 in Hup. cbn in Hup. lia. }
  lia.
Qed.

Lemma exact_decimal_pos (m : positive) (e : Z) : 1 <= fst (ES.exact_decimal m e).
Proof.
  unfold ES.exact_decimal.
  destruct (Z.leb_spec 0 e) as [He | He]; cbn [fst].
  - assert (0 < Zpos m * 2 ^ e); [|lia].
    apply Z.mul_pos_pos; [lia|]. apply Z.pow_pos_nonneg; lia.
  - assert (0 < Zpos m * 5 ^ (- e)); [|lia].
    apply Z.mul_pos_pos; [lia|]. apply Z.pow_pos_nonneg; lia.
Qed.

(** [decade m e] is the number of digits before the decimal point. *)
Lemma decade_spec (m : positive) (e : Z) :
  (10 ^ (ES.decade m e - 1) <= ES.float_value m e)%Q /\
  (ES.float_value m e < 10 ^ ES.decade m e)%Q.
Proof.
  pose proof (exact_decimal_value m e) as Hv.
  pose proof (exact_decimal_pos m e) as Hd.
  unfold ES.decade. destruct (ES.exact_decimal m e) as [d j]. cbn [fst snd] in *.
  destruct (decimal_digits_length d Hd) as (Hk & Hlo & Hhi).
  set (k := Z.of_nat (List.length (ES.decimal_digits d))) in *.
  rewrite <- Hv. unfold ES.decimal_value.
  pose proof (Qpow10_pos j) as Hj.
  split.
  - replace (k + j - 1) with ((k - 1) + j) by lia.
    rewrite Qpow10_add, <- (Qpow10_Z (k - 1)) by lia.
    apply Qmult_le_compat_r; [|apply Qlt_le_weak, Hj].
    rewrite <- Zle_Qle. exact Hlo.
  - rewrite Qpow10_add, <- (Qpow10_Z k) by lia.
    apply Qmult_lt_compat_r; [exact Hj|].
    rewrite <- Zlt_Qlt. exact Hhi.
Qed.


(** *** Seventeen digits are enough *)

(** The first candidate with [k] digits is the nearest decimal. *)
Lemma nearest_candidate (v : Q) (n k : Z) :
  exists (c : Z) (rest : list (Z * Z)),
    ES.candidates_at v n k
    = (if c =? 10 ^ k then (1, n - k + k) else (c, n - k)) :: rest /\
    (inject_Z c - (1 # 2) <= v / 10 ^ (n - k))%Q /\
    (v / 10 ^ (n - k) <= inject_Z c + (1 # 2))%Q /\
    Qfloor (v / 10 ^ (n - k)) <= c.
Proof.
  unfold ES.candidates_at. cbv zeta.
  set (t := (v / 10 ^ (n - k))%Q).
  pose proof (Qfloor_le t) as Hlo. pose proof (Qlt_floor t) as Hhi.
  rewrite inject_Z_plus in Hhi. change (inject_Z 1) with 1%Q in Hhi.
  assert (Hup : (inject_Z (Qfloor t + 1) == inject_Z (Qfloor t) + 1)%Q)
    by (rewrite inject_Z_plus; reflexivity).
  destruct (t - inject_Z (Qfloor t) ?= 1 # 2)%Q eqn:C.
  - apply (proj2 (Qeq_alt _ _)) in C.
    destruct (Z.even (Qfloor t)).
    + exists (Qfloor t). eexists. split; [reflexivity|]. repeat split; [qlra | qlra | lia].
    + exists (Qfloor t + 1). eexists. split; [reflexivity|].
      repeat split; [rewrite Hup; qlra | rewrite Hup; qlra | lia].
  - apply (proj2 (Qlt_alt _ _)) in C.
    exists (Qfloor t). eexists. split; [reflexivity|]. repeat split; [qlra | qlra | lia].
  - apply (proj2 (Qgt_alt _ _)) in C.
    exists (Qfloor t + 1). eexists. split; [reflexivity|].
    repeat split; [rewrite Hup; qlra | rewrite Hup; qlra | lia].
Qed.

(** The nearest decimal of seventeen digits reads back. *)
Lemma seventeen_digits (m : positive) (e : Z) :
  valid_binary (S754_finite false m e) = true ->
  exists c : Z * Z,
    In c (ES.candidates_at (ES.float_value m e) (ES.decade m e) 17) /\
    ES.reads_back m e c = true.
Proof.
  intros Hvalid.
  pose proof (Binary64.valid_finite_bounds false m e Hvalid) as (He & Hm & Hnormal).
  destruct (decade_spec m e) as [Dlo _].
  destruct (nearest_candidate (ES.float_value m e) (ES.decade m e) 17)
    as (c & rest & Hcand & Clo & Chi & Hfloor).
  set (n := ES.decade m e) in *.
  set (nc := if c =? 10 ^ 17 then (1, n - 17 + 17) else (c, n - 17)) in *.
  exists nc. split; [rewrite Hcand; left; reflexivity|].
  pose proof (Qpow10_pos (n - 17)) as HT.
  pose proof (Qpow2_pos e) as HP.
  replace (n - 1) with (16 + (n - 17)) in Dlo by lia.
  rewrite Qpow10_add in Dlo. change (10 ^ 16)%Q with 10000000000000000%Q in Dlo.
  (* the candidate has its seventeen digits *)
  assert (Hc : 10 ^ 16 <= c).
  { eapply Z.le_trans; [|exact Hfloor].
    rewrite <- (Qfloor_Z (10 ^ 16)). apply Qfloor_resp_le.
    apply Qle_shift_div_l; [exact HT|].
    change (inject_Z (10 ^ 16)) with 10000000000000000%Q. exact Dlo. }
  (* its value *)
  assert (HW : (ES.decimal_value (fst nc) (snd nc) == inject_Z c * 10 ^ (n - 17))%Q).
  { subst nc. unfold ES.decimal_value.
    destruct (Z.eqb_spec c (10 ^ 17)) as [-> | _]; cbn [fst snd]; [|reflexivity].
    rewrite Qpow10_add. change (10 ^ 17)%Q with (inject_Z (10 ^ 17)). ring. }
  (* it is within half a unit of its last digit *)
  assert (Hv : (ES.float_value m e
                == ES.float_value m e / 10 ^ (n - 17) * 10 ^ (n - 17))%Q)
    by (field; lra).
  assert (A1 : (inject_Z c * 10 ^ (n - 17) - 10 ^ (n - 17) * (1 # 2)
                <= ES.float_value m e)%Q).
  { rewrite Hv.
    setoid_replace (inject_Z c * 10 ^ (n - 17) - 10 ^ (n - 17) * (1 # 2))%Q
      with ((inject_Z c - (1 # 2)) * 10 ^ (n - 17))%Q by ring.
    apply Qmult_le_compat_r; [exact Clo | apply Qlt_le_weak, HT]. }
  assert (A2 : (ES.float_value m e
                <= inject_Z c * 10 ^ (n - 17) + 10 ^ (n - 17) * (1 # 2))%Q).
  { rewrite Hv at 1.
    setoid_replace (inject_Z c * 10 ^ (n - 17) + 10 ^ (n - 17) * (1 # 2))%Q
      with ((inject_Z c + (1 # 2)) * 10 ^ (n - 17))%Q by ring.
    apply Qmult_le_compat_r; [exact Chi | apply Qlt_le_weak, HT]. }
  clear Hv Clo Chi Hfloor Hcand.
  unfold ES.reads_back.
  assert (Hpos : 0 < fst nc).
  { subst nc. destruct (c =? 10 ^ 17); cbn [fst]; lia. }
  apply Z.ltb_lt in Hpos. rewrite Hpos. cbn [andb].
  rewrite (number_value_near m e _ Hvalid).
  - rewrite Pos.eqb_refl, Z.eqb_refl. reflexivity.
  - rewrite HW, Qpow2_half. unfold ES.float_value in *.
    assert (A4 : (inject_Z (Zpos m) * 2 ^ e <= 9007199254740991 * 2 ^ e)%Q).
    { apply Qmult_le_compat_r; [|apply Qlt_le_weak, HP].
      rewrite <- (Zle_Qle _ 9007199254740991). lia. }
    set (V := (inject_Z (Zpos m) * 2 ^ e)%Q) in *.
    set (W := (inject_Z c * 10 ^ (n - 17))%Q) in *.
    lra.
  - rewrite HW, Qpow2_half. unfold ES.float_value in *.
    assert (A4 : (inject_Z (Zpos m) * 2 ^ e <= 9007199254740991 * 2 ^ e)%Q).
    { apply Qmult_le_compat_r; [|apply Qlt_le_weak, HP].
      rewrite <- (Zle_Qle _ 9007199254740991). lia. }
    set (V := (inject_Z (Zpos m) * 2 ^ e)%Q) in *.
    set (W := (inject_Z c * 10 ^ (n - 17))%Q) in *.
    lra.
  - intros Hm52 _. rewrite HW, Qpow2_quarter. unfold ES.float_value in *.
    rewrite Hm52 in *. change (inject_Z (2 ^ 52)) with 4503599627370496%Q in *.
    set (W := (inject_Z c * 10 ^ (n - 17))%Q) in *.
    lra.
Qed.

(** *** The digits chosen by Number::toString *)

Lemma find_exists {A : Type} (p : A -> bool) (l : list A) (x : A) :
  In x l -> p x = true -> exists y, find p l = Some y /\ p y = true.
Proof.
  intros Hin Hp. destruct (find p l) as [y | ] eqn:E.
  - exists y. split; [reflexivity|]. apply (find_some _ _ E).
  - rewrite (find_none _ _ E x Hin) in Hp. discriminate.
Qed.

Lemma shortest_decimal_spec (s : bool) (m : positive) (e : Z) :
  valid_binary (S754_finite s m e) = true ->
  exists d j : Z,
    ES.shortest_decimal m e = Some (d, j) /\
    0 < d /\
    ES.number_value false (ES.decimal_value d j) = S754_finite false m e.
Proof.
  intros Hvalid. unfold ES.shortest_decimal. cbv zeta.
  destruct (seventeen_digits m e Hvalid) as (c & Hin & Hc).
  match goal with
  | |- exists d j, find _ ?l = _ /\ _ =>
      destruct (find_exists (ES.reads_back m e) l c) as ([d j] & Hfind & Hread)
  end.
  { apply in_flat_map. exists 17%nat. split; [apply in_seq; lia | exact Hin]. }
  { exact Hc. }
  exists d, j. split; [exact Hfind|].
  unfold ES.reads_back in Hread. cbn [fst snd] in Hread.
  apply andb_true_iff in Hread. destruct Hread as [Hpos Hval].
  apply Z.ltb_lt in Hpos. split; [exact Hpos|].
  destruct (ES.number_value false (ES.decimal_value d j)) as [ | | | [|] m' e'];
    try discriminate.
  apply andb_true_iff in Hval. destruct Hval as [Hm He].
  apply Pos.eqb_eq in Hm. apply Z.eqb_eq in He. subst. reflexivity.
Qed.

(** The text of a positive number starts with a digit, holds no white space
    and reads as a decimal whose Number value is the number. *)
Lemma positive_text_reads (s : bool) (m : positive) (e : Z) :
  valid_binary (S754_finite s m e) = true ->
  (exists c rest, ES.positive_text m e = c :: rest /\ ES.is_digit c = true) /\
  Forall (fun c => ES.is_white_space c = false) (ES.positive_text m e) /\
  exists d j : Z,
    ES.parse_unsigned (ES.positive_text m e) = Some (d, j) /\
    ES.number_value false (ES.decimal_value d j) = S754_finite false m e.
Proof.
  intros Hvalid.
  destruct (shortest_decimal_spec s m e Hvalid) as (d0 & j0 & Hshort & Hpos & Hval).
  unfold ES.positive_text. rewrite Hshort. cbv zeta.
  destruct (decimal_digits_spec d0 ltac:(lia)) as (Hds & Hnum & Hne).
  set (ds := ES.decimal_digits d0) in *.
  set (n := Z.of_nat (List.length ds) + j0).
  destruct (format_shape ds n Hne Hds) as [Hhead Hns].
  split; [exact Hhead|]. split; [exact Hns|].
  destruct (parse_format ds n Hne Hds) as (d & j & Hparse & Heq).
  exists d, j. split; [exact Hparse|].
  rewrite (number_value_comp false _ _ Heq), Hnum.
  replace (n - Z.of_nat (List.length ds)) with j0 by (subst n; lia).
  exact Hval.
Qed.

Lemma parse_decimal_signed (negative : bool) (text : list ascii) :
  (exists c rest, text = c :: rest /\ ES.is_digit c = true) ->
  ES.parse_decimal ((if negative then ["-"%char] else []) ++ text)
  = match ES.parse_unsigned text with
    | Some (d, j) => Some (ES.number_value negative (ES.decimal_value d j))
    | None => None
    end.
Proof.
  intros (c & rest & -> & Hc).
  assert (Hinf : c :: rest <> list_ascii_of_string "Infinity").
  { intros E. inversion E; subst. discriminate. }
  unfold ES.parse_decimal. destruct negative; cbn [app].
  - change (Ascii.eqb "-" "-") with true. cbv iota beta.
    destruct (list_eq_dec _ _ _) as [E | _]; [contradiction | reflexivity].
  - destruct (Ascii.eqb_spec c "-") as [-> | _]; [discriminate|].
    destruct (Ascii.eqb_spec c "+") as [-> | _]; [discriminate|].
    destruct (list_eq_dec _ _ _) as [E | _]; [contradiction | reflexivity].
Qed.

(** A finite number other than zero reads back from its text as itself. *)
Lemma StringToNumber_Number_toString_exact
  (x : float) (s : bool) (m : positive) (e : Z) :
  Prim2SF x = S754_finite s m e ->
  ES.StringToNumber (ES.Number_toString x) = x.
Proof.
  intros E. pose proof (Prim2SF_valid x) as Hvalid. rewrite E in Hvalid.
  unfold ES.Number_toString. rewrite E.
  destruct (positive_text_reads s m e Hvalid) as (Hhead & Hns & d & j & Hparse & Hval).
  unfold ES.StringToNumber. cbv zeta.
  rewrite list_ascii_of_string_of_list_ascii.
  rewrite trim_id
    by (apply Forall_app; split; [destruct s; repeat constructor | exact Hns]).
  rewrite (parse_decimal_signed s _ Hhead), Hparse.
  assert (Hsigned : ES.number_value s (ES.decimal_value d j) = S754_finite s m e).
  { destruct s; [apply number_value_sign|]; exact Hval. }
  rewrite Hsigned.
  destruct Hhead as (c & rest & Htext & _). rewrite Htext.
  assert (Hx : SF2Prim (S754_finite s m e) = x) by (rewrite <- E; apply SF2Prim_Prim2SF).
  destruct s; cbn [app]; exact Hx.
Qed.

(** Every finite number reads back from its text as a number equal to it,
    and as itself unless it is a zero ([-0] prints as [0]). *)
Lemma StringToNumber_Number_toString (x : float) :
  is_finite x = true ->
  (ES.StringToNumber (ES.Number_toString x) =? x)%float = true /\
  ((x =? 0)%float = false -> ES.StringToNumber (ES.Number_toString x) = x).
Proof.
  intros Hfin. rewrite is_finite_spec in Hfin.
  destruct (Prim2SF x) as [s | s | | s m e] eqn:E; try discriminate.
  - split.
    + unfold ES.Number_toString. rewrite E.
      change (ES.StringToNumber "0") with 0%float.
      rewrite FloatAxioms.eqb_spec, E. destruct s; reflexivity.
    + rewrite FloatAxioms.eqb_spec, E. destruct s; discriminate.
  - rewrite (StringToNumber_Number_toString_exact x s m e E).
    split; [|reflexivity].
    rewrite FloatAxioms.eqb_spec, E. unfold SFeqb.
    rewrite Binary64.SFcompare_refl; reflexivity.
Qed.

End Numerals.

(** The model prints and reads numbers as a JavaScript runtime does. *)
Example Number_toString_examples :
  map ES.Number_toString
    [0.1; 0.30000000000000004; -1.5; 100; 1e21; 1e-7; 123456789012345680000;
     0.000001; -0]%float
  = ["0.1"; "0.30000000000000004"; "-1.5"; "100"; "1e+21"; "1e-7";
     "123456789012345680000"; "0.000001"; "0"].
Proof. vm_compute. reflexivity. Qed.

Example StringToNumber_examples :
  map (fun text => Prim2SF (ES.StringToNumber text))
    ["0.1"; " 12.5e-1 "; "1e+21"; "-.5"; "0x1F"; ""; "Infinity"; "1e400"; "12px"]
  = map Prim2SF [0.1; 1.25; 1e21; -0.5; 31; 0; infinity; infinity; nan]%float.
Proof. vm_compute. reflexivity. Qed.

(** C5 (as amended).  For every descriptor whose components are finite,
    decoding the stored encoding yields, at every index, a number equal to
    the component, and the component itself unless it is a zero: the numeral
    ECMAScript prints for a finite number reads back as that number ([-0] is
    printed as [0] and reads back as [+0], which is equal to it). *)
Theorem descriptor_roundtrip_finite (v : list float) :
  Forall (fun x => is_finite x = true) v ->
  Forall2
    (fun slot x =>
       exists y, slot = JS.SlotNumber y /\ (y =? x)%float = true /\
                 ((x =? 0)%float = false -> y = x))
    (JSON_parse ES.StringToNumber (JSON_stringify ES.Number_toString v)) v.
Proof.
  unfold JSON_parse, JSON_stringify.
  induction 1 as [ | x v Hfin _ IH]; cbn [map]; constructor; [|exact IH].
  rewrite JSON_roundtrip_component, Hfin.
  eexists. split; [reflexivity|].
  apply Numerals.StringToNumber_Number_toString, Hfin.
Qed.

Lemma descriptor_roundtrip_finite_witness :
  Forall (fun x => is_finite x = true) [0.1; 0.2; 0.3]%float /\
  Forall2
    (fun slot x =>
       exists y, slot = JS.SlotNumber y /\ (y =? x)%float = true /\
                 ((x =? 0)%float = false -> y = x))
    (JSON_parse ES.StringToNumber
       (JSON_stringify ES.Number_toString [0.1; 0.2; 0.3]%float))
    [0.1; 0.2; 0.3]%float.
Proof.
  assert (H : Forall (fun x => is_finite x = true) [0.1; 0.2; 0.3]%float)
    by (repeat constructor).
  split; [exact H|].
  apply (descriptor_roundtrip_finite [0.1; 0.2; 0.3]%float H).
Defined.

(** C5 (as stated) fails: a component that is [Infinity] or [NaN] is stored
    as [null] and decodes to [null], which reads as [0] in the distance. *)
Lemma descriptor_roundtrip_loses_nonfinite :
  JSON_stringify ES.Number_toString [0.5; infinity; nan]%float
  = [JsonNumber "0.5"; JsonNull; JsonNull] /\
  JSON_parse ES.StringToNumber
    (JSON_stringify ES.Number_toString [0.5; infinity; nan]%float)
  = [JS.SlotNumber 0.5; JS.SlotNull; JS.SlotNull] /\
  JS.slot_to_number JS.SlotNull = 0%float.
Proof. repeat split; vm_compute; reflexivity. Qed.

(** ** The recognition ledger: the history query *)

Lemma insert_desc_perm (r : log_row) (l : list log_row) :
  Permutation (r :: l) (insert_desc r l).
Proof.
  induction l as [ | x l IH]; cbn [insert_desc].
  - apply Permutation_refl.
  - destruct (log_timestamp x <? log_timestamp r).
    + apply Permutation_refl.
    + eapply Permutation_trans; [apply perm_swap|]. apply perm_skip, IH.
Qed.

Lemma insert_desc_sorted (r : log_row) (l : list log_row) :
  StronglySorted (fun a b => log_timestamp b <= log_timestamp a) l ->
  StronglySorted (fun a b => log_timestamp b <= log_timestamp a) (insert_desc r l).
Proof.
  induction 1 as [ | x l Hs IH Hx]; cbn [insert_desc].
  - repeat constructor.
  - destruct (Z.ltb_spec (log_timestamp x) (log_timestamp r)) as [Hlt | Hge].
    + constructor; [constructor; assumption|].
      constructor; [lia|].
      rewrite Forall_forall in *. intros b Hb. specialize (Hx b Hb). lia.
    + constructor; [exact IH|].
      rewrite Forall_forall in *. intros b Hb.
      apply (Permutation_in _ (Permutation_sym (insert_desc_perm r l))) in Hb.
      destruct Hb as [<- | Hb]; [lia | apply Hx, Hb].
Qed.

Lemma sort_by_timestamp_desc_spec (table : list log_row) :
  ordered_by_timestamp_desc table (sort_by_timestamp_desc table).
Proof.
  unfold sort_by_timestamp_desc, ordered_by_timestamp_desc.
  assert (G : forall rest acc,
             StronglySorted (fun a b => log_timestamp b <= log_timestamp a) acc ->
             Permutation (acc ++ rest) (fold_left (fun acc r => insert_desc r acc) rest acc) /\
             StronglySorted (fun a b => log_timestamp b <= log_timestamp a)
               (fold_left (fun acc r => insert_desc r acc) rest acc)).
  { induction rest as [ | r rest IH]; intros acc Hacc; cbn [fold_left].
    - rewrite app_nil_r. split; [apply Permutation_refl | exact Hacc].
    - destruct (IH (insert_desc r acc) (insert_desc_sorted r acc Hacc)) as [Hp Hs].
      split; [|exact Hs].
      eapply Permutation_trans; [|exact Hp].
      eapply Permutation_trans; [apply Permutation_sym, Permutation_middle|].
      exact (Permutation_app_tail rest (insert_desc_perm r acc)). }
  apply (G table []). constructor.
Qed.

(** The computed history is one of the answers the query may give. *)
Lemma getRecognitionHistory_answer (limit : Z) (db : database) :
  history_answer limit db (getRecognitionHistory limit db).
Proof.
  exists (sort_by_timestamp_desc (recognition_logs db)).
  split; [apply sort_by_timestamp_desc_spec | reflexivity].
Qed.

Lemma StronglySorted_app_inv {A : Type} (R : A -> A -> Prop) (l1 l2 : list A) :
  StronglySorted R (l1 ++ l2) ->
  StronglySorted R l1 /\ StronglySorted R l2 /\
  forall a b, In a l1 -> In b l2 -> R a b.
Proof.
  induction l1 as [ | x l1 IH]; cbn [app]; intros H.
  - split; [constructor|]. split; [exact H|]. intros a b [].
  - inversion H as [ | ? ? Hs Hx]; subst.
    destruct (IH Hs) as (H1 & H2 & H12).
    rewrite Forall_forall in Hx.
    split; [constructor; [exact H1|]|].
    + rewrite Forall_forall. intros b Hb. apply Hx, in_or_app. left. exact Hb.
    + split; [exact H2|].
      intros a b [<- | Ha] Hb; [apply Hx, in_or_app; right; exact Hb | apply H12; assumption].
Qed.

(** With strictly increasing timestamps there is one order only. *)
Lemma ordered_desc_unique (newest_first sorted : list log_row) :
  StronglySorted (fun a b => log_timestamp b < log_timestamp a) newest_first ->
  StronglySorted (fun a b => log_timestamp b <= log_timestamp a) sorted ->
  Permutation newest_first sorted ->
  sorted = newest_first.
Proof.
  intros Hstrict. revert sorted.
  induction Hstrict as [ | b l2 Hs IH Hb]; intros sorted Hsorted Hperm.
  - apply Permutation_nil in Hperm. exact Hperm.
  - destruct sorted as [ | a l1].
    { apply Permutation_sym, Permutation_nil in Hperm. discriminate. }
    inversion Hsorted as [ | ? ? Hs1 Ha]; subst.
    rewrite Forall_forall in Hb, Ha.
    assert (Hab : a = b).
    { pose proof (Permutation_in a (Permutation_sym Hperm) (or_introl eq_refl)) as Hin.
      destruct Hin as [E | Hin]; [symmetry; exact E|].
      pose proof (Permutation_in b Hperm (or_introl eq_refl)) as Hin'.
      destruct Hin' as [E | Hin']; [exact E|].
      specialize (Hb a Hin). specialize (Ha b Hin'). lia. }
    subst a. f_equal. apply IH; [exact Hs1|].
    apply (Permutation_cons_inv Hperm).
Qed.

Lemma StronglySorted_rev_lt (l : list log_row) :
  StronglySorted (fun a b => log_timestamp a < log_timestamp b) l ->
  StronglySorted (fun a b => log_timestamp b < log_timestamp a) (rev l).
Proof.
  induction 1 as [ | x l Hs IH Hx]; cbn [rev]; [constructor|].
  rewrite Forall_forall in Hx.
  assert (G : forall l1 : list log_row,
             StronglySorted (fun a b => log_timestamp b < log_timestamp a) l1 ->
             (forall a, In a l1 -> log_timestamp x < log_timestamp a) ->
             StronglySorted (fun a b => log_timestamp b < log_timestamp a) (l1 ++ [x])).
  { induction 1 as [ | y l1 Hs1 IH1 Hy]; intros Hall; cbn [app].
    - repeat constructor.
    - constructor; [apply IH1; intros a Ha; apply Hall; right; exact Ha|].
      rewrite Forall_forall in *. intros b Hb. apply in_app_or in Hb.
      destruct Hb as [Hb | [<- | []]]; [apply Hy, Hb | apply Hall; left; reflexivity]. }
  apply G; [exact IH|]. intros a Ha. apply Hx, in_rev, Ha.
Qed.

(** C7 (as amended).  For every positive limit and every ledger state, every
    answer of the history query is ordered by non-increasing timestamp, holds
    [min(limit, n)] of the [n] entries (all of them when the limit is [n] or
    more), and no entry left out has a later timestamp than an entry
    returned.  When the entries were recorded at strictly increasing
    timestamps, the answer is exactly the [limit] most recent entries, newest
    first; entries recorded within the same second may come in any order. *)
Theorem history_newest_first_by_timestamp (limit : Z) (db : database)
  (rows : list log_row) :
  0 < limit ->
  history_answer limit db rows ->
  StronglySorted (fun a b => log_timestamp b <= log_timestamp a) rows /\
  List.length rows = Nat.min (Z.to_nat limit) (List.length (recognition_logs db)) /\
  (exists rest,
     Permutation (recognition_logs db) (rows ++ rest) /\
     forall a b, In a rows -> In b rest -> log_timestamp b <= log_timestamp a) /\
  (Z.of_nat (List.length (recognition_logs db)) <= limit ->
   Permutation (recognition_logs db) rows) /\
  (StronglySorted (fun a b => log_timestamp a < log_timestamp b) (recognition_logs db) ->
   rows = most_recent limit db).
Proof.
  intros Hlimit (sorted & [Hperm Hsorted] & ->).
  unfold sql_limit. destruct (Z.ltb_spec limit 0) as [Hneg | _]; [lia|].
  set (n := Z.to_nat limit).
  pose proof (firstn_skipn n sorted) as Hsplit.
  rewrite <- Hsplit in Hsorted.
  destruct (StronglySorted_app_inv _ _ _ Hsorted) as (H1 & _ & H12).
  split; [exact H1|]. split.
  { rewrite length_firstn, (Permutation_length Hperm). reflexivity. }
  split.
  { exists (skipn n sorted). rewrite Hsplit. split; [exact Hperm | exact H12]. }
  split.
  { intros Hall. rewrite firstn_all2; [exact Hperm|].
    rewrite <- (Permutation_length Hperm). subst n. lia. }
  intros Hinc. unfold most_recent. fold n. f_equal.
  apply ordered_desc_unique.
  - apply StronglySorted_rev_lt, Hinc.
  - rewrite Hsplit in Hsorted. exact Hsorted.
  - eapply Permutation_trans; [apply Permutation_sym, Permutation_rev | exact Hperm].
Qed.

Lemma history_newest_first_by_timestamp_witness :
  0 < 2 /\
  history_answer 2 sample_ledger (getRecognitionHistory 2 sample_ledger) /\
  getRecognitionHistory 2 sample_ledger = most_recent 2 sample_ledger /\
  map log_id (getRecognitionHistory 2 sample_ledger) = [5; 4].
Proof.
  split; [lia|]. split; [apply getRecognitionHistory_answer|]. split; [|reflexivity].
  apply (history_newest_first_by_timestamp 2 sample_ledger
           (getRecognitionHistory 2 sample_ledger)
           ltac:(lia) (getRecognitionHistory_answer 2 sample_ledger)).
  repeat constructor; cbn; lia.
Defined.

(** C7 (as stated) fails: of two attempts recorded within the same second,
    the query with limit 1 may answer with the older one (and the computed
    order does), which is not the most recent entry. *)
Lemma history_same_second_not_newest :
  let ledger :=
    snd (logRecognition "Bob" 98%float true 100
           (snd (logRecognition "Alice" 99%float true 100 empty_db))) in
  map log_id (getRecognitionHistory 1 ledger) = [1] /\
  history_answer 1 ledger (getRecognitionHistory 1 ledger) /\
  map log_id (most_recent 1 ledger) = [2].
Proof.
  split; [reflexivity|]. split; [apply getRecognitionHistory_answer | reflexivity].
Qed.

(** ** The orchestrator *)

(** C8.  In the enroll flow, for a request that names a person and an image:
    when the extractor reports no descriptor the route fails with
    [NoFaceDetected], when it reports more than one it fails with
    [AmbiguousInput], and in both cases the database is left as it was. *)
Theorem enroll_requires_exactly_one_face
  (Number_toString : float -> string)
  (detectFace : string -> option (list (list float)))
  (name imagePath : string) (now : Z) (db : database) :
  present (Some name) = true ->
  present (Some imagePath) = true ->
  (detectFace imagePath = Some [] ->
   api_register Number_toString detectFace (Some name) (Some imagePath) now db
   = (NoFaceDetected, db)) /\
  (forall d1 d2 others,
     detectFace imagePath = Some (d1 :: d2 :: others) ->
     api_register Number_toString detectFace (Some name) (Some imagePath) now db
     = (AmbiguousInput, db)).
Proof.
  intros Hname Hpath. unfold api_register. rewrite Hname, Hpath. cbn [negb orb].
  split.
  - intros ->. reflexivity.
  - intros d1 d2 others ->. reflexivity.
Qed.

Lemma enroll_requires_exactly_one_face_witness :
  present (Some "Alice") = true /\
  present (Some "pair.jpg") = true /\
  api_register sample_Number_toString sample_detectFace (Some "Alice") (Some "pair.jpg")
    100 empty_db
  = (AmbiguousInput, empty_db).
Proof.
  split; [reflexivity|]. split; [reflexivity|].
  apply (enroll_requires_exactly_one_face sample_Number_toString sample_detectFace
           "Alice" "pair.jpg" 100 empty_db eq_refl eq_refl)
    with (d1 := [0.1; 0.2; 0.3]%float) (d2 := [0.5; 0.25; 1]%float) (others := []).
  reflexivity.
Defined.

(** Every result of a recognize call carries the decision taken against the
    threshold the loop ran with. *)
Lemma recognize_loop_decisions
  (Number_toString : float -> string) (StringToNumber : string -> float)
  (registeredFaces : list registered_face) (threshold : JS.value) (now : Z)
  (detections : list (list float)) (results : list face_result) (db : database) :
  Forall (fun fr => fr_isMatched fr = lt_value StringToNumber (fr_distance fr) threshold)
    results ->
  Forall (fun fr => fr_isMatched fr = lt_value StringToNumber (fr_distance fr) threshold)
    (fst (fold_left
            (recognize_one Number_toString StringToNumber registeredFaces threshold now)
            detections (results, db))).
Proof.
  revert results db.
  induction detections as [ | q detections IH]; intros results db H; cbn [fold_left].
  - exact H.
  - unfold recognize_one at 2. apply IH.
    apply Forall_app. split; [exact H|]. repeat constructor.
Qed.


(** ** A recognize call, end to end *)

(** Enroll Bob with [[0.1, 0.2, 0.3]], then recognize a probe
    [[0.1, 0.2, 0.31]] with threshold [0.5]: Bob is matched at distance about
    [0.01] with confidence [99], and the ledger gains one [matched] entry. *)
Example recognize_enrolled_face :
  let db1 :=
    snd (api_register sample_Number_toString probe_detectFace
           (Some "Bob") (Some "bob.jpg") 100 empty_db) in
  api_recognize sample_Number_toString sample_StringToNumber probe_detectFace
    (Some "probe.jpg") (JS.Number 0.5) 101 db1
  = (Recognized
       (RecognizeSuccess
          [ {| fr_name := "Bob"; fr_confidence := "99.00"; fr_isMatched := true;
               fr_distance := 0.010000000000000009%float |} ]),
     {| faces := faces db1;
        faces_seq := 1;
        recognition_logs :=
          [ {| log_id := 1; log_matched_name := "Bob"; log_confidence := 99%float;
               log_timestamp := 101; log_status := "matched" |} ];
        logs_seq := 1 |}).
Proof. vm_compute. reflexivity. Qed.

(** A recognize call on an image in which the extractor finds no face (or on
    which it fails) resolves with [No face detected in image] and writes
    nothing, neither to the store nor to the ledger. *)
Lemma recognize_no_face_no_ledger_entry
  (Number_toString : float -> string) (StringToNumber : string -> float)
  (detectFace : string -> option (list (list float)))
  (imagePath : string) (threshold : JS.value) (now : Z) (db : database) :
  detectFace imagePath = Some [] \/ detectFace imagePath = None ->
  recognizeFace Number_toString StringToNumber detectFace imagePath threshold now db
  = (RecognizeFailure "No face detected in image", db).
Proof. unfold recognizeFace. intros [-> | ->]; reflexivity. Qed.

Lemma recognize_no_face_no_ledger_entry_witness :
  (sample_detectFace "empty.jpg" = Some [] \/ sample_detectFace "empty.jpg" = None) /\
  recognizeFace sample_Number_toString sample_StringToNumber sample_detectFace
    "empty.jpg" (JS.Number 0.5) 100 sample_ledger
  = (RecognizeFailure "No face detected in image", sample_ledger).
Proof.
  split; [left; reflexivity|].
  apply (recognize_no_face_no_ledger_entry sample_Number_toString sample_StringToNumber
           sample_detectFace "empty.jpg" (JS.Number 0.5) 100 sample_ledger).
  left. reflexivity.
Defined.

(** Enroll Alice with [[0.1, 0.2, 0.3]] through the register route:
    [getAllFaces] then lists one record, named Alice, with that descriptor. *)
Example enroll_then_list :
  getAllFaces sample_StringToNumber
    (snd (api_register sample_Number_toString sample_detectFace
            (Some "Alice") (Some "alice.jpg") 100 empty_db))
  = [ {| rf_id := 1; rf_name := "Alice";
         rf_descriptor := [JS.SlotNumber 0.1; JS.SlotNumber 0.2; JS.SlotNumber 0.3]%float |} ].
Proof. vm_compute. reflexivity. Qed.

(** Called directly with the threshold [0], [recognizeFace] keeps it: the
    default parameter replaces [undefined] only, so every face is decided by
    [distance < 0]. *)
Lemma recognizeFace_keeps_explicit_zero
  (Number_toString : float -> string) (StringToNumber : string -> float)
  (detectFace : string -> option (list (list float)))
  (imagePath : string) (now : Z) (db : database)
  (results : list face_result) (db' : database) :
  recognizeFace Number_toString StringToNumber detectFace imagePath (JS.Number 0) now db
  = (RecognizeSuccess results, db') ->
  Forall (fun fr => fr_isMatched fr = (fr_distance fr <? 0)%float) results.
Proof.
  unfold recognizeFace.
  destruct (detectFace imagePath) as [[ | q detections] | ]; try discriminate.
  pose proof (recognize_loop_decisions Number_toString StringToNumber
                (getAllFaces StringToNumber db) (JS.Number 0) now
                (q :: detections) [] db (Forall_nil _)) as H.
  destruct (fold_left _ (q :: detections) ([], db)) as [results0 db0].
  intros E. inversion E; subst. exact H.
Qed.

(** * Further properties of the code *)

(** ** The distance *)

Lemma binary_round_aux_sign (s : bool) (m e : Z) (l : location) :
  match binary_round_aux prec emax s m e l with
  | S754_zero s' | S754_infinity s' | S754_finite s' _ _ => s' = s
  | S754_nan => True
  end.
Proof.
  unfold binary_round_aux.
  destruct (shr_fexp prec emax m e l) as [mrs' e'].
  destruct (shr_fexp prec emax _ e' loc_Exact) as [mrs'' e''].
  destruct (shr_m mrs''); [reflexivity| |exact I].
  destruct (e'' <=? emax - prec); reflexivity.
Qed.

Lemma binary_round_aux_sign_clear (m e : Z) (l : location) :
  sign_clear (binary_round_aux prec emax false m e l) = true.
Proof.
  pose proof (binary_round_aux_sign false m e l) as H.
  destruct (binary_round_aux prec emax false m e l); cbn; try rewrite H; reflexivity.
Qed.

Lemma SFmul_square_sign_clear (a : spec_float) : sign_clear (SF64mul a a) = true.
Proof.
  destruct a as [s | s | | s m e]; cbn -[binary_round_aux].
  - destruct s; reflexivity.
  - destruct s; reflexivity.
  - reflexivity.
  - replace (xorb s s) with false by (destruct s; reflexivity).
    apply binary_round_aux_sign_clear.
Qed.

Lemma SFadd_sign_clear (a b : spec_float) :
  sign_clear a = true -> sign_clear b = true -> sign_clear (SF64add a b) = true.
Proof.
  destruct a as [[|] | [|] | | [|] ma ea]; try discriminate;
  destruct b as [[|] | [|] | | [|] mb eb]; try discriminate; intros _ _; try reflexivity.
  unfold SF64add, SFadd. cbn [cond_Zopp Z.add binary_normalize].
  unfold binary_round.
  match goal with |- context [let '(mz, ez) := ?p in _] => destruct p as [mz ez] end.
  apply binary_round_aux_sign_clear.
Qed.

Lemma SFsqrt_sign_clear (a : spec_float) :
  sign_clear a = true -> sign_clear (SF64sqrt a) = true.
Proof.
  destruct a as [[|] | [|] | | [|] m e]; try discriminate; intros _; try reflexivity.
  unfold SF64sqrt, SFsqrt.
  destruct (SFsqrt_core_binary prec emax (Zpos m) e) as [[mz ez] lz].
  apply binary_round_aux_sign_clear.
Qed.

(** A float whose sign bit is clear is NaN or at least 0. *)
Lemma sign_clear_nonneg (x : float) :
  sign_clear (Prim2SF x) = true -> is_nan x = true \/ (0 <=? x)%float = true.
Proof.
  rewrite Binary64.is_nan_spec, Binary64.nonneg_spec.
  destruct (Prim2SF x) as [[|] | [|] | | [|] m e]; try discriminate; intros _; auto.
Qed.

(** The running sum of [calculateDistance] never has its sign bit set. *)
Lemma sum_step_sign_clear (descriptor2 : list JS.slot) (descriptor1 : list float)
  (sum : float) (i : nat) :
  sign_clear (Prim2SF sum) = true ->
  sign_clear (Prim2SF (fst (fold_left (sum_step descriptor2) descriptor1 (sum, i)))) = true.
Proof.
  revert sum i. induction descriptor1 as [ | x rest IH]; intros sum i H; cbn [fold_left].
  - exact H.
  - cbn [sum_step]. apply IH. rewrite add_spec. apply SFadd_sign_clear; [exact H|].
    rewrite mul_spec. apply SFmul_square_sign_clear.
Qed.

Lemma calculateDistance_sign_clear (descriptor1 : list float) (descriptor2 : list JS.slot) :
  sign_clear (Prim2SF (calculateDistance descriptor1 descriptor2)) = true.
Proof.
  unfold calculateDistance, JS.Math_sqrt. rewrite sqrt_spec.
  apply SFsqrt_sign_clear, sum_step_sign_clear. reflexivity.
Qed.

(** X2.  The distance is never negative: it is NaN or at least 0. *)
Theorem calculateDistance_nonnegative (descriptor1 : list float) (descriptor2 : list JS.slot) :
  let distance := calculateDistance descriptor1 descriptor2 in
  (distance <? 0)%float = false /\
  (is_nan distance = true \/ (0 <=? distance)%float = true).
Proof.
  cbv zeta.
  pose proof (sign_clear_nonneg _ (calculateDistance_sign_clear descriptor1 descriptor2)) as H.
  split; [|exact H].
  destruct H as [H | H].
  - apply Binary64.ltb_nan. auto.
  - destruct (_ <? 0)%float eqn:E; [|reflexivity].
    apply Binary64.ltb_true_iff in E. apply Binary64.leb_true_iff in H.
    change (IEEE.fval 0) with 0 in *. lia.
Qed.

Lemma SFeqb_finite_eq (s1 s2 : bool) (m1 m2 : positive) (e1 e2 : Z) :
  SFeqb (S754_finite s1 m1 e1) (S754_finite s2 m2 e2) = true ->
  s1 = s2 /\ m1 = m2 /\ e1 = e2.
Proof.
  unfold SFeqb, SFcompare.
  destruct s1, s2; try discriminate;
    destruct (Z.compare_spec e1 e2) as [He | He | He]; try discriminate;
    fold (Pos.compare m1 m2); destruct (Pos.compare_spec m1 m2) as [Hm | Hm | Hm];
    try discriminate; auto.
Qed.

Lemma SFsub_diag_finite (s : bool) (m : positive) (e : Z) :
  SF64sub (S754_finite s m e) (S754_finite s m e) = S754_zero false.
Proof.
  unfold SF64sub, SFsub. rewrite Z.min_id. unfold shl_align.
  repeat rewrite Z.sub_diag. reflexivity.
Qed.

(** The square of the difference of a finite number and a number equal to it
    ([===]) is [+0]. *)
Lemma square_diff_equal (x y : float) :
  is_finite x = true -> (y =? x)%float = true -> ((x - y) * (x - y))%float = 0%float.
Proof.
  intros Hfin Heq. apply Prim2SF_inj.
  rewrite mul_spec, sub_spec. rewrite is_finite_spec in Hfin. rewrite eqb_spec in Heq.
  change (Prim2SF 0) with (S754_zero false).
  destruct (Prim2SF x) as [sa | sa | | sa ma ea]; try discriminate;
    destruct (Prim2SF y) as [sb | sb | | sb mb eb];
    try (destruct sa; discriminate); try (destruct sb; discriminate).
  - destruct sa, sb; reflexivity.
  - apply SFeqb_finite_eq in Heq. destruct Heq as (-> & -> & ->).
    rewrite SFsub_diag_finite. reflexivity.
Qed.

(** [descriptor[i]] at the end of a prefix. *)
Lemma get_slot_middle (pre : list JS.slot) (s : JS.slot) (post : list JS.slot) :
  JS.get_slot (pre ++ s :: post) (List.length pre) = s.
Proof. unfold JS.get_slot. apply nth_middle. Qed.

Lemma sum_step_equal (pre stored : list JS.slot) (v : list float) :
  Forall2 (fun slot x => is_finite x = true /\
                         exists y, slot = JS.SlotNumber y /\ (y =? x)%float = true)
    stored v ->
  fst (fold_left (sum_step (pre ++ stored)) v (0%float, List.length pre)) = 0%float.
Proof.
  intros H. revert pre.
  induction H as [ | slot x stored v (Hfin & y & -> & Heq) _ IH]; intros pre.
  - reflexivity.
  - cbn [fold_left sum_step]. rewrite get_slot_middle. cbn [JS.slot_to_number].
    rewrite (square_diff_equal x y Hfin Heq).
    change (0 + 0)%float with 0%float.
    replace (pre ++ JS.SlotNumber y :: stored) with ((pre ++ [JS.SlotNumber y]) ++ stored)
      by (rewrite <- app_assoc; reflexivity).
    replace (S (List.length pre)) with (List.length (pre ++ [JS.SlotNumber y]))
      by (rewrite length_app; cbn; lia).
    apply IH.
Qed.

(** X3.  The distance from a finite descriptor to a stored descriptor whose
    slots are numbers equal to its components is [0]. *)
Theorem calculateDistance_equal_is_zero (v : list float) (stored : list JS.slot) :
  Forall2 (fun slot x => is_finite x = true /\
                         exists y, slot = JS.SlotNumber y /\ (y =? x)%float = true)
    stored v ->
  calculateDistance v stored = 0%float.
Proof.
  intros H. unfold calculateDistance.
  replace (fst (fold_left (sum_step stored) v (zero, O))) with 0%float
    by (symmetry; exact (sum_step_equal [] stored v H)).
  reflexivity.
Qed.

Lemma calculateDistance_equal_is_zero_witness :
  Forall2 (fun slot x => is_finite x = true /\
                         exists y, slot = JS.SlotNumber y /\ (y =? x)%float = true)
    [JS.SlotNumber 0.1; JS.SlotNumber (-0); JS.SlotNumber 0.3]%float [0.1; 0; 0.3]%float /\
  calculateDistance [0.1; 0; 0.3]%float
    [JS.SlotNumber 0.1; JS.SlotNumber (-0); JS.SlotNumber 0.3]%float
  = 0%float.
Proof.
  assert (H : Forall2 (fun slot x => is_finite x = true /\
                         exists y, slot = JS.SlotNumber y /\ (y =? x)%float = true)
                [JS.SlotNumber 0.1; JS.SlotNumber (-0); JS.SlotNumber 0.3]%float
                [0.1; 0; 0.3]%float).
  { repeat constructor; eexists; split; reflexivity. }
  split; [exact H|].
  apply (calculateDistance_equal_is_zero _ _ H).
Defined.

(** *** NaN distances *)

Lemma sub_nan (x y : float) :
  is_nan x = true \/ is_nan y = true -> is_nan (x - y)%float = true.
Proof.
  rewrite !Binary64.is_nan_spec, sub_spec.
  destruct (Prim2SF x), (Prim2SF y); intros [H | H]; try discriminate H; reflexivity.
Qed.

Lemma square_nan (x : float) : is_nan x = true -> is_nan (x * x)%float = true.
Proof.
  rewrite !Binary64.is_nan_spec, mul_spec.
  destruct (Prim2SF x); intros H; try discriminate H; reflexivity.
Qed.

Lemma add_nan (x y : float) :
  is_nan x = true \/ is_nan y = true -> is_nan (x + y)%float = true.
Proof.
  rewrite !Binary64.is_nan_spec, add_spec.
  destruct (Prim2SF x), (Prim2SF y); intros [H | H]; try discriminate H; reflexivity.
Qed.

Lemma sqrt_nan (x : float) : is_nan x = true -> is_nan (JS.Math_sqrt x) = true.
Proof.
  unfold JS.Math_sqrt. rewrite !Binary64.is_nan_spec, sqrt_spec.
  destruct (Prim2SF x); intros H; try discriminate H; reflexivity.
Qed.

(** Once the running sum is NaN it stays NaN. *)
Lemma sum_step_nan_sum (descriptor2 : list JS.slot) (descriptor1 : list float)
  (sum : float) (i : nat) :
  is_nan sum = true ->
  is_nan (fst (fold_left (sum_step descriptor2) descriptor1 (sum, i))) = true.
Proof.
  revert sum i. induction descriptor1 as [ | x rest IH]; intros sum i H; cbn [fold_left].
  - exact H.
  - cbn [sum_step]. apply IH, add_nan. auto.
Qed.

Lemma sum_step_nan_at (descriptor2 : list JS.slot) (descriptor1 : list float)
  (sum : float) (i k : nat) (x : float) :
  nth_error descriptor1 k = Some x ->
  is_nan (x - JS.slot_to_number (JS.get_slot descriptor2 (i + k)))%float = true ->
  is_nan (fst (fold_left (sum_step descriptor2) descriptor1 (sum, i))) = true.
Proof.
  revert sum i k.
  induction descriptor1 as [ | y rest IH]; intros sum i k Hk Hnan.
  - destruct k; discriminate.
  - cbn [fold_left sum_step]. destruct k as [ | k]; cbn [nth_error] in Hk.
    + inversion Hk; subst y. rewrite Nat.add_0_r in Hnan.
      apply sum_step_nan_sum, add_nan. right. apply square_nan, Hnan.
    + apply (IH _ (S i) k Hk). rewrite Nat.add_succ_comm. exact Hnan.
Qed.

Lemma calculateDistance_nan_at (descriptor1 : list float) (descriptor2 : list JS.slot)
  (k : nat) (x : float) :
  nth_error descriptor1 k = Some x ->
  is_nan x = true \/ is_nan (JS.slot_to_number (JS.get_slot descriptor2 k)) = true ->
  is_nan (calculateDistance descriptor1 descriptor2) = true.
Proof.
  intros Hk Hnan. unfold calculateDistance. apply sqrt_nan.
  apply (sum_step_nan_at descriptor2 descriptor1 zero O k x Hk).
  apply sub_nan. exact Hnan.
Qed.

(** A stored descriptor shorter than the query: the first missing slot reads
    [undefined], and the distance is NaN. *)
Lemma calculateDistance_shorter_nan (descriptor1 : list float) (descriptor2 : list JS.slot) :
  (List.length descriptor2 < List.length descriptor1)%nat ->
  is_nan (calculateDistance descriptor1 descriptor2) = true.
Proof.
  intros Hlen.
  destruct (nth_error descriptor1 (List.length descriptor2)) as [x | ] eqn:E.
  - apply (calculateDistance_nan_at _ _ _ x E). right.
    unfold JS.get_slot. rewrite nth_overflow by lia. reflexivity.
  - apply nth_error_None in E. lia.
Qed.

(** *** A query that is not finite *)

Lemma square_diff_nonfinite (x y : float) :
  is_finite x = false -> inf_or_nan (Prim2SF ((x - y) * (x - y))%float) = true.
Proof.
  rewrite is_finite_spec, mul_spec, sub_spec.
  destruct (Prim2SF x) as [sa | [|] | | sa ma ea]; try discriminate; intros _;
    destruct (Prim2SF y) as [sb | [|] | | sb mb eb]; reflexivity.
Qed.

Lemma SFadd_inf_or_nan_r (a z : spec_float) :
  sign_clear a = true -> inf_or_nan z = true -> inf_or_nan (SF64add a z) = true.
Proof.
  destruct a as [[|] | [|] | | [|] ma ea]; try discriminate;
    destruct z as [sz | [|] | | sz mz ez]; try discriminate; reflexivity.
Qed.

Lemma SFadd_inf_or_nan_l (a z : spec_float) :
  inf_or_nan a = true -> sign_clear z = true -> inf_or_nan (SF64add a z) = true.
Proof.
  destruct a as [sa | [|] | | sa ma ea]; try discriminate;
    destruct z as [[|] | [|] | | [|] mz ez]; try discriminate; reflexivity.
Qed.

Lemma sum_step_unbounded_sum (descriptor2 : list JS.slot) (descriptor1 : list float)
  (sum : float) (i : nat) :
  inf_or_nan (Prim2SF sum) = true ->
  inf_or_nan (Prim2SF (fst (fold_left (sum_step descriptor2) descriptor1 (sum, i)))) = true.
Proof.
  revert sum i. induction descriptor1 as [ | x rest IH]; intros sum i H; cbn [fold_left].
  - exact H.
  - cbn [sum_step]. apply IH. rewrite add_spec. apply SFadd_inf_or_nan_l; [exact H|].
    rewrite mul_spec. apply SFmul_square_sign_clear.
Qed.

Lemma sum_step_unbounded_at (descriptor2 : list JS.slot) (descriptor1 : list float)
  (sum : float) (i k : nat) (x : float) :
  sign_clear (Prim2SF sum) = true ->
  nth_error descriptor1 k = Some x -> is_finite x = false ->
  inf_or_nan (Prim2SF (fst (fold_left (sum_step descriptor2) descriptor1 (sum, i)))) = true.
Proof.
  revert sum i k.
  induction descriptor1 as [ | y rest IH]; intros sum i k Hs Hk Hx.
  - destruct k; discriminate.
  - cbn [fold_left sum_step]. destruct k as [ | k]; cbn [nth_error] in Hk.
    + inversion Hk; subst y. apply sum_step_unbounded_sum.
      rewrite add_spec. apply SFadd_inf_or_nan_r; [exact Hs|].
      apply square_diff_nonfinite, Hx.
    + apply (IH _ (S i) k); [|exact Hk|exact Hx].
      rewrite add_spec. apply SFadd_sign_clear; [exact Hs|].
      rewrite mul_spec. apply SFmul_square_sign_clear.
Qed.

(** A query with a component that is NaN or an infinity is at distance NaN or
    [Infinity] from every stored descriptor. *)
Lemma calculateDistance_nonfinite_query
  (descriptor1 : list float) (descriptor2 : list JS.slot) :
  Exists (fun x => is_finite x = false) descriptor1 ->
  (calculateDistance descriptor1 descriptor2 <? JS.Infinity)%float = false.
Proof.
  intros H. apply Exists_exists in H. destruct H as (x & Hin & Hx).
  apply In_nth_error in Hin. destruct Hin as [k Hk].
  pose proof (sum_step_unbounded_at descriptor2 descriptor1 zero O k x eq_refl Hk Hx) as Hsum.
  unfold calculateDistance, JS.Math_sqrt. rewrite ltb_spec, sqrt_spec.
  change (Prim2SF JS.Infinity) with (S754_infinity false).
  destruct (Prim2SF (fst (fold_left (sum_step descriptor2) descriptor1 (zero, O))))
    as [s | [|] | | s m e]; try discriminate; reflexivity.
Qed.

(** What the matcher returns is the initial [Unknown] or a record of the list. *)
Lemma findBestMatch_cases (q : list float) (registeredFaces : list registered_face) :
  findBestMatch q registeredFaces = {| bm_name := "Unknown"; bm_distance := JS.Infinity |}
  \/ exists r, In r registeredFaces /\
               findBestMatch q registeredFaces
               = {| bm_name := rf_name r; bm_distance := distance_to q r |} /\
               (distance_to q r <? JS.Infinity)%float = true.
Proof.
  destruct (findBestMatch_selected q registeredFaces)
    as [[E _] | (i & r & Hnth & E & Hfin & _)].
  - left. exact E.
  - right. exists r. split; [exact (nth_error_In _ _ Hnth)|]. split; assumption.
Qed.

(** X4.  A record is selected only if its descriptor has a slot for every index
    of the query and every component of the query is finite; a query holding
    NaN or an infinity, or longer than every stored descriptor, is answered
    [Unknown]. *)
Theorem matcher_skips_incomparable (q : list float) (registeredFaces : list registered_face) :
  (findBestMatch q registeredFaces = {| bm_name := "Unknown"; bm_distance := JS.Infinity |}
   \/ exists r, In r registeredFaces /\
                findBestMatch q registeredFaces
                = {| bm_name := rf_name r; bm_distance := distance_to q r |} /\
                (List.length q <= List.length (rf_descriptor r))%nat /\
                Forall (fun x => is_finite x = true) q) /\
  ((Exists (fun x => is_finite x = false) q \/
    Forall (fun r => (List.length (rf_descriptor r) < List.length q)%nat) registeredFaces) ->
   findBestMatch q registeredFaces = {| bm_name := "Unknown"; bm_distance := JS.Infinity |}).
Proof.
  split.
  - destruct (findBestMatch_cases q registeredFaces) as [E | (r & Hin & E & Hfin)];
      [left; exact E|].
    right. exists r. split; [exact Hin|]. split; [exact E|].
    unfold distance_to in Hfin. split.
    + destruct (Nat.le_gt_cases (List.length q) (List.length (rf_descriptor r)))
        as [Hle | Hgt]; [exact Hle|].
      apply ltb_infinity_not_nan in Hfin.
      rewrite (calculateDistance_shorter_nan _ _ Hgt) in Hfin. discriminate.
    + apply Forall_forall. intros x Hx.
      destruct (is_finite x) eqn:Fx; [reflexivity|].
      rewrite calculateDistance_nonfinite_query in Hfin; [discriminate|].
      apply Exists_exists. eauto.
  - intros Hbad.
    destruct (findBestMatch_cases q registeredFaces) as [E | (r & Hin & E & Hfin)];
      [exact E|].
    unfold distance_to in Hfin.
    destruct Hbad as [Hnf | Hshort].
    + rewrite (calculateDistance_nonfinite_query _ _ Hnf) in Hfin. discriminate.
    + rewrite Forall_forall in Hshort. apply ltb_infinity_not_nan in Hfin.
      rewrite (calculateDistance_shorter_nan _ _ (Hshort r Hin)) in Hfin. discriminate.
Qed.

(** *** Stored slots beyond the query *)

Lemma sum_step_prefix (d extra : list JS.slot) (q : list float) (sum : float) (i : nat) :
  (i + List.length q <= List.length d)%nat ->
  fold_left (sum_step (d ++ extra)) q (sum, i) = fold_left (sum_step d) q (sum, i).
Proof.
  revert sum i. induction q as [ | x q IH]; intros sum i Hlen; cbn [fold_left].
  - reflexivity.
  - cbn [List.length] in Hlen. cbn [sum_step].
    replace (JS.get_slot (d ++ extra) i) with (JS.get_slot d i)
      by (unfold JS.get_slot; rewrite app_nth1 by lia; reflexivity).
    apply IH. lia.
Qed.

(** X5.  The loop of [calculateDistance] runs over the indices of the query:
    slots of the stored descriptor beyond the length of the query are not
    read. *)
Theorem calculateDistance_ignores_extra_slots
  (q : list float) (d extra : list JS.slot) :
  (List.length q <= List.length d)%nat ->
  calculateDistance q (d ++ extra) = calculateDistance q d.
Proof.
  intros Hlen. unfold calculateDistance. rewrite sum_step_prefix by (cbn; lia). reflexivity.
Qed.

Lemma calculateDistance_ignores_extra_slots_witness :
  (List.length [0.1; 0.2]%float <= List.length [JS.SlotNumber 0.5; JS.SlotNumber 0.25])%nat /\
  calculateDistance [0.1; 0.2]%float
    ([JS.SlotNumber 0.5; JS.SlotNumber 0.25] ++ [JS.SlotNumber 1; JS.SlotNull])
  = calculateDistance [0.1; 0.2]%float [JS.SlotNumber 0.5; JS.SlotNumber 0.25].
Proof.
  split; [cbn; lia|].
  apply (calculateDistance_ignores_extra_slots [0.1; 0.2]%float
           [JS.SlotNumber 0.5; JS.SlotNumber 0.25] [JS.SlotNumber 1; JS.SlotNull]).
  cbn. lia.
Defined.

(** *** Symmetry *)

Lemma binary_round_aux_opp (s : bool) (m e : Z) (l : location) :
  binary_round_aux prec emax (negb s) m e l = SFopp (binary_round_aux prec emax s m e l).
Proof.
  unfold binary_round_aux.
  destruct (shr_fexp prec emax m e l) as [mrs' e'].
  destruct (shr_fexp prec emax _ e' loc_Exact) as [mrs'' e''].
  destruct (shr_m mrs''); [reflexivity| |reflexivity].
  destruct (e'' <=? emax - prec); reflexivity.
Qed.

Lemma binary_normalize_opp (m e : Z) :
  binary_normalize prec emax (- m) e false = S754_zero false /\
  binary_normalize prec emax m e false = S754_zero false
  \/ binary_normalize prec emax (- m) e false = SFopp (binary_normalize prec emax m e false).
Proof.
  destruct m as [ | p | p]; cbn [Z.opp binary_normalize]; [left; split; reflexivity | | ];
    right; unfold binary_round;
    destruct (shl_align p e _) as [mz ez].
  - apply (binary_round_aux_opp false).
  - rewrite (binary_round_aux_opp false).
    destruct (binary_round_aux _ _ false _ _ _) as [[|] | [|] | | [|] m' e']; reflexivity.
Qed.

(** [b - a] is the opposite of [a - b], or both are [+0]. *)
Lemma SFsub_swap (a b : spec_float) :
  SF64sub b a = S754_zero false /\ SF64sub a b = S754_zero false
  \/ SF64sub b a = SFopp (SF64sub a b).
Proof.
  destruct a as [sa | sa | | sa ma ea], b as [sb | sb | | sb mb eb];
    try (right; reflexivity);
    try (destruct sa, sb; (right; reflexivity) || (left; split; reflexivity));
    try (destruct sa; right; reflexivity);
    try (destruct sb; right; reflexivity).
  unfold SF64sub, SFsub. cbv zeta. rewrite (Z.min_comm eb ea).
  set (A := cond_Zopp sa _). set (B := cond_Zopp sb _).
  replace (B - A) with (- (A - B)) by lia.
  apply binary_normalize_opp.
Qed.

Lemma SFmul_square_opp (a : spec_float) : SF64mul (SFopp a) (SFopp a) = SF64mul a a.
Proof.
  destruct a as [[|] | [|] | | [|] m e]; reflexivity.
Qed.

(** The square of a difference does not depend on the order of its terms. *)
Lemma square_diff_swap (x y : float) :
  ((y - x) * (y - x))%float = ((x - y) * (x - y))%float.
Proof.
  apply Prim2SF_inj. rewrite !mul_spec, !sub_spec.
  destruct (SFsub_swap (Prim2SF x) (Prim2SF y)) as [[-> ->] | ->]; [reflexivity|].
  apply SFmul_square_opp.
Qed.

Lemma sum_step_swap (pre1 pre2 : list float) (a b : list float) (sum : float) :
  List.length pre1 = List.length pre2 ->
  List.length a = List.length b ->
  fst (fold_left (sum_step (map JS.SlotNumber (pre2 ++ b))) a (sum, List.length pre1))
  = fst (fold_left (sum_step (map JS.SlotNumber (pre1 ++ a))) b (sum, List.length pre1)).
Proof.
  revert pre1 pre2 b sum.
  induction a as [ | x a IH]; intros pre1 pre2 [ | y b] sum Hpre Hlen; try discriminate.
  - reflexivity.
  - cbn [fold_left sum_step].
    assert (Hy : JS.get_slot (map JS.SlotNumber (pre2 ++ y :: b)) (List.length pre1)
                 = JS.SlotNumber y).
    { rewrite map_app, Hpre, <- (length_map JS.SlotNumber pre2). apply get_slot_middle. }
    assert (Hx : JS.get_slot (map JS.SlotNumber (pre1 ++ x :: a)) (List.length pre1)
                 = JS.SlotNumber x).
    { rewrite map_app, <- (length_map JS.SlotNumber pre1). apply get_slot_middle. }
    rewrite Hx, Hy. cbn [JS.slot_to_number].
    rewrite (square_diff_swap x y).
    replace (pre2 ++ y :: b) with ((pre2 ++ [y]) ++ b) by (rewrite <- app_assoc; reflexivity).
    replace (pre1 ++ x :: a) with ((pre1 ++ [x]) ++ a) by (rewrite <- app_assoc; reflexivity).
    replace (S (List.length pre1)) with (List.length (pre1 ++ [x]))
      by (rewrite length_app; cbn; lia).
    apply IH.
    + rewrite !length_app. cbn. lia.
    + cbn in Hlen. lia.
Qed.

(** X6.  The distance between two descriptors of equal length is symmetric. *)
Theorem calculateDistance_symmetric (a b : list float) :
  List.length a = List.length b ->
  calculateDistance a (map JS.SlotNumber b) = calculateDistance b (map JS.SlotNumber a).
Proof.
  intros Hlen. unfold calculateDistance. f_equal.
  exact (sum_step_swap [] [] a b zero eq_refl Hlen).
Qed.

Lemma calculateDistance_symmetric_witness :
  List.length [0.1; 0.2; 0.3]%float = List.length [0.5; 0.25; 1]%float /\
  calculateDistance [0.1; 0.2; 0.3]%float (map JS.SlotNumber [0.5; 0.25; 1]%float)
  = calculateDistance [0.5; 0.25; 1]%float (map JS.SlotNumber [0.1; 0.2; 0.3]%float).
Proof.
  split; [reflexivity|].
  apply (calculateDistance_symmetric [0.1; 0.2; 0.3]%float [0.5; 0.25; 1]%float).
  reflexivity.
Defined.

(** ** Ranges of a match result *)

Lemma findBestMatch_distance_nonneg (q : list float) (registeredFaces : list registered_face) :
  (0 <=? bm_distance (findBestMatch q registeredFaces))%float = true.
Proof.
  destruct (findBestMatch_cases q registeredFaces) as [-> | (r & _ & -> & Hfin)];
    cbn [bm_distance]; [reflexivity|].
  apply ltb_infinity_not_nan in Hfin.
  destruct (sign_clear_nonneg _ (calculateDistance_sign_clear q (rf_descriptor r)))
    as [H | H].
  - unfold distance_to in Hfin. rewrite H in Hfin. discriminate.
  - exact H.
Qed.

(** X7.  Whatever the query and the enrolled set, the distance of the match
    result is at least [0] and its confidence lies in [[0, 100]]. *)
Theorem match_result_ranges (q : list float) (registeredFaces : list registered_face) :
  let best := findBestMatch q registeredFaces in
  (0 <=? bm_distance best)%float = true /\
  (0 <=? confidence_of (bm_distance best))%float = true /\
  (confidence_of (bm_distance best) <=? 100)%float = true.
Proof.
  cbv zeta. pose proof (findBestMatch_distance_nonneg q registeredFaces) as H.
  split; [exact H|]. apply Binary64.confidence_range, H.
Qed.

(** X8.  The decision and the confidence agree on the threshold: a result
    decided matched against the number [t] has a confidence of at least
    [max(0, 100 - t*100)], one decided unmatched against [t >= 0] has at most
    that; against a threshold that is not above [0] (or is NaN) nothing is
    matched; for the default threshold [0.5] the bound is [50]. *)
Theorem decision_bounds_confidence
  (q : list float) (registeredFaces : list registered_face) (t : float) :
  let d := bm_distance (findBestMatch q registeredFaces) in
  ((d <? t)%float = true -> (confidence_of t <=? confidence_of d)%float = true) /\
  ((0 <=? t)%float = true -> (d <? t)%float = false ->
   (confidence_of d <=? confidence_of t)%float = true) /\
  ((0 <? t)%float = false -> (d <? t)%float = false) /\
  confidence_of 0.5 = 50%float.
Proof.
  cbv zeta. pose proof (findBestMatch_distance_nonneg q registeredFaces) as H.
  split; [|split; [|split; [|reflexivity]]]; cycle 2.
  { intros Ht.
    destruct (bm_distance (findBestMatch q registeredFaces) <? t)%float eqn:E;
      [|reflexivity].
    rewrite (leb_ltb_trans _ _ _ H E) in Ht. discriminate. }
  - intros Hlt. apply Binary64.confidence_mono; [exact H|]. apply ltb_leb, Hlt.
  - intros Ht Hge. apply Binary64.confidence_mono; [exact Ht|].
    apply Binary64.leb_true_iff in H, Ht.
    apply ltb_false_leb; tauto.
Qed.

(** ** An enrolled descriptor as query *)

(** A number with its sign bit clear that is not NaN and not above [0] is [+0]. *)
Lemma sign_clear_zero (x : float) :
  sign_clear (Prim2SF x) = true -> is_nan x = false -> (0 <? x)%float = false ->
  x = 0%float.
Proof.
  rewrite Binary64.is_nan_spec, ltb_spec. change (Prim2SF 0) with (S754_zero false).
  intros Hs Hn Hlt. apply Prim2SF_inj. change (Prim2SF 0) with (S754_zero false).
  destruct (Prim2SF x) as [[|] | [|] | | [|] m e]; try discriminate; reflexivity.
Qed.

(** With a record at distance [0] in the list, the matcher returns the first
    such record. *)
Lemma findBestMatch_zero (q : list float) (registeredFaces : list registered_face)
  (r0 : registered_face) :
  In r0 registeredFaces -> distance_to q r0 = 0%float ->
  exists (i : nat) (r : registered_face),
    nth_error registeredFaces i = Some r /\
    findBestMatch q registeredFaces = {| bm_name := rf_name r; bm_distance := 0 |} /\
    distance_to q r = 0%float /\
    (forall j r', (j < i)%nat -> nth_error registeredFaces j = Some r' ->
                  (distance_to q r' <=? 0)%float = false).
Proof.
  intros Hin H0.
  destruct (findBestMatch_selected q registeredFaces)
    as [[_ Hall] | (i & r & Hnth & E & Hfin & Hmin & Hfirst)].
  - specialize (Hall r0 Hin). rewrite H0 in Hall. discriminate.
  - assert (Hz : distance_to q r = 0%float).
    { apply sign_clear_zero.
      - apply calculateDistance_sign_clear.
      - apply ltb_infinity_not_nan, Hfin.
      - specialize (Hmin r0 Hin). rewrite H0 in Hmin. exact Hmin. }
    exists i, r. rewrite Hz in E, Hfirst. repeat split; assumption.
Qed.

(** ** The loop over the detections *)

Lemma next_keys_cons (k : Z) (n : nat) :
  next_keys k (S n) = (k + 1) :: next_keys (k + 1) n.
Proof.
  unfold next_keys. cbn [seq map]. f_equal.
  rewrite <- seq_shift, map_map. apply map_ext. intros i. lia.
Qed.

Section Loop.

Variable Number_toString : float -> string.
Variable StringToNumber : string -> float.
Variable registeredFaces : list registered_face.
Variable threshold : JS.value.
Variable now : Z.

(** What the loop over [detections] does: it leaves [faces] alone, pushes
    one result per detection, in order, and appends the entry that records
    it to the ledger. *)
Lemma recognize_loop_effect (detections : list (list float))
  (results : list face_result) (db : database) :
  let out :=
    fold_left (recognize_one Number_toString StringToNumber registeredFaces threshold now)
      detections (results, db) in
  faces (snd out) = faces db /\
  faces_seq (snd out) = faces_seq db /\
  logs_seq (snd out) = logs_seq db + Z.of_nat (List.length detections) /\
  exists (new : list face_result) (added : list log_row),
    fst out = results ++ new /\
    recognition_logs (snd out) = recognition_logs db ++ added /\
    Forall2 (result_for StringToNumber registeredFaces threshold) new detections /\
    Forall2 (records Number_toString now) added new /\
    map log_id added = next_keys (logs_seq db) (List.length detections).
Proof.
  cbv zeta. revert results db.
  induction detections as [ | q detections IH]; intros results db.
  - cbn [fold_left fst snd List.length]. rewrite Z.add_0_r.
    repeat split; try reflexivity.
    exists [], []. rewrite !app_nil_r. repeat split; constructor.
  - cbn [fold_left]. unfold recognize_one at 2 4 6 8 10.
    set (best := findBestMatch q registeredFaces).
    set (fr := {| fr_name := bm_name best;
                  fr_confidence := toFixed2 Number_toString (confidence_of (bm_distance best));
                  fr_isMatched := lt_value StringToNumber (bm_distance best) threshold;
                  fr_distance := bm_distance best |}).
    set (db1 := snd (logRecognition (bm_name best) (confidence_of (bm_distance best))
                       (lt_value StringToNumber (bm_distance best) threshold) now db)).
    destruct (IH (results ++ [fr]) db1) as (Hf & Hs & Hl & new & added & Hn & Ha & Hr & Hrec & Hid).
    rewrite Hf, Hs, Hl. cbn [List.length].
    split; [reflexivity|]. split; [reflexivity|].
    split; [subst db1; cbn [logRecognition snd logs_seq]; lia|].
    exists (fr :: new),
      ({| log_id := logs_seq db + 1; log_matched_name := bm_name best;
          log_confidence := confidence_of (bm_distance best); log_timestamp := now;
          log_status := if lt_value StringToNumber (bm_distance best) threshold
                        then "matched" else "unmatched" |} :: added).
    split; [rewrite Hn, <- app_assoc; reflexivity|].
    split; [rewrite Ha; subst db1; cbn [logRecognition snd recognition_logs];
            rewrite <- app_assoc; reflexivity|].
    split; [constructor; [repeat split|exact Hr]|].
    split; [constructor; [repeat split|exact Hrec]|].
    rewrite next_keys_cons. cbn [map log_id]. f_equal. exact Hid.
Qed.

End Loop.

(** The entries that record match results satisfy [entry_well_formed]. *)
Lemma recorded_entries_well_formed
  (Number_toString : float -> string) (StringToNumber : string -> float)
  (registeredFaces : list registered_face) (threshold : JS.value) (now : Z)
  (added : list log_row) (results : list face_result) (detections : list (list float)) :
  Forall2 (result_for StringToNumber registeredFaces threshold) results detections ->
  Forall2 (records Number_toString now) added results ->
  Forall (fun e => entry_well_formed e = true) added.
Proof.
  intros Hr Hrec. revert detections Hr.
  induction Hrec as [ | e fr added results (_ & Hc & _ & Hst & _) _ IH];
    intros detections Hr; [constructor|].
  inversion Hr as [ | fr' q results' detections' (_ & Hd & _) Hr']; subst.
  constructor; [|exact (IH _ Hr')].
  unfold entry_well_formed. rewrite Hc, Hd, Hst.
  destruct (Binary64.confidence_range _ (findBestMatch_distance_nonneg q registeredFaces))
    as (-> & ->).
  destruct (fr_isMatched fr); reflexivity.
Qed.

(** ** The inserts of a recognize call *)

Section IssueLoop.

Variable Number_toString : float -> string.
Variable StringToNumber : string -> float.
Variable registeredFaces : list registered_face.
Variable threshold : JS.value.

Lemma recognize_issue_effect (detections : list (list float))
  (results : list face_result) (issued : list issued_log) :
  let out :=
    fold_left (recognize_issue Number_toString StringToNumber registeredFaces threshold)
      detections (results, issued) in
  exists (new : list face_result) (more : list issued_log),
    fst out = results ++ new /\
    snd out = issued ++ more /\
    Forall2 (result_for StringToNumber registeredFaces threshold) new detections /\
    Forall2 (issued_for Number_toString) more new.
Proof.
  cbv zeta. revert results issued.
  induction detections as [ | q detections IH]; intros results issued.
  - exists [], []. cbn [fold_left fst snd]. rewrite !app_nil_r.
    repeat split; constructor.
  - cbn [fold_left]. unfold recognize_issue at 2 4.
    set (best := findBestMatch q registeredFaces).
    set (fr := {| fr_name := bm_name best;
                  fr_confidence := toFixed2 Number_toString (confidence_of (bm_distance best));
                  fr_isMatched := lt_value StringToNumber (bm_distance best) threshold;
                  fr_distance := bm_distance best |}).
    set (il := {| il_matched_name := bm_name best;
                  il_confidence := confidence_of (bm_distance best);
                  il_status := lt_value StringToNumber (bm_distance best) threshold |}).
    destruct (IH (results ++ [fr]) (issued ++ [il])) as (new & more & Hn & Hm & Hr & Hi).
    exists (fr :: new), (il :: more).
    split; [rewrite Hn, <- app_assoc; reflexivity|].
    split; [rewrite Hm, <- app_assoc; reflexivity|].
    split; constructor; try assumption; repeat split.
Qed.

(** Executing the issued inserts at once, in the order of issue, is what the
    loop of [recognizeFace] does in the sequential model. *)
Lemma recognize_one_issue (now : Z) (detections : list (list float))
  (results : list face_result) (issued : list issued_log) (db : database) :
  let out :=
    fold_left (recognize_issue Number_toString StringToNumber registeredFaces threshold)
      detections (results, issued) in
  fold_left (recognize_one Number_toString StringToNumber registeredFaces threshold now)
    detections (results, execute_logs (map (fun il => (il, now)) issued) db)
  = (fst out, execute_logs (map (fun il => (il, now)) (snd out)) db).
Proof.
  cbv zeta. revert results issued.
  induction detections as [ | q detections IH]; intros results issued.
  - reflexivity.
  - cbn [fold_left].
    set (best := findBestMatch q registeredFaces).
    set (fr := {| fr_name := bm_name best;
                  fr_confidence := toFixed2 Number_toString (confidence_of (bm_distance best));
                  fr_isMatched := lt_value StringToNumber (bm_distance best) threshold;
                  fr_distance := bm_distance best |}).
    set (il := {| il_matched_name := bm_name best;
                  il_confidence := confidence_of (bm_distance best);
                  il_status := lt_value StringToNumber (bm_distance best) threshold |}).
    change (recognize_issue Number_toString StringToNumber registeredFaces threshold
              (results, issued) q)
      with (results ++ [fr], issued ++ [il]).
    rewrite <- IH. f_equal.
    unfold recognize_one. fold best. fold fr. f_equal.
    unfold execute_logs. rewrite map_app, fold_left_app. reflexivity.
Qed.

End IssueLoop.

Lemma execute_logs_effect (executed : list (issued_log * Z)) (db : database) :
  let db' := execute_logs executed db in
  faces db' = faces db /\
  faces_seq db' = faces_seq db /\
  logs_seq db' = logs_seq db + Z.of_nat (List.length executed) /\
  exists added : list log_row,
    recognition_logs db' = recognition_logs db ++ added /\
    Forall2 written_by added executed /\
    map log_id added = next_keys (logs_seq db) (List.length executed).
Proof.
  cbv zeta. unfold execute_logs. revert db.
  induction executed as [ | ex executed IH]; intros db.
  - cbn [fold_left List.length]. rewrite Z.add_0_r. repeat split; try reflexivity.
    exists []. rewrite app_nil_r. repeat split; constructor.
  - cbn [fold_left].
    set (db1 := snd (logRecognition _ _ _ _ db)).
    destruct (IH db1) as (Hf & Hs & Hl & added & Ha & Hw & Hid).
    rewrite Hf, Hs, Hl. cbn [List.length].
    split; [reflexivity|]. split; [reflexivity|].
    split; [subst db1; cbn [logRecognition snd logs_seq]; lia|].
    exists ({| log_id := logs_seq db + 1; log_matched_name := il_matched_name (fst ex);
               log_confidence := il_confidence (fst ex); log_timestamp := snd ex;
               log_status := if il_status (fst ex) then "matched" else "unmatched" |}
            :: added).
    split; [rewrite Ha; subst db1; cbn [logRecognition snd recognition_logs];
            rewrite <- app_assoc; reflexivity|].
    split; [constructor; [repeat split|exact Hw]|].
    rewrite next_keys_cons. cbn [map log_id]. f_equal. exact Hid.
Qed.

(** X9.  [recognizeFace] returns one result per detected face, in the order
    of the detections, each matched against the faces listed at the start of
    the call, and issues for each face, without awaiting it, the insert of
    the entry that records the result; when the extractor finds no face or
    fails it issues none.  The store may execute the issued inserts in any
    order: once it has, with no other insert in between, the table [faces]
    is as before and the ledger is the old one followed by one entry per
    issued insert, in the order of execution, under the next keys of the
    sequence.  Executing them at once in the order of issue gives the
    database of the sequential model. *)
Theorem recognizeFace_logs_every_face
  (Number_toString : float -> string) (StringToNumber : string -> float)
  (detectFace : string -> option (list (list float)))
  (imagePath : string) (threshold : JS.value) (db : database) :
  let t := match threshold with JS.Undefined => JS.Number 0.5 | t => t end in
  let out :=
    recognizeFace_issued Number_toString StringToNumber detectFace imagePath threshold db in
  match detectFace imagePath with
  | None | Some [] => out = (RecognizeFailure "No face detected in image", [])
  | Some detections =>
      exists results : list face_result,
        fst out = RecognizeSuccess results /\
        Forall2 (result_for StringToNumber (getAllFaces StringToNumber db) t)
          results detections /\
        Forall2 (issued_for Number_toString) (snd out) results
  end /\
  (forall now : Z,
     recognizeFace Number_toString StringToNumber detectFace imagePath threshold now db
     = (fst out, execute_logs (map (fun il => (il, now)) (snd out)) db)) /\
  (forall executed : list (issued_log * Z),
     Permutation (map fst executed) (snd out) ->
     let db' := execute_logs executed db in
     faces db' = faces db /\
     faces_seq db' = faces_seq db /\
     logs_seq db' = logs_seq db + Z.of_nat (List.length (snd out)) /\
     exists added : list log_row,
       recognition_logs db' = recognition_logs db ++ added /\
       Forall2 written_by added executed /\
       map log_id added = next_keys (logs_seq db) (List.length (snd out))).
Proof.
  cbv zeta. split; [|split].
  - unfold recognizeFace_issued. cbv zeta.
    destruct (detectFace imagePath) as [[ | q detections] | ]; try reflexivity.
    set (t := match threshold with JS.Undefined => JS.Number 0.5 | _ => threshold end).
    destruct (recognize_issue_effect Number_toString StringToNumber
                (getAllFaces StringToNumber db) t (q :: detections) [] [])
      as (new & more & Hn & Hm & Hr & Hi).
    destruct (fold_left _ (q :: detections) ([], [])) as [results issued].
    cbn [fst snd] in *. subst results issued.
    exists new. repeat split; assumption.
  - intros now. unfold recognizeFace, recognizeFace_issued. cbv zeta.
    destruct (detectFace imagePath) as [[ | q detections] | ]; try reflexivity.
    set (t := match threshold with JS.Undefined => JS.Number 0.5 | _ => threshold end).
    pose proof (recognize_one_issue Number_toString StringToNumber
                  (getAllFaces StringToNumber db) t now (q :: detections) [] [] db) as H.
    cbv zeta in H. cbn [map] in H. change (execute_logs [] db) with db in H.
    rewrite H.
    destruct (fold_left _ (q :: detections) ([], [])) as [results issued]. reflexivity.
  - intros executed Hperm.
    rewrite <- (Permutation_length Hperm), length_map.
    apply execute_logs_effect.
Qed.

(** ** The threshold in force *)

(** What [recognizeFace] resolves with when the extractor finds faces: one
    result per face, each carrying the distance of the match and the decision
    taken against the threshold the loop ran with. *)
Lemma recognizeFace_decisions
  (Number_toString : float -> string) (StringToNumber : string -> float)
  (detectFace : string -> option (list (list float)))
  (imagePath : string) (threshold : JS.value) (now : Z) (db : database)
  (detections : list (list float)) :
  detectFace imagePath = Some detections -> detections <> [] ->
  exists (results : list face_result) (db' : database),
    recognizeFace Number_toString StringToNumber detectFace imagePath threshold now db
    = (RecognizeSuccess results, db') /\
    Forall2
      (fun fr q =>
         fr_distance fr = bm_distance (findBestMatch q (getAllFaces StringToNumber db)) /\
         fr_isMatched fr
         = lt_value StringToNumber (fr_distance fr)
             (match threshold with JS.Undefined => JS.Number 0.5 | _ => threshold end))
      results detections.
Proof.
  intros Hdetect Hne. unfold recognizeFace. cbv zeta. rewrite Hdetect.
  destruct detections as [ | q detections]; [contradiction|].
  set (t := match threshold with JS.Undefined => JS.Number 0.5 | _ => threshold end).
  destruct (recognize_loop_effect Number_toString StringToNumber
              (getAllFaces StringToNumber db) t now (q :: detections) [] db)
    as (_ & _ & _ & new & added & Hn & _ & Hr & _ & _).
  destruct (fold_left _ (q :: detections) ([], db)) as [results db'].
  cbn [fst] in Hn. subst results.
  exists new, db'. split; [reflexivity|].
  eapply Forall2_impl; [|exact Hr].
  cbn beta. intros fr q' (_ & Hd & Hm). split; assumption.
Qed.

(** C9 (as amended).  The recognize route passes [threshold || 0.5]: for a
    falsy threshold ([0], [-0], [NaN], [null], [false], the empty string, or
    none) every detected face is decided by [distance < 0.5].
    [recognizeFace] itself replaces only an omitted ([undefined]) threshold
    by [0.5]; called with any other value it decides every face against that
    value, and with [0] no face is matched. *)
Theorem falsy_threshold_replaced_by_default
  (Number_toString : float -> string) (StringToNumber : string -> float)
  (detectFace : string -> option (list (list float)))
  (path : string) (threshold : JS.value) (now : Z) (db : database)
  (detections : list (list float)) :
  JS.ToBoolean threshold = false ->
  present (Some path) = true ->
  detectFace path = Some detections -> detections <> [] ->
  (exists (results : list face_result) (db' : database),
     api_recognize Number_toString StringToNumber detectFace (Some path) threshold now db
     = (Recognized (RecognizeSuccess results), db') /\
     Forall2
       (fun fr q =>
          fr_distance fr = bm_distance (findBestMatch q (getAllFaces StringToNumber db)) /\
          fr_isMatched fr = (fr_distance fr <? 0.5)%float)
       results detections) /\
  (exists (results : list face_result) (db' : database),
     recognizeFace Number_toString StringToNumber detectFace path JS.Undefined now db
     = (RecognizeSuccess results, db') /\
     Forall2
       (fun fr q =>
          fr_distance fr = bm_distance (findBestMatch q (getAllFaces StringToNumber db)) /\
          fr_isMatched fr = (fr_distance fr <? 0.5)%float)
       results detections) /\
  (forall t : JS.value,
     t <> JS.Undefined ->
     exists (results : list face_result) (db' : database),
       recognizeFace Number_toString StringToNumber detectFace path t now db
       = (RecognizeSuccess results, db') /\
       Forall2
         (fun fr q =>
            fr_distance fr = bm_distance (findBestMatch q (getAllFaces StringToNumber db)) /\
            fr_isMatched fr = lt_value StringToNumber (fr_distance fr) t)
         results detections) /\
  (exists (results : list face_result) (db' : database),
     recognizeFace Number_toString StringToNumber detectFace path (JS.Number 0) now db
     = (RecognizeSuccess results, db') /\
     List.length results = List.length detections /\
     Forall (fun fr => fr_isMatched fr = false) results).
Proof.
  intros Hfalsy Hpresent Hdetect Hne.
  assert (Hor : JS.or_else threshold (JS.Number 0.5) = JS.Number 0.5)
    by (unfold JS.or_else; rewrite Hfalsy; reflexivity).
  split; [|split; [|split]].
  - unfold api_recognize. rewrite Hpresent, Hor. cbn [negb].
    destruct (recognizeFace_decisions Number_toString StringToNumber detectFace path
                (JS.Number 0.5) now db detections Hdetect Hne) as (results & db' & E & H).
    rewrite E. exists results, db'. split; [reflexivity|exact H].
  - apply (recognizeFace_decisions Number_toString StringToNumber detectFace path
             JS.Undefined now db detections Hdetect Hne).
  - intros t Ht.
    destruct (recognizeFace_decisions Number_toString StringToNumber detectFace path
                t now db detections Hdetect Hne) as (results & db' & E & H).
    exists results, db'. split; [exact E|].
    destruct t; try exact H. contradiction.
  - destruct (recognizeFace_decisions Number_toString StringToNumber detectFace path
                (JS.Number 0) now db detections Hdetect Hne) as (results & db' & E & H).
    exists results, db'. split; [exact E|]. split; [exact (Forall2_length H)|].
    clear E Hdetect Hne.
    induction H as [ | fr q results detections' (Hd & Hm) _ IH]; constructor;
      [|exact IH].
    rewrite Hm, Hd. unfold lt_value. cbn [ToNumber].
    destruct (bm_distance _ <? 0)%float eqn:Hlt; [|reflexivity].
    pose proof (findBestMatch_distance_nonneg q (getAllFaces StringToNumber db)) as Hge.
    apply Binary64.ltb_true_iff in Hlt. apply Binary64.leb_true_iff in Hge.
    change (IEEE.fval 0) with 0 in *. lia.
Qed.

Lemma falsy_threshold_replaced_by_default_witness :
  let db1 :=
    snd (registerFace sample_Number_toString (Some "Alice") [0.1; 0.2; 0.3]%float
           (Some "alice.jpg") 100 empty_db) in
  JS.ToBoolean (JS.Number 0) = false /\
  present (Some "pair.jpg") = true /\
  sample_detectFace "pair.jpg" = Some [ [0.1; 0.2; 0.3]; [0.5; 0.25; 1] ]%float /\
  exists (results : list face_result) (db' : database),
    api_recognize sample_Number_toString sample_StringToNumber sample_detectFace
      (Some "pair.jpg") (JS.Number 0) 101 db1
    = (Recognized (RecognizeSuccess results), db') /\
    Forall2
      (fun fr q =>
         fr_distance fr
         = bm_distance (findBestMatch q (getAllFaces sample_StringToNumber db1)) /\
         fr_isMatched fr = (fr_distance fr <? 0.5)%float)
      results [ [0.1; 0.2; 0.3]; [0.5; 0.25; 1] ]%float /\
    map fr_isMatched results = [true; false].
Proof.
  cbv zeta. split; [reflexivity|]. split; [reflexivity|]. split; [reflexivity|].
  match goal with
  | |- exists results db', api_recognize _ _ _ _ _ _ ?db = _ /\ _ =>
      destruct (falsy_threshold_replaced_by_default sample_Number_toString
                  sample_StringToNumber sample_detectFace "pair.jpg" (JS.Number 0) 101 db
                  [ [0.1; 0.2; 0.3]; [0.5; 0.25; 1] ]%float
                  eq_refl eq_refl eq_refl ltac:(discriminate))
        as ((results & db' & E & H) & _)
  end.
  exists results, db'. split; [exact E|]. split; [exact H|].
  vm_compute in E. inversion E. reflexivity.
Defined.

(** C9 (as stated) fails for a direct call: with Alice enrolled,
    [recognizeFace] called with the threshold [0] on her image keeps [0] and
    reports her unmatched at distance [0], where the threshold [0.5] (the
    default, and what the route passes for [0]) reports her matched. *)
Lemma recognizeFace_keeps_falsy_threshold :
  let db1 :=
    snd (registerFace sample_Number_toString (Some "Alice") [0.1; 0.2; 0.3]%float
           (Some "alice.jpg") 100 empty_db) in
  fst (recognizeFace sample_Number_toString sample_StringToNumber sample_detectFace
         "alice.jpg" (JS.Number 0) 101 db1)
  = RecognizeSuccess [ {| fr_name := "Alice"; fr_confidence := "100.00";
                          fr_isMatched := false; fr_distance := 0 |} ] /\
  fst (recognizeFace sample_Number_toString sample_StringToNumber sample_detectFace
         "alice.jpg" (JS.Number 0.5) 101 db1)
  = RecognizeSuccess [ {| fr_name := "Alice"; fr_confidence := "100.00";
                          fr_isMatched := true; fr_distance := 0 |} ] /\
  fst (recognizeFace sample_Number_toString sample_StringToNumber sample_detectFace
         "alice.jpg" JS.Undefined 101 db1)
  = RecognizeSuccess [ {| fr_name := "Alice"; fr_confidence := "100.00";
                          fr_isMatched := true; fr_distance := 0 |} ].
Proof. cbv zeta. repeat split; vm_compute; reflexivity. Qed.

(** ** Enrolling, then recognizing *)

Lemma stored_descriptor_equal
  (Number_toString : float -> string) (StringToNumber : string -> float) (v : list float) :
  Forall (fun x => is_finite x = true /\
                   (StringToNumber (Number_toString x) =? x)%float = true) v ->
  Forall2 (fun slot x => is_finite x = true /\
                         exists y, slot = JS.SlotNumber y /\ (y =? x)%float = true)
    (JSON_parse StringToNumber (JSON_stringify Number_toString v)) v.
Proof.
  unfold JSON_parse, JSON_stringify.
  induction 1 as [ | x v [Hfin Hread] _ IH]; cbn [map]; constructor; [|exact IH].
  rewrite JSON_roundtrip_component, Hfin. eauto.
Qed.

(** The distance from a descriptor to its own stored form. *)
Lemma distance_to_stored_zero
  (Number_toString : float -> string) (StringToNumber : string -> float) (v : list float) :
  Forall (fun x => is_finite x = true /\
                   (StringToNumber (Number_toString x) =? x)%float = true) v ->
  calculateDistance v (JSON_parse StringToNumber (JSON_stringify Number_toString v))
  = 0%float.
Proof.
  intros Hv. unfold calculateDistance.
  replace (fst (fold_left (sum_step (JSON_parse StringToNumber
                                       (JSON_stringify Number_toString v))) v (zero, O)))
    with 0%float
    by (symmetry;
        exact (sum_step_equal [] _ v (stored_descriptor_equal _ _ v Hv))).
  reflexivity.
Qed.

(** The route's [threshold || 0.5] is never [undefined]. *)
Lemma or_else_default_defined (threshold : JS.value) :
  match JS.or_else threshold (JS.Number 0.5) with
  | JS.Undefined => JS.Number 0.5
  | _ => JS.or_else threshold (JS.Number 0.5)
  end = JS.or_else threshold (JS.Number 0.5).
Proof.
  assert (H : JS.or_else threshold (JS.Number 0.5) <> JS.Undefined).
  { unfold JS.or_else. destruct threshold as [ | | b | x | s]; cbn [JS.ToBoolean];
      try discriminate.
    - destruct b; discriminate.
    - destruct (negb _); discriminate.
    - destruct (negb _); discriminate. }
  destruct (JS.or_else threshold (JS.Number 0.5)); congruence.
Qed.

(** X10.  After the register route has enrolled the one face of an image, the
    recognize route, given an image with the same (finite) descriptor,
    answers one result at distance [0] with confidence [100.00], matched
    exactly when [0] is below the threshold in force, names an enrolled
    record, and logs the confidence [100]; the name is the enrolled one
    unless an earlier record is also at distance [0]. *)
Theorem enrolled_image_recognized
  (Number_toString : float -> string) (StringToNumber : string -> float)
  (detectFace : string -> option (list (list float)))
  (name path : string) (v : list float) (threshold : JS.value) (now now' : Z)
  (db : database) :
  present (Some name) = true -> present (Some path) = true ->
  detectFace path = Some [v] ->
  Forall (fun x => is_finite x = true /\
                   (StringToNumber (Number_toString x) =? x)%float = true) v ->
  let registered := api_register Number_toString detectFace (Some name) (Some path) now db in
  let db1 := snd registered in
  let matched := lt_value StringToNumber 0 (JS.or_else threshold (JS.Number 0.5)) in
  fst registered
  = Registered ("Face registered successfully for " ++ name) (faces_seq db + 1) /\
  exists who : string,
    api_recognize Number_toString StringToNumber detectFace (Some path) threshold now' db1
    = (Recognized
         (RecognizeSuccess
            [ {| fr_name := who; fr_confidence := "100.00";
                 fr_isMatched := matched; fr_distance := 0 |} ]),
       snd (logRecognition who 100 matched now' db1)) /\
    In who (map face_name (faces db1)) /\
    ((forall r, In r (getAllFaces StringToNumber db) ->
                (distance_to v r <=? 0)%float = false) ->
     who = name).
Proof.
  intros Hname Hpath Hdetect Hv. cbv zeta.
  unfold api_register. rewrite Hname, Hpath, Hdetect. cbn [negb orb].
  cbn [registerFace fst snd].
  split; [reflexivity|].
  set (db1 := {| faces := _; faces_seq := _; recognition_logs := _; logs_seq := _ |}).
  set (new := {| rf_id := faces_seq db + 1; rf_name := name;
                 rf_descriptor := JSON_parse StringToNumber
                                    (JSON_stringify Number_toString v) |}).
  assert (Hall : getAllFaces StringToNumber db1 = getAllFaces StringToNumber db ++ [new]).
  { unfold getAllFaces, db1. cbn [faces]. rewrite map_app. reflexivity. }
  assert (Hnew : distance_to v new = 0%float).
  { apply distance_to_stored_zero, Hv. }
  destruct (findBestMatch_zero v (getAllFaces StringToNumber db1) new)
    as (i & r & Hnth & Hbest & Hz & Hfirst).
  { rewrite Hall. apply in_or_app. right. left. reflexivity. }
  { exact Hnew. }
  exists (rf_name r). split; [|split].
  - unfold api_recognize. rewrite Hpath. cbn [negb].
    unfold recognizeFace. cbv zeta. rewrite or_else_default_defined, Hdetect.
    cbn [fold_left]. unfold recognize_one. rewrite Hbest. cbn [bm_name bm_distance app].
    reflexivity.
  - apply nth_error_In in Hnth. unfold getAllFaces in Hnth.
    apply in_map_iff in Hnth. destruct Hnth as (row & <- & Hrow). cbn [rf_name].
    apply in_map, Hrow.
  - intros Hold. rewrite Hall in Hnth, Hfirst.
    destruct (Nat.lt_ge_cases i (List.length (getAllFaces StringToNumber db))) as [Hi | Hi].
    + rewrite nth_error_app1 in Hnth by exact Hi.
      pose proof (Hold r (nth_error_In _ _ Hnth)) as Hc. rewrite Hz in Hc. discriminate.
    + rewrite nth_error_app2 in Hnth by exact Hi.
      destruct (i - _)%nat as [ | k]; cbn [nth_error] in Hnth.
      * inversion Hnth. reflexivity.
      * destruct k; discriminate.
Qed.

Lemma enrolled_image_recognized_witness :
  present (Some "Alice") = true /\ present (Some "alice.jpg") = true /\
  sample_detectFace "alice.jpg" = Some [ [0.1; 0.2; 0.3]%float ] /\
  Forall (fun x => is_finite x = true /\
                   (sample_StringToNumber (sample_Number_toString x) =? x)%float = true)
    [0.1; 0.2; 0.3]%float /\
  fst (api_register sample_Number_toString sample_detectFace
         (Some "Alice") (Some "alice.jpg") 100 empty_db)
  = Registered "Face registered successfully for Alice" 1.
Proof.
  assert (H : Forall (fun x => is_finite x = true /\
                     (sample_StringToNumber (sample_Number_toString x) =? x)%float = true)
                [0.1; 0.2; 0.3]%float)
    by (repeat constructor).
  split; [reflexivity|]. split; [reflexivity|]. split; [reflexivity|]. split; [exact H|].
  destruct (enrolled_image_recognized sample_Number_toString sample_StringToNumber
              sample_detectFace "Alice" "alice.jpg" [0.1; 0.2; 0.3]%float
              (JS.Number 0.5) 100 101 empty_db eq_refl eq_refl eq_refl H) as [E _].
  exact E.
Defined.

(** ** The register route *)

(** X11.  The register route either enrolls exactly one record, for a request
    with a name and an image in which the extractor finds exactly one face,
    answering with the next id of the sequence, or answers 400 and writes
    nothing. *)
Theorem api_register_all_or_nothing
  (Number_toString : float -> string)
  (detectFace : string -> option (list (list float)))
  (name imagePath : option string) (now : Z) (db : database) :
  let out := api_register Number_toString detectFace name imagePath now db in
  (exists (n path : string) (descriptor : list float),
     name = Some n /\ imagePath = Some path /\
     present name = true /\ present imagePath = true /\
     detectFace path = Some [descriptor] /\
     fst out = Registered ("Face registered successfully for " ++ n) (faces_seq db + 1) /\
     faces (snd out)
     = faces db ++ [ {| face_id := faces_seq db + 1; face_name := n;
                        face_descriptor := JSON_stringify Number_toString descriptor;
                        face_timestamp := now; face_image_path := imagePath |} ] /\
     faces_seq (snd out) = faces_seq db + 1 /\
     recognition_logs (snd out) = recognition_logs db /\
     logs_seq (snd out) = logs_seq db)
  \/ (snd out = db /\ exists e, fst out = Status400 e).
Proof.
  cbv zeta. unfold api_register.
  destruct name as [n | ]; [|right; split; [reflexivity|eexists; reflexivity]].
  destruct imagePath as [path | ]; [|right; split; [reflexivity|eexists; reflexivity]].
  destruct (present (Some n)) eqn:Hn; cbn [negb orb];
    [|right; split; [reflexivity|eexists; reflexivity]].
  destruct (present (Some path)) eqn:Hp; cbn [negb];
    [|right; split; [reflexivity|eexists; reflexivity]].
  destruct (detectFace path) as [[ | descriptor [ | d2 others]] | ] eqn:Hd;
    try (right; split; [reflexivity|eexists; reflexivity]).
  left. exists n, path, descriptor. cbn [registerFace fst snd faces faces_seq
                                        recognition_logs logs_seq].
  repeat split; try reflexivity. exact Hd.
Qed.

(** ** Keys in sequence *)

Lemma keys_ascending_snoc (lo : Z) (keys : list Z) (hi : Z) :
  keys_ascending lo keys hi = true ->
  keys_ascending lo (keys ++ [hi + 1]) (hi + 1) = true.
Proof.
  revert lo. induction keys as [ | k keys IH]; intros lo; cbn [keys_ascending app].
  - intros H. apply Z.leb_le in H. apply andb_true_iff. split; [apply Z.ltb_lt|apply Z.leb_le]; lia.
  - intros H. apply andb_true_iff in H. destruct H as [H1 H2].
    rewrite H1. cbn [andb]. apply IH, H2.
Qed.

Lemma keys_ascending_next_keys (n : nat) (lo : Z) (keys : list Z) (hi : Z) :
  keys_ascending lo keys hi = true ->
  keys_ascending lo (keys ++ next_keys hi n) (hi + Z.of_nat n) = true.
Proof.
  revert keys hi. induction n as [ | n IH]; intros keys hi H.
  - unfold next_keys. cbn [seq map]. rewrite app_nil_r, Z.add_0_r. exact H.
  - rewrite next_keys_cons.
    replace (keys ++ (hi + 1) :: next_keys (hi + 1) n)
      with ((keys ++ [hi + 1]) ++ next_keys (hi + 1) n)
      by (rewrite <- app_assoc; reflexivity).
    replace (hi + Z.of_nat (S n)) with (hi + 1 + Z.of_nat n) by lia.
    apply IH, keys_ascending_snoc, H.
Qed.

Lemma keys_ascending_weaken (lo lo' : Z) (keys : list Z) (hi : Z) :
  lo' <= lo -> keys_ascending lo keys hi = true -> keys_ascending lo' keys hi = true.
Proof.
  intros Hlo. destruct keys as [ | k keys]; cbn [keys_ascending].
  - intros H. apply Z.leb_le in H. apply Z.leb_le. lia.
  - intros H. apply andb_true_iff in H. destruct H as [H1 H2].
    apply Z.ltb_lt in H1. rewrite H2, andb_true_r. apply Z.ltb_lt. lia.
Qed.

Lemma keys_ascending_filter {A : Type} (key : A -> Z) (keep : A -> bool)
  (rows : list A) (lo hi : Z) :
  keys_ascending lo (map key rows) hi = true ->
  keys_ascending lo (map key (filter keep rows)) hi = true.
Proof.
  revert lo. induction rows as [ | x rows IH]; intros lo; cbn [map filter keys_ascending].
  - auto.
  - intros H. apply andb_true_iff in H. destruct H as [H1 H2].
    destruct (keep x); cbn [map keys_ascending].
    + rewrite H1. cbn [andb]. apply IH, H2.
    + apply IH. apply Z.ltb_lt in H1.
      apply (keys_ascending_weaken (key x)); [lia|exact H2].
Qed.

Lemma keys_ascending_bounds (keys : list Z) (lo hi : Z) :
  keys_ascending lo keys hi = true ->
  lo <= hi /\ Forall (fun k => lo < k <= hi) keys /\ NoDup keys.
Proof.
  revert lo. induction keys as [ | k keys IH]; intros lo; cbn [keys_ascending].
  - intros H. apply Z.leb_le in H. repeat split; [exact H|constructor|constructor].
  - intros H. apply andb_true_iff in H. destruct H as [H1 H2].
    apply Z.ltb_lt in H1. destruct (IH k H2) as (Hk & Hall & Hnd).
    split; [lia|]. split.
    + constructor; [lia|]. eapply Forall_impl; [|exact Hall]. cbn. intros; lia.
    + constructor; [|exact Hnd]. intros Hin.
      rewrite Forall_forall in Hall. specialize (Hall k Hin). lia.
Qed.

(** ** Sequences of calls *)

Lemma follows_refl (db : database) : follows db db.
Proof.
  split; [lia|]. split; [auto|]. exists []. rewrite app_nil_r. split; [reflexivity|constructor].
Qed.

Lemma follows_trans (db1 db2 db3 : database) :
  follows db1 db2 -> follows db2 db3 -> follows db1 db3.
Proof.
  intros (H1 & C1 & a1 & E1 & W1) (H2 & C2 & a2 & E2 & W2).
  split; [lia|]. split; [auto|].
  exists (a1 ++ a2). rewrite E2, E1, app_assoc. split; [reflexivity|].
  apply Forall_app. split; assumption.
Qed.

Lemma registerFace_follows (Number_toString : float -> string)
  (name : option string) (descriptor : list float) (imagePath : option string)
  (now : Z) (db : database) :
  follows db (snd (registerFace Number_toString name descriptor imagePath now db)).
Proof.
  destruct name as [n | ]; [|apply follows_refl].
  cbn [registerFace snd]. split; [cbn; lia|]. split.
  - unfold store_consistent. cbn [faces faces_seq recognition_logs logs_seq].
    intros H. apply andb_true_iff in H. destruct H as [H1 H2].
    rewrite H2, andb_true_r, map_app. cbn [map face_id].
    apply keys_ascending_snoc, H1.
  - exists []. cbn [recognition_logs]. rewrite app_nil_r. split; [reflexivity|constructor].
Qed.

Lemma deleteFace_follows (faceId : Z) (db : database) :
  follows db (snd (deleteFace faceId db)).
Proof.
  cbn [deleteFace snd]. split; [cbn; lia|]. split.
  - unfold store_consistent. cbn [faces faces_seq recognition_logs logs_seq].
    intros H. apply andb_true_iff in H. destruct H as [H1 H2].
    rewrite H2, andb_true_r. apply keys_ascending_filter, H1.
  - exists []. cbn [recognition_logs]. rewrite app_nil_r. split; [reflexivity|constructor].
Qed.

Lemma recognizeFace_follows
  (Number_toString : float -> string) (StringToNumber : string -> float)
  (detectFace : string -> option (list (list float)))
  (imagePath : string) (threshold : JS.value) (now : Z) (db : database) :
  follows db
    (snd (recognizeFace Number_toString StringToNumber detectFace imagePath threshold now db)).
Proof.
  unfold recognizeFace. cbv zeta.
  destruct (detectFace imagePath) as [[ | q detections] | ]; try apply follows_refl.
  set (t := match threshold with JS.Undefined => JS.Number 0.5 | _ => threshold end).
  destruct (recognize_loop_effect Number_toString StringToNumber
              (getAllFaces StringToNumber db) t now (q :: detections) [] db)
    as (Hf & Hs & Hl & new & added & Hn & Ha & Hr & Hrec & Hid).
  destruct (fold_left _ (q :: detections) ([], db)) as [results db'].
  cbn [fst snd] in *.
  split; [lia|]. split.
  - unfold store_consistent. rewrite Hf, Hs, Ha, Hl, map_app, Hid.
    intros H. apply andb_true_iff in H. destruct H as [H1 H2].
    rewrite H1. cbn [andb]. apply keys_ascending_next_keys, H2.
  - exists added. split; [exact Ha|].
    apply (recorded_entries_well_formed Number_toString StringToNumber
             (getAllFaces StringToNumber db) t now added new (q :: detections) Hr Hrec).
Qed.

Lemma api_register_follows (Number_toString : float -> string)
  (detectFace : string -> option (list (list float)))
  (name imagePath : option string) (now : Z) (db : database) :
  follows db (snd (api_register Number_toString detectFace name imagePath now db)).
Proof.
  unfold api_register.
  destruct name as [n | ]; [|apply follows_refl].
  destruct imagePath as [path | ]; [|apply follows_refl].
  destruct (negb (present (Some n)) || negb (present (Some path))); [apply follows_refl|].
  destruct (detectFace path) as [[ | descriptor [ | d2 others]] | ];
    try apply follows_refl.
  apply (registerFace_follows Number_toString (Some n) descriptor (Some path) now db).
Qed.

Lemma api_recognize_follows
  (Number_toString : float -> string) (StringToNumber : string -> float)
  (detectFace : string -> option (list (list float)))
  (imagePath : option string) (threshold : JS.value) (now : Z) (db : database) :
  follows db
    (snd (api_recognize Number_toString StringToNumber detectFace imagePath threshold now db)).
Proof.
  unfold api_recognize.
  destruct imagePath as [path | ]; [|apply follows_refl].
  destruct (negb (present (Some path))); [apply follows_refl|].
  pose proof (recognizeFace_follows Number_toString StringToNumber detectFace path
                (JS.or_else threshold (JS.Number 0.5)) now db) as H.
  destruct (recognizeFace _ _ _ path _ now db) as [result db']. exact H.
Qed.

Lemma api_delete_follows (key_equals_text : Z -> string -> bool)
  (faceId : string) (db : database) :
  follows db (snd (api_delete key_equals_text faceId db)).
Proof.
  cbn [api_delete deleteFace_text snd]. split; [cbn; lia|]. split.
  - unfold store_consistent. cbn [faces faces_seq recognition_logs logs_seq].
    intros H. apply andb_true_iff in H. destruct H as [H1 H2].
    rewrite H2, andb_true_r. apply keys_ascending_filter, H1.
  - exists []. cbn [recognition_logs]. rewrite app_nil_r. split; [reflexivity|constructor].
Qed.

Lemma perform_follows
  (Number_toString : float -> string) (StringToNumber : string -> float)
  (detectFace : string -> option (list (list float)))
  (key_equals_text : Z -> string -> bool)
  (c : call) (now : Z) (db : database) :
  follows db (perform Number_toString StringToNumber detectFace key_equals_text c now db).
Proof.
  destruct c; cbn [perform].
  - apply registerFace_follows.
  - apply recognizeFace_follows.
  - apply deleteFace_follows.
  - apply api_register_follows.
  - apply api_recognize_follows.
  - apply api_delete_follows.
Qed.

Lemma run_follows
  (Number_toString : float -> string) (StringToNumber : string -> float)
  (detectFace : string -> option (list (list float)))
  (key_equals_text : Z -> string -> bool)
  (calls : list (call * Z)) (db : database) :
  follows db (run Number_toString StringToNumber detectFace key_equals_text calls db).
Proof.
  unfold run. revert db.
  induction calls as [ | [c now] calls IH]; intros db; cbn [fold_left fst snd].
  - apply follows_refl.
  - eapply follows_trans; [|apply IH]. apply perform_follows.
Qed.

(** X12.  Keys stay in sequence.  From a database whose keys are in sequence
    (the empty one is), every sequence of calls (of the exported functions
    that write, the POST routes and the DELETE route, whatever texts the
    store equates with a key) leads to a database whose keys
    are in sequence: the ids of the faces listed are positive, pairwise
    different and at most the counter, and so are the ids of the ledger. *)
Theorem keys_stay_in_sequence
  (Number_toString : float -> string) (StringToNumber : string -> float)
  (detectFace : string -> option (list (list float)))
  (key_equals_text : Z -> string -> bool)
  (calls : list (call * Z)) (db : database) :
  store_consistent db = true ->
  let db' := run Number_toString StringToNumber detectFace key_equals_text calls db in
  store_consistent db' = true /\
  NoDup (map rf_id (getAllFaces StringToNumber db')) /\
  Forall (fun r => 0 < rf_id r <= faces_seq db') (getAllFaces StringToNumber db') /\
  NoDup (map log_id (recognition_logs db')) /\
  Forall (fun e => 0 < log_id e <= logs_seq db') (recognition_logs db').
Proof.
  intros H. cbv zeta.
  destruct (run_follows Number_toString StringToNumber detectFace key_equals_text calls db) as (_ & C & _).
  specialize (C H). split; [exact C|].
  unfold store_consistent in C. apply andb_true_iff in C. destruct C as [C1 C2].
  apply keys_ascending_bounds in C1, C2.
  destruct C1 as (_ & B1 & N1). destruct C2 as (_ & B2 & N2).
  assert (Hids : map rf_id (getAllFaces StringToNumber
                              (run Number_toString StringToNumber detectFace key_equals_text calls db))
                 = map face_id (faces (run Number_toString StringToNumber detectFace key_equals_text calls db))).
  { unfold getAllFaces. rewrite map_map. reflexivity. }
  split; [rewrite Hids; exact N1|].
  split; [|split; [exact N2|]].
  - apply Forall_forall. intros r Hr. rewrite Forall_forall in B1.
    apply B1. rewrite <- Hids. apply in_map, Hr.
  - apply Forall_forall. intros e He. rewrite Forall_forall in B2.
    apply B2. apply in_map, He.
Qed.

Lemma keys_stay_in_sequence_witness :
  let calls :=
    [ (PostRegister (Some "Alice") (Some "alice.jpg"), 100);
      (PostRecognize (Some "pair.jpg") JS.Undefined, 101);
      (CallDeleteFace 1, 102);
      (PostRegister (Some "Bob") (Some "bob.jpg"), 103);
      (DeleteRoute "2", 104) ] in
  store_consistent empty_db = true /\
  store_consistent
    (run sample_Number_toString sample_StringToNumber sample_detectFace
       sample_key_equals_text calls empty_db)
  = true.
Proof.
  cbv zeta. split; [reflexivity|].
  apply (keys_stay_in_sequence sample_Number_toString sample_StringToNumber
           sample_detectFace sample_key_equals_text _ empty_db eq_refl).
Defined.

(** X13.  The ledger is append-only.  Whatever calls are made, deletions of
    faces included, the entries the ledger held are still there, unchanged
    and in the same place, followed by the entries added since; every added
    entry has a confidence in [[0, 100]] and the status [matched] or
    [unmatched]. *)
Theorem ledger_append_only
  (Number_toString : float -> string) (StringToNumber : string -> float)
  (detectFace : string -> option (list (list float)))
  (key_equals_text : Z -> string -> bool)
  (calls : list (call * Z)) (db : database) :
  exists added : list log_row,
    recognition_logs (run Number_toString StringToNumber detectFace key_equals_text calls db)
    = recognition_logs db ++ added /\
    Forall (fun e => entry_well_formed e = true) added.
Proof.
  destruct (run_follows Number_toString StringToNumber detectFace key_equals_text calls db) as (_ & _ & H).
  exact H.
Qed.

(** X14.  An id is never assigned twice.  In a database whose keys are in
    sequence, whatever calls are made next (the deletion of the record
    included), a later [registerFace] resolves with an id above the id of
    every record the database held. *)
Theorem face_ids_never_reused
  (Number_toString : float -> string) (StringToNumber : string -> float)
  (detectFace : string -> option (list (list float)))
  (key_equals_text : Z -> string -> bool)
  (calls : list (call * Z)) (db : database) (row : face_row)
  (name : string) (descriptor : list float) (imagePath : option string) (now : Z) :
  store_consistent db = true ->
  In row (faces db) ->
  exists id : Z,
    fst (registerFace Number_toString (Some name) descriptor imagePath now
           (run Number_toString StringToNumber detectFace key_equals_text calls db))
    = inr id /\
    face_id row < id.
Proof.
  intros H Hin.
  destruct (run_follows Number_toString StringToNumber detectFace key_equals_text calls db) as (Hseq & _ & _).
  exists (faces_seq (run Number_toString StringToNumber detectFace key_equals_text calls db) + 1).
  split; [reflexivity|].
  unfold store_consistent in H. apply andb_true_iff in H. destruct H as [H1 _].
  apply keys_ascending_bounds in H1. destruct H1 as (_ & B1 & _).
  rewrite Forall_forall in B1. specialize (B1 (face_id row) (in_map face_id _ _ Hin)). lia.
Qed.

Lemma face_ids_never_reused_witness :
  let db1 :=
    snd (registerFace sample_Number_toString (Some "Alice") [0.1; 0.2; 0.3]%float
           (Some "alice.jpg") 100 empty_db) in
  let alice :=
    {| face_id := 1; face_name := "Alice";
       face_descriptor := [JsonNumber "0.1"; JsonNumber "0.2"; JsonNumber "0.3"];
       face_timestamp := 100; face_image_path := Some "alice.jpg" |} in
  store_consistent db1 = true /\
  In alice (faces db1) /\
  exists id : Z,
    fst (registerFace sample_Number_toString (Some "Bob") [0.5; 0.25]%float
           (Some "bob.jpg") 102
           (run sample_Number_toString sample_StringToNumber sample_detectFace
              sample_key_equals_text [ (DeleteRoute "1", 101) ] db1))
    = inr id /\
    1 < id.
Proof.
  cbv zeta. split; [reflexivity|]. split; [left; reflexivity|].
  apply (face_ids_never_reused sample_Number_toString sample_StringToNumber
           sample_detectFace sample_key_equals_text [ (DeleteRoute "1", 101) ] _
           {| face_id := 1; face_name := "Alice";
              face_descriptor := [JsonNumber "0.1"; JsonNumber "0.2"; JsonNumber "0.3"];
              face_timestamp := 100; face_image_path := Some "alice.jpg" |}
           "Bob" [0.5; 0.25]%float (Some "bob.jpg") 102).
  - reflexivity.
  - left. reflexivity.
Defined.

(** ** Deleting a face *)

Lemma filter_other_keys_length {A : Type} (key : A -> Z) (k : Z) (rows : list A) :
  NoDup (map key rows) -> In k (map key rows) ->
  S (List.length (filter (fun r => negb (key r =? k)) rows)) = List.length rows.
Proof.
  induction rows as [ | x rows IH]; cbn [map filter List.length]; intros Hnd Hin.
  - destruct Hin.
  - inversion Hnd as [ | ? ? Hx Hnd']; subst.
    destruct (Z.eqb_spec (key x) k) as [E | E]; cbn [negb List.length].
    + f_equal. subst k. rewrite forallb_filter_id; [reflexivity|]. apply forallb_forall.
      intros r Hr. apply negb_true_iff, Z.eqb_neq. intros E. apply Hx.
      rewrite <- E. apply in_map, Hr.
    + f_equal. apply IH; [exact Hnd'|]. destruct Hin as [Hin | Hin]; [contradiction|exact Hin].
Qed.

Lemma api_faces_delete (StringToNumber : string -> float) (faceId : Z) (db : database) :
  fl_faces (api_faces StringToNumber (snd (deleteFace faceId db)))
  = filter (fun entry => negb (fst entry =? faceId)) (fl_faces (api_faces StringToNumber db)).
Proof.
  unfold api_faces, getAllFaces. cbn [fl_faces deleteFace snd faces].
  rewrite !map_map. cbn [rf_id rf_name].
  induction (faces db) as [ | row rows IH]; cbn [map filter fst].
  - reflexivity.
  - destruct (negb (face_id row =? faceId)); cbn [map]; rewrite IH; reflexivity.
Qed.

(** X15.  In a database whose keys are in sequence, deleting the id of a listed
    face removes exactly that record from the listing of [/api/faces]: the
    count drops by one, the id is no longer listed, and the other records
    stay, in the same order. *)
Theorem deleteFace_removes_one_record
  (StringToNumber : string -> float) (faceId : Z) (db : database) :
  store_consistent db = true ->
  In faceId (map fst (fl_faces (api_faces StringToNumber db))) ->
  let before := api_faces StringToNumber db in
  let after := api_faces StringToNumber (snd (deleteFace faceId db)) in
  S (fl_count after) = fl_count before /\
  fl_faces after = filter (fun entry => negb (fst entry =? faceId)) (fl_faces before) /\
  ~ In faceId (map fst (fl_faces after)).
Proof.
  intros H Hin. cbv zeta.
  assert (Hids : map fst (fl_faces (api_faces StringToNumber db)) = map face_id (faces db)).
  { unfold api_faces, getAllFaces. cbn [fl_faces]. rewrite !map_map. reflexivity. }
  rewrite Hids in Hin.
  unfold store_consistent in H. apply andb_true_iff in H. destruct H as [H1 _].
  apply keys_ascending_bounds in H1. destruct H1 as (_ & _ & Hnd).
  split; [|split].
  - unfold api_faces, getAllFaces. cbn [fl_count deleteFace snd faces].
    rewrite !length_map. apply filter_other_keys_length; assumption.
  - apply api_faces_delete.
  - rewrite api_faces_delete. intros Hc. apply in_map_iff in Hc.
    destruct Hc as (entry & Hfst & Hentry). apply filter_In in Hentry.
    destruct Hentry as [_ Hneq]. rewrite Hfst, Z.eqb_refl in Hneq. discriminate.
Qed.

Lemma deleteFace_removes_one_record_witness :
  let db1 :=
    snd (registerFace sample_Number_toString (Some "Alice") [0.1; 0.2; 0.3]%float
           (Some "alice.jpg") 100 empty_db) in
  let db2 :=
    snd (registerFace sample_Number_toString (Some "Bob") [0.5; 0.25]%float
           (Some "bob.jpg") 101 db1) in
  store_consistent db2 = true /\
  In 1 (map fst (fl_faces (api_faces sample_StringToNumber db2))) /\
  fl_faces (api_faces sample_StringToNumber (snd (deleteFace 1 db2))) = [ (2, "Bob") ].
Proof.
  cbv zeta. split; [reflexivity|]. split; [left; reflexivity|].
  match goal with
  | |- fl_faces (api_faces _ (snd (deleteFace _ ?db))) = _ =>
      destruct (deleteFace_removes_one_record sample_StringToNumber 1 db eq_refl
                  (or_introl eq_refl)) as (_ & E & _)
  end.
  rewrite E. reflexivity.
Defined.

(** X16.  In a database whose keys are in sequence, deleting the id that
    [registerFace] has just resolved with undoes the enrollment: the table
    and the listing of [/api/faces] are as before it (the counter is not:
    the id is not assigned again), and the ledger is untouched. *)
Theorem register_then_delete_restores
  (Number_toString : float -> string) (StringToNumber : string -> float)
  (name : string) (descriptor : list float) (imagePath : option string)
  (now : Z) (db : database) :
  store_consistent db = true ->
  let registered := registerFace Number_toString (Some name) descriptor imagePath now db in
  let after := snd (deleteFace (faces_seq db + 1) (snd registered)) in
  fst registered = inr (faces_seq db + 1) /\
  faces after = faces db /\
  api_faces StringToNumber after = api_faces StringToNumber db /\
  faces_seq after = faces_seq db + 1 /\
  recognition_logs after = recognition_logs db.
Proof.
  intros H. cbv zeta. cbn [registerFace deleteFace fst snd faces faces_seq recognition_logs].
  unfold store_consistent in H. apply andb_true_iff in H. destruct H as [H1 _].
  apply keys_ascending_bounds in H1. destruct H1 as (_ & B1 & _).
  assert (E : filter (fun row => negb (face_id row =? faces_seq db + 1))
                (faces db ++ [ {| face_id := faces_seq db + 1; face_name := name;
                                  face_descriptor := JSON_stringify Number_toString descriptor;
                                  face_timestamp := now; face_image_path := imagePath |} ])
              = faces db).
  { rewrite filter_app. cbn [filter face_id]. rewrite Z.eqb_refl. cbn [negb].
    rewrite app_nil_r. apply forallb_filter_id, forallb_forall.
    intros row Hrow. apply negb_true_iff, Z.eqb_neq.
    rewrite Forall_forall in B1. specialize (B1 (face_id row) (in_map face_id _ _ Hrow)). lia. }
  split; [reflexivity|]. split; [exact E|]. split; [|split; reflexivity].
  unfold api_faces, getAllFaces. cbn [faces]. rewrite E. reflexivity.
Qed.

Lemma register_then_delete_restores_witness :
  let db1 :=
    snd (registerFace sample_Number_toString (Some "Alice") [0.1; 0.2; 0.3]%float
           (Some "alice.jpg") 100 empty_db) in
  store_consistent db1 = true /\
  faces (snd (deleteFace 2
                (snd (registerFace sample_Number_toString (Some "Bob") [0.5; 0.25]%float
                        (Some "bob.jpg") 101 db1))))
  = faces db1.
Proof.
  cbv zeta. split; [reflexivity|].
  match goal with
  | |- faces (snd (deleteFace _ (snd (registerFace _ _ _ _ _ ?db)))) = _ =>
      destruct (register_then_delete_restores sample_Number_toString sample_StringToNumber
                  "Bob" [0.5; 0.25]%float (Some "bob.jpg") 101 db eq_refl)
        as (_ & E & _)
  end.
  exact E.
Defined.

(** ** The history of the latest call *)

Lemma Permutation_filter_keep {A : Type} (keep : A -> bool) (l1 l2 : list A) :
  Permutation l1 l2 -> Permutation (filter keep l1) (filter keep l2).
Proof.
  induction 1 as [ | x l1 l2 _ IH | x y l | l1 l2 l3 _ IH1 _ IH2]; cbn [filter].
  - constructor.
  - destruct (keep x); [apply perm_skip|]; exact IH.
  - destruct (keep x), (keep y); try apply Permutation_refl. apply perm_swap.
  - eapply Permutation_trans; eassumption.
Qed.

Lemma filter_none {A : Type} (keep : A -> bool) (l : list A) :
  (forall x, In x l -> keep x = false) -> filter keep l = [].
Proof.
  induction l as [ | x l IH]; intros H; cbn [filter]; [reflexivity|].
  rewrite (H x (or_introl eq_refl)). apply IH. intros y Hy. apply H. right. exact Hy.
Qed.

(** In a list ordered by non-increasing timestamp the entries at or after
    [T] come first. *)
Lemma sorted_desc_split (T : Z) (l : list log_row) :
  StronglySorted (fun a b => log_timestamp b <= log_timestamp a) l ->
  l = filter (fun e => T <=? log_timestamp e) l
      ++ filter (fun e => negb (T <=? log_timestamp e)) l.
Proof.
  induction 1 as [ | x l Hs IH Hx]; cbn [filter]; [reflexivity|].
  destruct (Z.leb_spec T (log_timestamp x)) as [Hle | Hlt]; cbn [negb app].
  - f_equal. exact IH.
  - assert (E : filter (fun e => T <=? log_timestamp e) l = []).
    { apply filter_none. intros e He. apply Z.leb_gt.
      rewrite Forall_forall in Hx. specialize (Hx e He). lia. }
    rewrite E. cbn [app]. f_equal.
    symmetry. apply forallb_filter_id, forallb_forall.
    intros e He. apply negb_true_iff, Z.leb_gt.
    rewrite Forall_forall in Hx. specialize (Hx e He). lia.
Qed.

(** When the last entries of the ledger are later than all the others, every
    answer of the history query limited to their number holds exactly them. *)
Lemma history_of_latest_entries (T : Z) (db : database) (old new rows : list log_row) :
  recognition_logs db = old ++ new ->
  Forall (fun e => log_timestamp e < T) old ->
  Forall (fun e => T <= log_timestamp e) new ->
  history_answer (Z.of_nat (List.length new)) db rows ->
  Permutation new rows.
Proof.
  intros Hlogs Hold Hnew (sorted & [Hperm Hsorted] & ->).
  unfold sql_limit. destruct (Z.ltb_spec (Z.of_nat (List.length new)) 0) as [Hneg | _]; [lia|].
  rewrite Nat2Z.id.
  pose proof (Permutation_filter_keep (fun e => T <=? log_timestamp e) _ _ Hperm) as Hp.
  rewrite Hlogs, filter_app in Hp.
  assert (E1 : filter (fun e => T <=? log_timestamp e) old = []).
  { apply filter_none. intros e He. apply Z.leb_gt.
    rewrite Forall_forall in Hold. apply Hold, He. }
  assert (E2 : filter (fun e => T <=? log_timestamp e) new = new).
  { apply forallb_filter_id, forallb_forall. intros e He. apply Z.leb_le.
    rewrite Forall_forall in Hnew. apply Hnew, He. }
  rewrite E1, E2 in Hp. cbn [app] in Hp.
  rewrite (sorted_desc_split T sorted Hsorted).
  rewrite (Permutation_length Hp), firstn_app, Nat.sub_diag, firstn_all, firstn_O, app_nil_r.
  exact Hp.
Qed.

(** X17.  Once the store has executed the inserts issued by a recognize call
    (in whatever order, with no other insert in between) at clock readings
    later than every earlier entry of the ledger, every answer of the history
    query limited to the number of detected faces holds exactly the entries
    of that call, one per face. *)
Theorem history_after_recognize
  (Number_toString : float -> string) (StringToNumber : string -> float)
  (detectFace : string -> option (list (list float)))
  (imagePath : string) (threshold : JS.value) (db : database)
  (detections : list (list float)) (executed : list (issued_log * Z)) (T : Z)
  (rows : list log_row) :
  detectFace imagePath = Some detections ->
  Permutation (map fst executed)
    (snd (recognizeFace_issued Number_toString StringToNumber detectFace imagePath
            threshold db)) ->
  Forall (fun e => log_timestamp e < T) (recognition_logs db) ->
  Forall (fun ex => T <= snd ex) executed ->
  history_answer (Z.of_nat (List.length detections)) (execute_logs executed db) rows ->
  List.length rows = List.length detections /\
  exists added : list log_row,
    recognition_logs (execute_logs executed db) = recognition_logs db ++ added /\
    Forall2 written_by added executed /\
    Permutation added rows.
Proof.
  intros Hdetect Hperm Hold Hclock Hrows.
  assert (Hlen : List.length executed = List.length detections).
  { rewrite <- (length_map fst executed), (Permutation_length Hperm).
    unfold recognizeFace_issued. cbv zeta. rewrite Hdetect.
    destruct detections as [ | q detections]; [reflexivity|].
    set (t := match threshold with JS.Undefined => JS.Number 0.5 | _ => threshold end).
    destruct (recognize_issue_effect Number_toString StringToNumber
                (getAllFaces StringToNumber db) t (q :: detections) [] [])
      as (new & more & Hn & Hm & Hr & Hi).
    destruct (fold_left _ (q :: detections) ([], [])) as [results issued].
    cbn [fst snd app] in *. subst issued.
    rewrite (Forall2_length Hi). exact (Forall2_length Hr). }
  destruct (execute_logs_effect executed db) as (_ & _ & _ & added & Ha & Hw & _).
  assert (Hadded : List.length added = List.length detections)
    by (rewrite (Forall2_length Hw); exact Hlen).
  assert (Hstamp : Forall (fun e => T <= log_timestamp e) added).
  { clear - Hw Hclock. induction Hw as [ | e ex added executed (_ & _ & _ & Hs) _ IH].
    - constructor.
    - inversion Hclock; subst. constructor; [lia | apply IH; assumption]. }
  rewrite <- Hadded in Hrows.
  pose proof (history_of_latest_entries T (execute_logs executed db) (recognition_logs db)
                added rows Ha Hold Hstamp Hrows) as Hp.
  split; [rewrite <- (Permutation_length Hp); exact Hadded|].
  exists added. repeat split; assumption.
Qed.

Lemma history_after_recognize_witness :
  let issued :=
    snd (recognizeFace_issued sample_Number_toString sample_StringToNumber
           sample_detectFace "pair.jpg" JS.Undefined sample_ledger) in
  let executed := combine (rev issued) [105; 106] in
  let db' := execute_logs executed sample_ledger in
  sample_detectFace "pair.jpg" = Some [ [0.1; 0.2; 0.3]; [0.5; 0.25; 1] ]%float /\
  Permutation (map fst executed) issued /\
  Forall (fun e => log_timestamp e < 105) (recognition_logs sample_ledger) /\
  Forall (fun ex => 105 <= snd ex) executed /\
  history_answer 2 db' (getRecognitionHistory 2 db') /\
  List.length (getRecognitionHistory 2 db') = 2%nat.
Proof.
  cbv zeta.
  assert (Hperm : Permutation
            (map fst (combine (rev (snd (recognizeFace_issued sample_Number_toString
                                           sample_StringToNumber sample_detectFace
                                           "pair.jpg" JS.Undefined sample_ledger)))
                         [105; 106]))
            (snd (recognizeFace_issued sample_Number_toString sample_StringToNumber
                    sample_detectFace "pair.jpg" JS.Undefined sample_ledger)))
    by apply perm_swap.
  assert (Hold : Forall (fun e => log_timestamp e < 105) (recognition_logs sample_ledger))
    by (repeat constructor).
  assert (Hclock : Forall (fun ex : issued_log * Z => 105 <= snd ex)
            (combine (rev (snd (recognizeFace_issued sample_Number_toString
                                  sample_StringToNumber sample_detectFace
                                  "pair.jpg" JS.Undefined sample_ledger)))
               [105; 106]))
    by (repeat constructor; cbn; lia).
  split; [reflexivity|]. split; [exact Hperm|]. split; [exact Hold|].
  split; [exact Hclock|]. split; [apply getRecognitionHistory_answer|].
  destruct (history_after_recognize sample_Number_toString sample_StringToNumber
              sample_detectFace "pair.jpg" JS.Undefined sample_ledger
              [ [0.1; 0.2; 0.3]; [0.5; 0.25; 1] ]%float _ 105 _
              eq_refl Hperm Hold Hclock (getRecognitionHistory_answer 2 _)) as (Hlen & _).
  exact Hlen.
Defined.

(** ** Listing and matching after enrollment and deletion *)

(** X18.  After the register route has enrolled the one face of an image,
    [getAllFaces] lists the new record last, under the id answered, with the
    name given and a descriptor whose slots are numbers equal to the
    (finite) components; [/api/faces] counts one more face and lists the id
    and the name last. *)
Theorem enrolled_face_listed
  (Number_toString : float -> string) (StringToNumber : string -> float)
  (detectFace : string -> option (list (list float)))
  (name path : string) (v : list float) (now : Z) (db : database) :
  present (Some name) = true -> present (Some path) = true ->
  detectFace path = Some [v] ->
  Forall (fun x => is_finite x = true /\
                   (StringToNumber (Number_toString x) =? x)%float = true) v ->
  let db1 := snd (api_register Number_toString detectFace (Some name) (Some path) now db) in
  (exists stored : list JS.slot,
     getAllFaces StringToNumber db1
     = getAllFaces StringToNumber db
       ++ [ {| rf_id := faces_seq db + 1; rf_name := name; rf_descriptor := stored |} ] /\
     Forall2 (fun slot x => exists y, slot = JS.SlotNumber y /\ (y =? x)%float = true)
       stored v) /\
  fl_count (api_faces StringToNumber db1) = S (fl_count (api_faces StringToNumber db)) /\
  fl_faces (api_faces StringToNumber db1)
  = fl_faces (api_faces StringToNumber db) ++ [ (faces_seq db + 1, name) ].
Proof.
  intros Hname Hpath Hdetect Hv. cbv zeta.
  unfold api_register. rewrite Hname, Hpath, Hdetect. cbn [negb orb registerFace snd].
  assert (Hall : forall db1,
             faces db1 = faces db ++ [ {| face_id := faces_seq db + 1; face_name := name;
                                          face_descriptor := JSON_stringify Number_toString v;
                                          face_timestamp := now;
                                          face_image_path := Some path |} ] ->
             getAllFaces StringToNumber db1
             = getAllFaces StringToNumber db
               ++ [ {| rf_id := faces_seq db + 1; rf_name := name;
                       rf_descriptor := JSON_parse StringToNumber
                                          (JSON_stringify Number_toString v) |} ]).
  { intros db1 E. unfold getAllFaces. rewrite E, map_app. reflexivity. }
  set (db1 := {| faces := _; faces_seq := _; recognition_logs := _; logs_seq := _ |}).
  pose proof (Hall db1 eq_refl) as E.
  split; [|split].
  - eexists. split; [exact E|].
    eapply Forall2_impl; [|apply stored_descriptor_equal, Hv].
    cbn. intros slot x [_ H]. exact H.
  - unfold api_faces. cbn [fl_count]. rewrite E, length_app. cbn. lia.
  - unfold api_faces. cbn [fl_faces]. rewrite E, map_app. reflexivity.
Qed.

Lemma enrolled_face_listed_witness :
  present (Some "Alice") = true /\ present (Some "alice.jpg") = true /\
  sample_detectFace "alice.jpg" = Some [ [0.1; 0.2; 0.3]%float ] /\
  Forall (fun x => is_finite x = true /\
                   (sample_StringToNumber (sample_Number_toString x) =? x)%float = true)
    [0.1; 0.2; 0.3]%float /\
  fl_faces (api_faces sample_StringToNumber
              (snd (api_register sample_Number_toString sample_detectFace
                      (Some "Alice") (Some "alice.jpg") 100 empty_db)))
  = [ (1, "Alice") ].
Proof.
  assert (H : Forall (fun x => is_finite x = true /\
                     (sample_StringToNumber (sample_Number_toString x) =? x)%float = true)
                [0.1; 0.2; 0.3]%float)
    by (repeat constructor).
  split; [reflexivity|]. split; [reflexivity|]. split; [reflexivity|]. split; [exact H|].
  destruct (enrolled_face_listed sample_Number_toString sample_StringToNumber
              sample_detectFace "Alice" "alice.jpg" [0.1; 0.2; 0.3]%float 100 empty_db
              eq_refl eq_refl eq_refl H) as (_ & _ & E).
  exact E.
Defined.

(** X19.  A deleted face is not matched again: after [deleteFace], every result
    of [recognizeFace] is [Unknown] at distance [Infinity], or carries the
    name and the distance of a record listed before the deletion whose id is
    not the deleted one. *)
Theorem deleted_face_not_matched
  (Number_toString : float -> string) (StringToNumber : string -> float)
  (detectFace : string -> option (list (list float)))
  (faceId : Z) (imagePath : string) (threshold : JS.value) (now : Z) (db : database) :
  let out :=
    recognizeFace Number_toString StringToNumber detectFace imagePath threshold now
      (snd (deleteFace faceId db)) in
  match fst out with
  | RecognizeFailure _ => True
  | RecognizeSuccess results =>
      exists detections,
        detectFace imagePath = Some detections /\
        Forall2
          (fun fr q =>
             (fr_name fr = "Unknown" /\ fr_distance fr = JS.Infinity /\
              fr_isMatched fr = false)
             \/ exists r, In r (getAllFaces StringToNumber db) /\ rf_id r <> faceId /\
                          fr_name fr = rf_name r /\ fr_distance fr = distance_to q r)
          results detections
  end.
Proof.
  cbv zeta. unfold recognizeFace. cbv zeta.
  destruct (detectFace imagePath) as [[ | q detections] | ]; try exact I.
  set (t := match threshold with JS.Undefined => JS.Number 0.5 | _ => threshold end).
  set (db1 := snd (deleteFace faceId db)).
  destruct (recognize_loop_effect Number_toString StringToNumber
              (getAllFaces StringToNumber db1) t now (q :: detections) [] db1)
    as (_ & _ & _ & new & added & Hn & _ & Hr & _ & _).
  destruct (fold_left _ (q :: detections) ([], db1)) as [results db'].
  cbn [fst snd] in *. subst results.
  exists (q :: detections). split; [reflexivity|].
  eapply Forall2_impl; [|exact Hr].
  cbn beta. intros fr q' (Hname & Hdist & Hmatch).
  destruct (findBestMatch_cases q' (getAllFaces StringToNumber db1))
    as [E | (r & Hin & E & _)]; rewrite E in Hname, Hdist; cbn [bm_name bm_distance] in *.
  - left. split; [exact Hname|]. split; [exact Hdist|].
    rewrite Hmatch, Hdist. apply infinity_ltb.
  - right. exists r. split; [|split; [|split; assumption]].
    + unfold getAllFaces, db1 in Hin. cbn [deleteFace snd faces] in Hin.
      apply in_map_iff in Hin. destruct Hin as (row & <- & Hrow).
      apply filter_In in Hrow. destruct Hrow as [Hrow _].
      unfold getAllFaces.
      apply (in_map (fun row => {| rf_id := face_id row; rf_name := face_name row;
                                   rf_descriptor := JSON_parse StringToNumber
                                                      (face_descriptor row) |}) _ _ Hrow).
    + unfold getAllFaces, db1 in Hin. cbn [deleteFace snd faces] in Hin.
      apply in_map_iff in Hin. destruct Hin as (row & <- & Hrow).
      apply filter_In in Hrow. destruct Hrow as [_ Hneq]. cbn [rf_id].
      apply negb_true_iff, Z.eqb_neq in Hneq. exact Hneq.
Qed.

(** ** The history route *)

Lemma getRecognitionHistory_shape (limit : Z) (db : database) :
  let rows := getRecognitionHistory limit db in
  StronglySorted (fun a b => log_timestamp b <= log_timestamp a) rows /\
  (forall e, In e rows -> In e (recognition_logs db)) /\
  (0 <= limit ->
   List.length rows = Nat.min (Z.to_nat limit) (List.length (recognition_logs db))).
Proof.
  cbv zeta. unfold getRecognitionHistory.
  destruct (sort_by_timestamp_desc_spec (recognition_logs db)) as [Hperm Hsorted].
  set (sorted := sort_by_timestamp_desc (recognition_logs db)) in *.
  unfold sql_limit. destruct (Z.ltb_spec limit 0) as [Hneg | Hpos].
  - split; [exact Hsorted|]. split; [|lia].
    intros e He. apply (Permutation_in _ (Permutation_sym Hperm) He).
  - pose proof (firstn_skipn (Z.to_nat limit) sorted) as Hsplit.
    split; [|split].
    + rewrite <- Hsplit in Hsorted. apply (StronglySorted_app_inv _ _ _ Hsorted).
    + intros e He. apply (Permutation_in _ (Permutation_sym Hperm)).
      rewrite <- Hsplit. apply in_or_app. left. exact He.
    + intros _. rewrite length_firstn, (Permutation_length Hperm). reflexivity.
Qed.

(** X20.  The history route answers with entries of the ledger in an order
    of non-increasing timestamp, [count] being their number.  Without a [limit] parameter (or with an empty one)
    it answers with at most 50 entries: [min(50, n)] of the [n] entries.
    With a parameter that the store reads as the integer [k] it answers with
    [min(k, n)] entries when [k >= 0]; it fails only when the store rejects
    the parameter as a limit. *)
Theorem api_history_page
  (limit_of_text : string -> string + Z) (limit : option string) (db : database) :
  let n := List.length (recognition_logs db) in
  match api_history limit_of_text limit db with
  | History count history =>
      count = List.length history /\
      StronglySorted (fun a b => log_timestamp b <= log_timestamp a) history /\
      (forall e, In e history -> In e (recognition_logs db)) /\
      (present limit = false -> count = Nat.min 50 n /\ history_answer 50 db history) /\
      (forall text k,
         limit = Some text -> present limit = true -> limit_of_text text = inr k ->
         history_answer k db history /\ (0 <= k -> count = Nat.min (Z.to_nat k) n))
  | HistoryError message =>
      exists text,
        limit = Some text /\ present limit = true /\ limit_of_text text = inl message
  end.
Proof.
  cbv zeta.
  assert (Hdefault :
            forall l : option string, present l = false ->
              api_history limit_of_text l db
              = History (List.length (getRecognitionHistory 50 db))
                  (getRecognitionHistory 50 db)).
  { intros [text | ] Hl; unfold api_history; [rewrite Hl|]; reflexivity. }
  destruct (present limit) eqn:Hp.
  - destruct limit as [text | ]; [|discriminate].
    unfold api_history. rewrite Hp.
    destruct (limit_of_text text) as [message | k] eqn:Hk.
    + exists text. repeat split; assumption.
    + cbv zeta.
      destruct (getRecognitionHistory_shape k db) as (Hs & Hin & Hlen).
      split; [reflexivity|]. split; [exact Hs|]. split; [exact Hin|].
      split; [discriminate|].
      intros text' k' E _ Hk'. inversion E; subst text'.
      rewrite Hk in Hk'. inversion Hk'; subst k'.
      split; [apply getRecognitionHistory_answer | exact Hlen].
  - rewrite (Hdefault limit Hp).
    destruct (getRecognitionHistory_shape 50 db) as (Hs & Hin & Hlen).
    split; [reflexivity|]. split; [exact Hs|]. split; [exact Hin|].
    split.
    + intros _. split; [apply Hlen; lia | apply getRecognitionHistory_answer].
    + intros text k _ Hc. discriminate.
Qed.
